(** * A compressed bitset and its append-only list: the word codec of
    [bitset.h], the length-prefixed integers and the list container of
    [list.c], and the query and mutation engine as the specification
    describes it.

    Machine integers are [Z] with the wrap-around written out; a buffer is
    a list of bytes, each byte a [Z] in [0, 256); a [char *] into a buffer
    is an index into that list. *)

From Stdlib Require Import ZArith List Bool Lia.
From coqutil Require Import Z.bitblast.
Import ListNotations.
Local Open Scope Z_scope.

(** ** Machine integers *)

(** Conversion to [unsigned] / [uint32_t]. *)
Definition wrap32 (z : Z) : Z := z mod 2 ^ 32.

(** The cast [(unsigned char) z]. *)
Definition uchar (z : Z) : Z := z mod 2 ^ 8.

(** A [char] held in a buffer, kept as its unsigned representative. *)
Definition to_char (z : Z) : Z := z mod 2 ^ 8.

(** ** The word codec: the macros of [bitset.h] *)

Module Word.

(** [sizeof(bitset_word)] for [bitset_word = uint32_t]. *)
Definition sizeof_bitset_word : Z := 4.

Definition BITSET_LOG2 (v : Z) : Z :=
  8 - 90 / (Z.lor (v / 4 + 14) 1) - 2 / (v / 2 + 1).

Definition BITSET_WORD_LENGTH : Z := sizeof_bitset_word * 8.
Definition BITSET_POSITION_LENGTH : Z := BITSET_LOG2 BITSET_WORD_LENGTH.

(** [1 << 31], as the bit pattern it has once combined with a
    [bitset_word]. *)
Definition BITSET_FILL_BIT : Z := Z.shiftl 1 (BITSET_WORD_LENGTH - 1).
Definition BITSET_SPAN_LENGTH : Z :=
  BITSET_WORD_LENGTH - BITSET_POSITION_LENGTH - 1.
Definition BITSET_POSITION_MASK : Z :=
  Z.shiftl (Z.shiftl 1 BITSET_POSITION_LENGTH - 1) BITSET_SPAN_LENGTH.
Definition BITSET_LENGTH_MASK : Z := Z.shiftl 1 BITSET_SPAN_LENGTH - 1.
Definition BITSET_LITERAL_LENGTH : Z := BITSET_WORD_LENGTH - 1.

(** [BITSET_IS_FILL_WORD] yields the masked word; C reads it as a truth
    value, which is what the boolean below is. *)
Definition BITSET_IS_FILL_WORD (word : Z) : bool :=
  negb (Z.land word BITSET_FILL_BIT =? 0).
Definition BITSET_IS_LITERAL_WORD (word : Z) : bool :=
  Z.land word BITSET_FILL_BIT =? 0.
Definition BITSET_GET_LENGTH (word : Z) : Z := Z.land word BITSET_LENGTH_MASK.
Definition BITSET_SET_LENGTH (word len : Z) : Z := Z.lor word len.
Definition BITSET_GET_POSITION (word : Z) : Z :=
  Z.shiftr (Z.land word BITSET_POSITION_MASK) BITSET_SPAN_LENGTH.
Definition BITSET_SET_POSITION (word pos : Z) : Z :=
  wrap32 (Z.lor word (Z.shiftl pos BITSET_SPAN_LENGTH)).
Definition BITSET_UNSET_POSITION (word : Z) : Z :=
  Z.land word (wrap32 (Z.lnot BITSET_POSITION_MASK)).
Definition BITSET_CREATE_FILL (len pos : Z) : Z :=
  BITSET_SET_POSITION (Z.lor BITSET_FILL_BIT len) (pos + 1).
Definition BITSET_CREATE_EMPTY_FILL (len : Z) : Z := Z.lor BITSET_FILL_BIT len.
Definition BITSET_CREATE_LITERAL (bit : Z) : Z :=
  Z.shiftr (Z.shiftl 1 (BITSET_WORD_LENGTH - 2)) bit.
Definition BITSET_MAX_LENGTH : Z := BITSET_LENGTH_MASK.

Definition P1 : Z := 0x7FFFFFFF.
Definition P2 : Z := 0x55555555.
Definition P3 : Z := 0x33333333.
Definition P4 : Z := 0x0F0F0F0F.
Definition P5 : Z := 0x01010101.

(** [BITSET_POP_COUNT(c, w)] is a statement macro that updates both of its
    arguments; the function returns the new [(c, w)].  [w] is a
    [bitset_word], [c] a [bitset_offset] (32 bits unless
    [BITSET_64BIT_OFFSETS] is set). *)
Definition BITSET_POP_COUNT (c w : Z) : Z * Z :=
  let w := Z.land w P1 in
  let w := wrap32 (w - Z.land (Z.shiftr w 1) P2) in
  let w := wrap32 (Z.land w P3 + Z.land (Z.shiftr w 2) P3) in
  let w := Z.land (wrap32 (w + Z.shiftr w 4)) P4 in
  (wrap32 (c + Z.shiftr (wrap32 (w * P5)) (BITSET_WORD_LENGTH - 8)), w).

(** [BITSET_NEXT_POW2(d, s)] on [unsigned] operands; returns the new [d]. *)
Definition BITSET_NEXT_POW2 (s : Z) : Z :=
  let d := s in
  let d := wrap32 (d - 1) in
  let d := Z.lor d (Z.shiftr d 1) in
  let d := Z.lor d (Z.shiftr d 2) in
  let d := Z.lor d (Z.shiftr d 4) in
  let d := Z.lor d (Z.shiftr d 8) in
  let d := Z.lor d (Z.shiftr d 16) in
  wrap32 (d + 1).

(** The number of ones a literal carries: the count [BITSET_POP_COUNT]
    adds to a zero counter. *)
Definition popcount31 (w : Z) : Z := fst (BITSET_POP_COUNT 0 w).

(** Reading conventions used to state the layout. *)

(** Bit [k] of a literal's payload; payload bit 0 is the most significant
    bit below the fill bit. *)
Definition payload_bit (w k : Z) : bool :=
  Z.testbit w (BITSET_LITERAL_LENGTH - 1 - k).

(** The number of ones among the [n] low bits of [w]. *)
Fixpoint ones (n : nat) (w : Z) : Z :=
  match n with
  | O => 0
  | S n' => Z.b2z (Z.testbit w (Z.of_nat n')) + ones n' w
  end.

(** Byte [k] of a word, least significant first. *)
Definition byte (k : Z) (x : Z) : Z := Z.land (Z.shiftr x (8 * k)) 255.

(** The first two steps of [BITSET_POP_COUNT] on one byte. *)
Definition pairs8 (b : Z) : Z := b - Z.land (Z.shiftr b 1) 0x55.
Definition nibbles8 (a : Z) : Z := Z.land a 0x33 + Z.land (Z.shiftr a 2) 0x33.

Definition byte_steps_ok (b : Z) : bool :=
  let a := pairs8 b in
  let n := nibbles8 a in
  (0 <=? a) && (a <? 256) && (0 <=? n) && (n <? 256)
  && (n mod 16 <=? 4) && (n / 16 <=? 4)
  && (n mod 16 + n / 16 =? ones 8 b).

(** The shift-and-or steps of [BITSET_NEXT_POW2]: a bit of the result is
    set when one of the [m] bits from it upward was set at the start. *)
Definition smeared (d x m : Z) : Prop :=
  forall i, 0 <= i ->
    Z.testbit x i = true <-> exists j, i <= j < i + m /\ Z.testbit d j = true.

(** [BITSET_IS_POW2(word)] on an [unsigned] operand. *)
Definition BITSET_IS_POW2 (word : Z) : bool :=
  Z.land word (wrap32 (word - 1)) =? 0.

(** The pointer-tagging macros work on [uintptr_t], whose width is that of
    a pointer: [sizeof_ptr] is [sizeof(void * )], 4 or 8. *)
Definition wrap_ptr (sizeof_ptr z : Z) : Z := z mod 2 ^ (8 * sizeof_ptr).

(** [BITSET_IS_TAGGED_POINTER] yields the masked word, read as a truth
    value. *)
Definition BITSET_IS_TAGGED_POINTER (sizeof_ptr p : Z) : bool :=
  negb (Z.land (wrap_ptr sizeof_ptr p) 1 =? 0).
Definition BITSET_TAG_POINTER (sizeof_ptr p : Z) : Z :=
  Z.lor (wrap_ptr sizeof_ptr p) 1.
Definition BITSET_UNTAG_POINTER (sizeof_ptr p : Z) : Z :=
  Z.land (wrap_ptr sizeof_ptr p) (wrap_ptr sizeof_ptr (Z.lnot 1)).
Definition BITSET_UINT_IN_POINTER (sizeof_ptr u : Z) : Z :=
  Z.lor (wrap_ptr sizeof_ptr (Z.shiftl (wrap_ptr sizeof_ptr u) 1)) 1.
Definition BITSET_UINT_FROM_POINTER (sizeof_ptr u : Z) : Z :=
  Z.shiftr (wrap_ptr sizeof_ptr u) 1.
Definition BITSET_UINT_CAN_TAG (sizeof_ptr u : Z) : bool :=
  u <? (if sizeof_ptr =? 4 then Z.shiftl 1 31 else Z.shiftl 1 63).

End Word.

(** ** Buffers

    A buffer is a list of bytes and a pointer into it is an index.  A read
    outside the buffer has no defined result and is [None]; a write outside
    it leaves the list as it is (no caller of the functions below writes
    outside the region it has reserved). *)

Notation "x <- e ;; k" :=
  (match e with Some x => k | None => None end)
    (at level 61, e at next level, right associativity, only parsing).

Definition load (mem : list Z) (p : Z) : option Z :=
  if p <? 0 then None else nth_error mem (Z.to_nat p).

Fixpoint store_nat (mem : list Z) (n : nat) (v : Z) : list Z :=
  match mem, n with
  | [], _ => []
  | _ :: t, O => v :: t
  | h :: t, S n' => h :: store_nat t n' v
  end.

Definition store (mem : list Z) (p : Z) (v : Z) : list Z :=
  if p <? 0 then mem else store_nat mem (Z.to_nat p) v.

(** [memcpy(mem + p, bytes, |bytes|)]. *)
Fixpoint store_bytes (mem : list Z) (p : Z) (bytes : list Z) : list Z :=
  match bytes with
  | [] => mem
  | b :: bs => store_bytes (store mem p b) (p + 1) bs
  end.

(** The bytes of an array of [bitset_word], as [memcpy] sees them on a
    little-endian host. *)
Definition word_to_bytes (w : Z) : list Z :=
  [Word.byte 0 w; Word.byte 1 w; Word.byte 2 w; Word.byte 3 w].

Definition words_to_bytes (ws : list Z) : list Z := flat_map word_to_bytes ws.

Definition load_word (mem : list Z) (p : Z) : option Z :=
  b0 <- load mem p ;; b1 <- load mem (p + 1) ;;
  b2 <- load mem (p + 2) ;; b3 <- load mem (p + 3) ;;
  Some (b0 + 2 ^ 8 * b1 + 2 ^ 16 * b2 + 2 ^ 24 * b3).

(** The [n] words a [bitset_word *] at index [p] points to. *)
Fixpoint load_words (mem : list Z) (p : Z) (n : nat) : option (list Z) :=
  match n with
  | O => Some []
  | S n' =>
      w <- load_word mem p ;; ws <- load_words mem (p + 4) n' ;; Some (w :: ws)
  end.

(** ** Length-prefixed integers ([list.c]) *)

Module Varint.

Definition bitset_encoded_length_required_bytes (length : Z) : Z :=
  if length <? Z.shiftl 1 6 then 1
  else if length <? Z.shiftl 1 14 then 2
  else if length <? Z.shiftl 1 22 then 3
  else 4.

(** The function writes through [buffer]; the result is the buffer after
    the writes.  A cast binds tighter than a shift, so
    [(unsigned char)length >> 8] shifts the low byte of [length]. *)
Definition bitset_encoded_length_bytes
    (length : Z) (mem : list Z) (buffer : Z) : list Z :=
  if length <? Z.shiftl 1 6 then
    store mem buffer (to_char (uchar length))
  else if length <? Z.shiftl 1 14 then
    let mem := store mem buffer
                 (to_char (Z.lor 0x40 (Z.shiftr (uchar length) 8))) in
    store mem (buffer + 1) (to_char (Z.land (uchar length) 0xFF))
  else if length <? Z.shiftl 1 22 then
    let mem := store mem buffer
                 (to_char (Z.lor 0x80 (Z.shiftr (uchar length) 16))) in
    let mem := store mem (buffer + 1)
                 (to_char (Z.land (Z.shiftr (uchar length) 8) 0xFF)) in
    store mem (buffer + 2) (to_char (Z.land (uchar length) 0xFF))
  else
    let mem := store mem buffer
                 (to_char (Z.lor 0xC0 (Z.shiftr (uchar length) 24))) in
    let mem := store mem (buffer + 1)
                 (to_char (Z.land (Z.shiftr (uchar length) 16) 0xFF)) in
    let mem := store mem (buffer + 2)
                 (to_char (Z.land (Z.shiftr (uchar length) 8) 0xFF)) in
    store mem (buffer + 3) (to_char (Z.land (uchar length) 0xFF)).

(** [buffer[0] & 0xC0]: whether [char] is signed or not, the two bits
    selected are those of the byte's unsigned representative. *)
Definition bitset_encoded_length_size (mem : list Z) (buffer : Z) : option Z :=
  b0 <- load mem buffer ;;
  let type := Z.land b0 0xC0 in
  Some (if type =? 0x00 then 1
        else if type =? 0x40 then 2
        else if type =? 0x80 then 3
        else 4).

Definition bitset_encoded_length (mem : list Z) (buffer : Z) : option Z :=
  b0 <- load mem buffer ;;
  let type := Z.land b0 0xC0 in
  if type =? 0x00 then
    Some (uchar b0)
  else if type =? 0x40 then
    b1 <- load mem (buffer + 1) ;;
    let length := Z.shiftl (Z.land (uchar b0) 0x3F) 8 in
    Some (wrap32 (length + uchar b1))
  else if type =? 0x80 then
    b1 <- load mem (buffer + 1) ;;
    b2 <- load mem (buffer + 2) ;;
    let length := Z.shiftl (Z.land (uchar b0) 0x3F) 16 in
    let length := wrap32 (length + Z.shiftl (uchar b1) 8) in
    Some (wrap32 (length + uchar b2))
  else
    b1 <- load mem (buffer + 1) ;;
    b2 <- load mem (buffer + 2) ;;
    b3 <- load mem (buffer + 3) ;;
    let length := Z.shiftl (Z.land (uchar b0) 0x3F) 24 in
    let length := wrap32 (length + Z.shiftl (uchar b1) 16) in
    let length := wrap32 (length + Z.shiftl (uchar b2) 8) in
    Some (wrap32 (length + uchar b3)).

(** The bytes [bitset_encoded_length_bytes] leaves in a buffer of exactly
    the size [bitset_encoded_length_required_bytes] asks for. *)
Definition encode (length : Z) : list Z :=
  bitset_encoded_length_bytes length
    (repeat 0 (Z.to_nat (bitset_encoded_length_required_bytes length))) 0.

(** The first byte the encoder writes, by the form it chooses. *)
Definition first_byte (length : Z) : Z :=
  if length <? 64 then length
  else if length <? 16384 then 0x40
  else if length <? 4194304 then 0x80
  else 0xC0.

(** The integer a run of bytes spells, most significant byte first. *)
Definition be_value (bytes : list Z) : Z :=
  fold_left (fun acc b => acc * 256 + b mod 256) bytes 0.

End Varint.

(** ** The bitset list ([list.c]) *)

Module BList.
Import Varint.

(** A bitset, as the list reads it: its [length] meaningful words.  The
    capacity and the reference count play no part here. *)
Definition bitset : Type := list Z.

(** [b->length] *)
Definition bitset_words_count (b : bitset) : Z := Z.of_nat (List.length b).

(** A pointer into the list's buffer: [NULL], an index into the buffer, or
    a field no statement has assigned yet. *)
Inductive pointer : Type :=
| Null
| At (index : Z)
| Unassigned.

(** Modelled from the spec: the structure [bitset_list] of [list.h], which
    is not among the sources; the fields are those the specification lists
    and [list.c] assigns.  [c_buffer] holds the [c_length] bytes in use;
    what the allocation holds beyond them is indeterminate and is not
    represented. *)
Record bitset_list : Type := mk_list {
  c_buffer : list Z;
  c_length : Z;
  c_size : Z;
  c_count : Z;
  c_tail_offset : Z;
  c_tail : pointer
}.

Definition bitset_list_new : bitset_list :=
  {| c_buffer := []; c_length := 0; c_size := 0; c_count := 0;
     c_tail_offset := 0; c_tail := Null |}.

(** The bytes in use after [malloc] / [realloc] to [n] bytes in use: the
    old bytes are kept; the added ones are indeterminate in C (0 here) and
    [bitset_list_push] writes every one of them. *)
Definition resize_bytes (mem : list Z) (n : Z) : list Z :=
  firstn (Z.to_nat n) mem ++ repeat 0 (Z.to_nat n - List.length mem).

(** [bitset_list_resize(c, length)].  An allocation of a size that is not
    0 is taken to succeed.  When [BITSET_NEXT_POW2] wraps to 0 (a length
    above [2 ^ 31]) the request is for zero bytes: [realloc] frees the
    buffer and returns [NULL], and the function leaves through
    [bitset_oom()]; an allocator that returns a pointer to no storage
    instead leaves the writes that follow without defined behaviour.
    Either way no list results: [None]. *)
Definition bitset_list_resize (c : bitset_list) (length : Z)
  : option bitset_list :=
  if c_size c <? length then
    let next_size := Word.BITSET_NEXT_POW2 length in
    if next_size =? 0 then None
    else Some {| c_buffer := resize_bytes (c_buffer c) length;
                 c_length := length;
                 c_size := next_size;
                 c_count := c_count c;
                 c_tail_offset := c_tail_offset c;
                 c_tail := c_tail c |}
  else Some {| c_buffer := resize_bytes (c_buffer c) length;
               c_length := length;
               c_size := c_size c;
               c_count := c_count c;
               c_tail_offset := c_tail_offset c;
               c_tail := c_tail c |}.

Definition bitset_list_length (c : bitset_list) : Z := c_length c.
Definition bitset_list_count (c : bitset_list) : Z := c_count c.

(** The state of the replay loop of [bitset_list_new_buffer]. *)
Record replay : Type := mk_replay {
  r_i : Z;
  r_buf : Z;
  r_count : Z;
  r_tail_offset : Z;
  r_tail : pointer
}.

(** One pass through the body of the loop, with the increment
    [c->count++]. *)
Definition replay_step (mem : list Z) (r : replay) : option replay :=
  let buf := r_buf r in
  delta <- bitset_encoded_length mem buf ;;
  offset_bytes <- bitset_encoded_length_size mem buf ;;
  let buf := buf + offset_bytes in
  length <- bitset_encoded_length mem buf ;;
  length_bytes <- bitset_encoded_length_size mem buf ;;
  let buf := buf + length_bytes in
  let length := wrap32 (length * Word.sizeof_bitset_word) in
  Some {| r_i := wrap32 (r_i r + offset_bytes + length_bytes + length);
          r_buf := buf + length;
          r_count := wrap32 (r_count r + 1);
          r_tail_offset := wrap32 (r_tail_offset r + delta);
          r_tail := At (r_buf r) |}.

Fixpoint replay_loop (fuel : nat) (mem : list Z) (c_length : Z) (r : replay)
  : option replay :=
  if r_i r <? c_length then
    match fuel with
    | O => None
    | S fuel' => r' <- replay_step mem r ;; replay_loop fuel' mem c_length r'
    end
  else Some r.

(** [bitset_list_new_buffer(length, buffer)].  The copy reads [length]
    bytes of [buffer].  Every pass of the loop moves [buf] forward by two
    bytes at least and reads at [buf], so it runs at most once per byte of
    the copy before a read leaves it. *)
Definition bitset_list_new_buffer (length : Z) (buffer : list Z)
  : option bitset_list :=
  let mem := firstn (Z.to_nat length) buffer in
  r <- replay_loop (S (List.length mem)) mem length
         {| r_i := 0; r_buf := 0; r_count := 0; r_tail_offset := 0;
            r_tail := Unassigned |} ;;
  Some {| c_buffer := mem; c_length := length; c_size := length;
          c_count := r_count r; c_tail_offset := r_tail_offset r;
          c_tail := r_tail r |}.

(** What [bitset_list_push] ends in: it returns; or it leaves through the
    [exit(1)] of its own guard, in which case the list is given as it is at
    that point; or [bitset_list_resize] gives no list. *)
Inductive push_result : Type :=
| Pushed (c : bitset_list)
| Fatal (c : bitset_list)
| OutOfMemory.

Definition bitset_list_push (c : bitset_list) (b : bitset) (offset : Z)
  : push_result :=
  if offset <? c_tail_offset c then Fatal c
  else
    let length := c_length c in
    let relative_offset := wrap32 (offset - c_tail_offset c) in
    let count := wrap32 (c_count c + 1) in
    let b_length := bitset_words_count b in
    let length_bytes :=
      bitset_encoded_length_required_bytes (wrap32 b_length) in
    let offset_bytes :=
      bitset_encoded_length_required_bytes relative_offset in
    match bitset_list_resize c
            (wrap32 (length + length_bytes + offset_bytes
                     + b_length * Word.sizeof_bitset_word)) with
    | None => OutOfMemory
    | Some c =>
        let buffer := length in
        let mem :=
          bitset_encoded_length_bytes relative_offset (c_buffer c) buffer in
        let buffer := buffer + offset_bytes in
        let mem := bitset_encoded_length_bytes (wrap32 b_length) mem buffer in
        let buffer := buffer + length_bytes in
        let mem := if b_length =? 0 then mem
                   else store_bytes mem buffer (words_to_bytes b) in
        Pushed {| c_buffer := mem;
                  c_length := c_length c;
                  c_size := c_size c;
                  c_count := count;
                  c_tail_offset := offset;
                  c_tail := At length |}
    end.

(** A list grown from the empty one by pushes; [None] once a push does not
    return. *)
Fixpoint push_all (c : bitset_list) (entries : list (Z * bitset))
  : option bitset_list :=
  match entries with
  | [] => Some c
  | (offset, b) :: rest =>
      match bitset_list_push c b offset with
      | Pushed c' => push_all c' rest
      | Fatal _ | OutOfMemory => None
      end
  end.

(** Modelled from the spec: the two sentinels of [list.h], which is not
    among the sources.  The specification calls them the open bounds of a
    window; [bitset_list_iterator_new] takes [!end] for the open upper bound
    and has no test of its own for the lower one, so both are 0. *)
Definition BITSET_LIST_START : Z := 0.
Definition BITSET_LIST_END : Z := 0.

(** A bitset of an iterator: [words] points into the buffer of the list
    (an index), [length] words are in view. *)
Record bitset_view : Type := mk_view {
  v_words : Z;
  v_length : Z
}.

(** Modelled from the spec: the structure [bitset_list_iterator] of
    [list.h], which is not among the sources, with the parallel arrays
    [bitsets] and [offsets] of the specification.  [i_bitsets] and
    [i_offsets] hold the slots written so far, in order; the slots the
    arrays have beyond those are not initialised. *)
Record bitset_list_iterator : Type := mk_iterator {
  i_bitsets : list bitset_view;
  i_offsets : list Z;
  i_length : Z;
  i_size : Z
}.

(** [bitset_list_iterator_resize(i, length)], with the allocations as in
    [bitset_list_resize]: [None] when [BITSET_NEXT_POW2] wraps to 0 and the
    request is for zero bytes. *)
Definition bitset_list_iterator_resize (i : bitset_list_iterator) (length : Z)
  : option bitset_list_iterator :=
  if i_size i <? length then
    let next_size := Word.BITSET_NEXT_POW2 length in
    if next_size =? 0 then None
    else Some {| i_bitsets := i_bitsets i;
                 i_offsets := i_offsets i;
                 i_length := length;
                 i_size := next_size |}
  else Some {| i_bitsets := i_bitsets i;
               i_offsets := i_offsets i;
               i_length := length;
               i_size := i_size i |}.

(** The state of the loop of [bitset_list_iterator_new]. *)
Record scan : Type := mk_scan {
  s_j : Z;
  s_b : Z;
  s_offset : Z;
  s_buffer : Z;
  s_i : bitset_list_iterator
}.

Definition scan_step (mem : list Z) (start end_ : Z) (s : scan) : option scan :=
  let buffer := s_buffer s in
  delta <- bitset_encoded_length mem buffer ;;
  let offset := wrap32 (s_offset s + delta) in
  offset_bytes <- bitset_encoded_length_size mem buffer ;;
  let buffer := buffer + offset_bytes in
  length <- bitset_encoded_length mem buffer ;;
  length_bytes <- bitset_encoded_length_size mem buffer ;;
  let buffer := buffer + length_bytes in
  ib <- (if (start <=? offset) && ((end_ =? 0) || (offset <? end_))
         then
           i <- bitset_list_iterator_resize (s_i s) (wrap32 (s_b s + 1)) ;;
           Some ({| i_bitsets := i_bitsets i
                                 ++ [{| v_words := buffer;
                                        v_length := length |}];
                    i_offsets := i_offsets i ++ [offset];
                    i_length := i_length i;
                    i_size := i_size i |},
                 wrap32 (s_b s + 1))
         else Some (s_i s, s_b s)) ;;
  let '(i, b) := ib in
  let length := wrap32 (length * Word.sizeof_bitset_word) in
  Some {| s_j := wrap32 (s_j s + offset_bytes + length_bytes + length);
          s_b := b;
          s_offset := offset;
          s_buffer := buffer + length;
          s_i := i |}.

Fixpoint scan_loop (fuel : nat) (mem : list Z) (c_length start end_ : Z)
    (s : scan) : option scan :=
  if s_j s <? c_length then
    match fuel with
    | O => None
    | S fuel' =>
        s' <- scan_step mem start end_ s ;;
        scan_loop fuel' mem c_length start end_ s'
    end
  else Some s.

(** [bitset_list_iterator_new(c, start, end)]; the bound on the passes of
    the loop is that of [bitset_list_new_buffer].  No iterator results
    ([None]) when a read leaves the buffer or
    [bitset_list_iterator_resize] gives none. *)
Definition bitset_list_iterator_new (c : bitset_list) (start end_ : Z)
  : option bitset_list_iterator :=
  let i :=
    if (start =? BITSET_LIST_START) && (end_ =? BITSET_LIST_END)
    then {| i_bitsets := []; i_offsets := [];
            i_length := c_count c; i_size := c_count c |}
    else {| i_bitsets := []; i_offsets := []; i_length := 0; i_size := 0 |} in
  s <- scan_loop (S (List.length (c_buffer c))) (c_buffer c) (c_length c)
         start end_
         {| s_j := 0; s_b := 0; s_offset := 0; s_buffer := 0; s_i := i |} ;;
  Some (s_i s).

(** What a traversal of the iterator meets: the [i_length] first slots of
    the two arrays, each bitset read through its view of the buffer.  It is
    [None] when a slot in reach was never written or a view leaves the
    buffer. *)
Fixpoint read_views (mem : list Z) (offsets : list Z) (views : list bitset_view)
  : option (list (Z * bitset)) :=
  match offsets, views with
  | [], [] => Some []
  | o :: offsets', v :: views' =>
      ws <- load_words mem (v_words v) (Z.to_nat (v_length v)) ;;
      rest <- read_views mem offsets' views' ;;
      Some ((o, ws) :: rest)
  | _, _ => None
  end.

Definition iterator_yield (c : bitset_list) (i : bitset_list_iterator)
  : option (list (Z * bitset)) :=
  if i_length i =? Z.of_nat (List.length (i_bitsets i))
  then read_views (c_buffer c) (i_offsets i) (i_bitsets i)
  else None.

(** The iterator for a window, traversed. *)
Definition iterate (c : bitset_list) (start end_ : Z)
  : option (list (Z * bitset)) :=
  i <- bitset_list_iterator_new c start end_ ;; iterator_yield c i.

(** The entries a buffer holds, read front to back: a relative offset, a
    word count and that many words each.  [prev] is the absolute offset of
    the entry before. *)
Fixpoint entries_from (fuel : nat) (prev : Z) (bytes : list Z)
  : option (list (Z * bitset)) :=
  match bytes with
  | [] => Some []
  | _ :: _ =>
      match fuel with
      | O => None
      | S fuel' =>
          delta <- bitset_encoded_length bytes 0 ;;
          offset_bytes <- bitset_encoded_length_size bytes 0 ;;
          count <- bitset_encoded_length bytes offset_bytes ;;
          count_bytes <- bitset_encoded_length_size bytes offset_bytes ;;
          ws <- load_words bytes (offset_bytes + count_bytes) (Z.to_nat count) ;;
          let offset := wrap32 (prev + delta) in
          rest <- entries_from fuel' offset
                    (skipn (Z.to_nat (offset_bytes + count_bytes + 4 * count))
                       bytes) ;;
          Some ((offset, ws) :: rest)
      end
  end.

Definition bitset_list_entries (c : bitset_list) : option (list (Z * bitset)) :=
  entries_from (S (List.length (c_buffer c))) 0 (c_buffer c).

(** The bytes of one entry: the relative offset, the word count, the
    words. *)
Definition entry_bytes (delta : Z) (b : bitset) : list Z :=
  encode delta ++ encode (bitset_words_count b) ++ words_to_bytes b.

(** The bytes of a run of entries given by their absolute offsets, after
    an entry at offset [prev]. *)
Fixpoint serialize (prev : Z) (es : list (Z * bitset)) : list Z :=
  match es with
  | [] => []
  | (offset, b) :: rest => entry_bytes (offset - prev) b ++ serialize offset rest
  end.

(** Entries that the encoder writes in full: offsets that do not go down
    and stay below [2^32], every relative offset and every word count below
    256, every word a 32-bit one. *)
Fixpoint pushes_small (prev : Z) (es : list (Z * bitset)) : bool :=
  match es with
  | [] => true
  | (offset, b) :: rest =>
      (prev <=? offset) && (offset - prev <? 256) && (offset <? 2 ^ 32)
      && (bitset_words_count b <? 256)
      && forallb (fun w => (0 <=? w) && (w <? 2 ^ 32)) b
      && pushes_small offset rest
  end.

(** The window test of the iterator. *)
Definition in_window (start end_ : Z) (entry : Z * bitset) : bool :=
  (start <=? fst entry) && ((end_ =? BITSET_LIST_END) || (fst entry <? end_)).

(** The list of the test suite ([test_suite_list]): the word streams of
    the bitsets [{10}] and [{100, 1000}], pushed at offsets 3 and 10. *)
Definition bits_10 : bitset := [Word.BITSET_CREATE_LITERAL 10].
Definition bits_100_1000 : bitset :=
  [Word.BITSET_CREATE_FILL 3 7; Word.BITSET_CREATE_FILL 28 8].

Definition list_3_10 : bitset_list :=
  Eval vm_compute in
    match push_all bitset_list_new [(3, bits_10); (10, bits_100_1000)] with
    | Some c => c
    | None => bitset_list_new
    end.


(** A write to slot [k] of an array kept as its written prefix: the slot
    after the last one written extends the prefix, a slot inside it is
    overwritten, and a slot further on would leave a gap of slots never
    written, which the prefix cannot hold ([None]). *)
Definition write_slot {A : Type} (slots : list A) (k : Z) (x : A)
  : option (list A) :=
  if (0 <=? k) && (k <=? Z.of_nat (List.length slots))
  then Some (firstn (Z.to_nat k) slots ++ x :: skipn (S (Z.to_nat k)) slots)
  else None.

(** The loop of [bitset_list_iterator_concat]: [n] passes are left, [j] is
    the index into the arrays of [c]. *)
Fixpoint concat_loop (n : nat) (j previous_length : Z)
    (c : bitset_list_iterator) (offset : Z) (i : bitset_list_iterator)
  : option bitset_list_iterator :=
  match n with
  | O => Some i
  | S n' =>
      b <- nth_error (i_bitsets c) (Z.to_nat j) ;;
      o <- nth_error (i_offsets c) (Z.to_nat j) ;;
      bitsets <- write_slot (i_bitsets i) (wrap32 (j + previous_length)) b ;;
      offsets <- write_slot (i_offsets i) (wrap32 (j + previous_length))
                   (wrap32 (o + offset)) ;;
      concat_loop n' (j + 1) previous_length c offset
        {| i_bitsets := bitsets; i_offsets := offsets;
           i_length := i_length i; i_size := i_size i |}
  end.

(** [bitset_list_iterator_concat(i, c, offset)]: the iterator [i] after the
    call ([c] is freed).  The result is [None] when
    [bitset_list_iterator_resize] gives no iterator, when the loop reads a
    slot of [c] that was never written, or when it writes past a gap in the
    arrays of [i]. *)
Definition bitset_list_iterator_concat (i c : bitset_list_iterator)
    (offset : Z) : option bitset_list_iterator :=
  if negb (i_length c =? 0) then
    let previous_length := i_length i in
    i <- bitset_list_iterator_resize i
           (wrap32 (previous_length + i_length c)) ;;
    concat_loop (Z.to_nat (i_length c)) 0 previous_length c offset i
  else Some i.

(** What holds of the state of the loop of [bitset_list_iterator_new]
    after every pass: [s_b] slots are written in each array, the length is
    within the capacity and is [s_b] once a slot is written, and the
    offsets kept are [unsigned] values inside the window. *)
Definition scan_inv (start end_ : Z) (s : scan) : Prop :=
  0 <= s_b s
  /\ Z.of_nat (length (i_bitsets (s_i s))) = s_b s
  /\ length (i_offsets (s_i s)) = length (i_bitsets (s_i s))
  /\ i_length (s_i s) <= i_size (s_i s)
  /\ (s_b s <> 0 -> i_length (s_i s) = s_b s)
  /\ Forall (fun o => start <= o /\ (end_ = 0 \/ o < end_) /\ o < 2 ^ 32)
       (i_offsets (s_i s)).

End BList.

(** ** The bitset engine, from the specification

    [bitset.c] is not among the sources: the header declares [bitset_get],
    [bitset_count], [bitset_min], [bitset_max] and [bitset_set_to], and the
    test suite calls them.  The definitions below follow section 4.2 of the
    specification over the word codec of the header; where the
    specification leaves a choice open, [test_suite_set] decides.  A bitset
    is the list of its [length] words. *)

Module Engine.
Import Word.

(** Modelled from the spec: the search for the lowest payload position
    set in a literal, from position [k] upwards, for [min] of [bitset.c];
    0 when the payload is empty. *)
Fixpoint first_set_from (n : nat) (k w : Z) : Z :=
  match n with
  | O => 0
  | S n' => if payload_bit w k then k else first_set_from n' (k + 1) w
  end.

(** Modelled from the spec: the "first set bit" of a literal, used by
    [min] of [bitset.c]. *)
Definition first_set_bit (w : Z) : Z := first_set_from 31 0 w.

(** Modelled from the spec: the search for the highest payload position
    set, the symmetric of [first_set_from], for [max] of [bitset.c]. *)
Fixpoint last_set_from (n : nat) (k w : Z) : Z :=
  match n with
  | O => 0
  | S n' => if payload_bit w k then k else last_set_from n' (k - 1) w
  end.

(** Modelled from the spec: the last set bit of a literal, used by [max]
    of [bitset.c]. *)
Definition last_set_bit (w : Z) : Z := last_set_from 31 30 w.

(** Modelled from the spec: the walk of [get(b, o)] of [bitset.c] over the
    words, with the block cursor [blk]; a literal covering the block gives
    its bit, the clean span of a fill gives false, the absorbed block of a
    fill gives [in_off == position - 1], and running off the words gives
    false. *)
Fixpoint get_from (words : list Z) (blk target in_off : Z) : bool :=
  match words with
  | [] => false
  | w :: rest =>
      if BITSET_IS_FILL_WORD w then
        let L := BITSET_GET_LENGTH w in
        let P := BITSET_GET_POSITION w in
        if target <? blk + L then false
        else if 0 <? P then
          if target =? blk + L then in_off =? P - 1
          else get_from rest (blk + L + 1) target in_off
        else get_from rest (blk + L) target in_off
      else if target =? blk then payload_bit w in_off
      else get_from rest (blk + 1) target in_off
  end.

(** Modelled from the spec: [bitset_get] of [bitset.c]; the block is
    [o / 31] and the position inside it [o mod 31]. *)
Definition bitset_get (b : list Z) (o : Z) : bool :=
  get_from b 0 (o / BITSET_LITERAL_LENGTH) (o mod BITSET_LITERAL_LENGTH).

(** Modelled from the spec: the walk of [count(b)] of [bitset.c], the sum
    of the population counts of the literals plus one for every fill with
    [P > 0]. *)
Fixpoint count_from (words : list Z) (c : Z) : Z :=
  match words with
  | [] => c
  | w :: rest =>
      if BITSET_IS_FILL_WORD w then
        count_from rest
          (if 0 <? BITSET_GET_POSITION w then wrap32 (c + 1) else c)
      else count_from rest (fst (BITSET_POP_COUNT c w))
  end.

(** Modelled from the spec: [bitset_count] of [bitset.c]. *)
Definition bitset_count (b : list Z) : Z := count_from b 0.

(** Modelled from the spec: the walk of [min(b)] of [bitset.c].  The first
    word that bears a set bit decides: a fill with [P > 0] gives
    [(blk + L) * 31 + (P - 1)], a non-zero literal gives
    [blk * 31 + first_set_bit]; an empty bitset gives 0. *)
Fixpoint min_from (words : list Z) (blk : Z) : Z :=
  match words with
  | [] => 0
  | w :: rest =>
      if BITSET_IS_FILL_WORD w then
        let L := BITSET_GET_LENGTH w in
        let P := BITSET_GET_POSITION w in
        if 0 <? P then wrap32 ((blk + L) * BITSET_LITERAL_LENGTH + (P - 1))
        else min_from rest (blk + L)
      else if negb (Z.land w P1 =? 0)
      then wrap32 (blk * BITSET_LITERAL_LENGTH + first_set_bit w)
      else min_from rest (blk + 1)
  end.

(** Modelled from the spec: [bitset_min] of [bitset.c]. *)
Definition bitset_min (b : list Z) : Z := min_from b 0.

(** Modelled from the spec: the walk of [max(b)] of [bitset.c],
    "symmetric, last word": the last word that bears a set bit decides;
    [best] is the answer of the words passed, 0 at the start. *)
Fixpoint max_from (words : list Z) (blk best : Z) : Z :=
  match words with
  | [] => best
  | w :: rest =>
      if BITSET_IS_FILL_WORD w then
        let L := BITSET_GET_LENGTH w in
        let P := BITSET_GET_POSITION w in
        if 0 <? P
        then max_from rest (blk + L + 1)
               (wrap32 ((blk + L) * BITSET_LITERAL_LENGTH + (P - 1)))
        else max_from rest (blk + L) best
      else
        max_from rest (blk + 1)
          (if negb (Z.land w P1 =? 0)
           then wrap32 (blk * BITSET_LITERAL_LENGTH + last_set_bit w)
           else best)
  end.

(** Modelled from the spec: [bitset_max] of [bitset.c]. *)
Definition bitset_max (b : list Z) : Z := max_from b 0 0.

(** Modelled from the spec: a fill of [len] clean blocks that keeps the
    position field [P] of the fill it comes from. *)
Definition fill_keeping (len P : Z) : Z :=
  if 0 <? P then BITSET_CREATE_FILL len (P - 1)
  else BITSET_CREATE_EMPTY_FILL len.

(** Modelled from the spec: sub-case 4 of [set], a bit set inside the clean
    span of a fill of length [L] and position field [P], [k] blocks into
    the span.  The head is a fill of length [k] that absorbs the bit, or the
    bit as a literal when [k = 0]; the tail is a fill of length
    [L - k - 1] when that is positive, and otherwise the absorbed bit of the
    old fill, if it has one, as a literal. *)
Definition split_fill (L P k in_off : Z) : list Z :=
  (if k =? 0 then [BITSET_CREATE_LITERAL in_off]
   else [BITSET_CREATE_FILL k in_off])
  ++ (if 0 <? L - k - 1 then [fill_keeping (L - k - 1) P]
      else if 0 <? P then [BITSET_CREATE_LITERAL (P - 1)]
      else []).

(** Modelled from the spec: the fills of sub-case 1 of [set] for a gap of
    [gap > 0] clean blocks; a gap longer than [BITSET_MAX_LENGTH] takes
    several fills, and the last one absorbs the bit. *)
Definition gap_fills (gap in_off : Z) : list Z :=
  let n := (gap - 1) / BITSET_MAX_LENGTH in
  repeat (BITSET_CREATE_EMPTY_FILL BITSET_MAX_LENGTH) (Z.to_nat n)
  ++ [BITSET_CREATE_FILL (gap - n * BITSET_MAX_LENGTH) in_off].

(** Modelled from the spec: sub-case 1 of [set], the bit lies [gap] blocks
    past the end.  With no gap, a last fill with [P = 0] absorbs the bit,
    and otherwise the bit is appended as a literal; with a gap, the fills
    of the gap are appended. *)
Definition past_end (rev_prefix : list Z) (gap in_off : Z) : list Z :=
  if gap =? 0 then
    match rev_prefix with
    | f :: before =>
        if BITSET_IS_FILL_WORD f && (BITSET_GET_POSITION f =? 0)
        then rev before ++ [BITSET_SET_POSITION f (in_off + 1)]
        else rev rev_prefix ++ [BITSET_CREATE_LITERAL in_off]
    | [] => [BITSET_CREATE_LITERAL in_off]
    end
  else rev rev_prefix ++ gap_fills gap in_off.

(** Modelled from the spec: the folding of sub-case 2 of [set].  A literal
    that became all-zero joins a preceding fill with [P = 0] (length + 1,
    when the length field has room); one with exactly one bit left gives
    that fill its position. *)
Definition fold_literal (rev_prefix : list Z) (lit : Z) (rest : list Z)
  : list Z :=
  match rev_prefix with
  | f :: before =>
      if BITSET_IS_FILL_WORD f && (BITSET_GET_POSITION f =? 0) then
        if (Z.land lit P1 =? 0) && (BITSET_GET_LENGTH f <? BITSET_MAX_LENGTH)
        then rev before
             ++ [BITSET_CREATE_EMPTY_FILL (BITSET_GET_LENGTH f + 1)] ++ rest
        else if popcount31 lit =? 1
        then rev before
             ++ [BITSET_SET_POSITION f (first_set_bit lit + 1)] ++ rest
        else rev rev_prefix ++ [lit] ++ rest
      else rev rev_prefix ++ [lit] ++ rest
  | [] => lit :: rest
  end.

(** Modelled from the spec: the walk of [set(b, o, v)] of [bitset.c], with
    its five sub-cases; the result is the previous value of the bit and the
    new word stream.  [rev_prefix] holds the words passed, last first. *)
Fixpoint set_walk (rev_prefix words : list Z) (blk target in_off : Z)
    (v : bool) : bool * list Z :=
  match words with
  | [] =>
      (false,
       if v then past_end rev_prefix (target - blk) in_off
       else rev rev_prefix)
  | w :: rest =>
      if BITSET_IS_FILL_WORD w then
        let L := BITSET_GET_LENGTH w in
        let P := BITSET_GET_POSITION w in
        if target <? blk + L then
          (false,
           if v
           then rev rev_prefix ++ split_fill L P (target - blk) in_off ++ rest
           else rev rev_prefix ++ w :: rest)
        else if (0 <? P) && (target =? blk + L) then
          if in_off =? P - 1 then
            (true,
             if v then rev rev_prefix ++ w :: rest
             else rev rev_prefix
                  ++ BITSET_UNSET_POSITION w
                  :: match rest with [] => [] | _ :: _ => 0 :: rest end)
          else
            (false,
             if v
             then rev rev_prefix
                  ++ BITSET_UNSET_POSITION w
                  :: Z.lor (BITSET_CREATE_LITERAL (P - 1))
                       (BITSET_CREATE_LITERAL in_off)
                  :: rest
             else rev rev_prefix ++ w :: rest)
        else
          set_walk (w :: rev_prefix) rest
            (blk + L + (if 0 <? P then 1 else 0)) target in_off v
      else if target =? blk then
        let mask := BITSET_CREATE_LITERAL in_off in
        (negb (Z.land w mask =? 0),
         fold_literal rev_prefix
           (if v then Z.lor w mask else Z.land w (wrap32 (Z.lnot mask)))
           rest)
      else set_walk (w :: rev_prefix) rest (blk + 1) target in_off v
  end.

(** Modelled from the spec: [bitset_set_to] of [bitset.c]. *)
Definition bitset_set_to (b : list Z) (o : Z) (v : bool) : bool * list Z :=
  set_walk [] b 0 (o / BITSET_LITERAL_LENGTH) (o mod BITSET_LITERAL_LENGTH) v.

(** Modelled from the spec: [bitset_new_bits] of [bitset.c], which sets
    each offset in order on an empty bitset. *)
Definition bitset_new_bits (offsets : list Z) : list Z :=
  fold_left (fun b o => snd (bitset_set_to b o true)) offsets [].

End Engine.

(** * Properties *)

(** ** The word codec *)

Module WordFacts.
Import Word.

Lemma span_length_value : BITSET_SPAN_LENGTH = 26.
Proof. reflexivity. Qed.

Lemma position_length_value : BITSET_POSITION_LENGTH = 5.
Proof. reflexivity. Qed.

Lemma get_length_mod (w : Z) : BITSET_GET_LENGTH w = w mod 2 ^ 26.
Proof.
  unfold BITSET_GET_LENGTH.
  change BITSET_LENGTH_MASK with (Z.ones 26).
  apply Z.land_ones. lia.
Qed.

Lemma get_position_div_mod (w : Z) :
  BITSET_GET_POSITION w = (w / 2 ^ 26) mod 2 ^ 5.
Proof.
  unfold BITSET_GET_POSITION.
  change BITSET_SPAN_LENGTH with 26.
  change BITSET_POSITION_MASK with (Z.shiftl (Z.ones 5) 26).
  rewrite <- Z.shiftr_div_pow2, <- Z.land_ones by lia.
  Z.bitblast.
Qed.

(** *** Bytes of a word *)

Lemma byte_div_mod (k x : Z) : 0 <= k -> byte k x = (x / 2 ^ (8 * k)) mod 2 ^ 8.
Proof.
  intros Hk. unfold byte. change 255 with (Z.ones 8).
  rewrite Z.land_ones, Z.shiftr_div_pow2 by lia. reflexivity.
Qed.

Lemma byte_range (k x : Z) : 0 <= byte k x < 256.
Proof.
  unfold byte. change 255 with (Z.ones 8).
  rewrite Z.land_ones by lia. apply Z.mod_pos_bound. lia.
Qed.

Lemma word_bytes (x : Z) :
  0 <= x < 2 ^ 32 ->
  x = byte 0 x + 2 ^ 8 * byte 1 x + 2 ^ 16 * byte 2 x + 2 ^ 24 * byte 3 x.
Proof.
  intros Hx. rewrite !byte_div_mod by lia.
  change (8 * 0) with 0; change (8 * 1) with 8;
    change (8 * 2) with 16; change (8 * 3) with 24.
  change (2 ^ 0) with 1; change (2 ^ 8) with 256;
    change (2 ^ 16) with 65536; change (2 ^ 24) with 16777216;
    change (2 ^ 32) with 4294967296 in Hx.
  Z.div_mod_to_equations. lia.
Qed.

Lemma bytes_unique (x0 x1 x2 x3 : Z) :
  0 <= x0 < 256 -> 0 <= x1 < 256 -> 0 <= x2 < 256 -> 0 <= x3 < 256 ->
  let x := x0 + 2 ^ 8 * x1 + 2 ^ 16 * x2 + 2 ^ 24 * x3 in
  byte 0 x = x0 /\ byte 1 x = x1 /\ byte 2 x = x2 /\ byte 3 x = x3.
Proof.
  intros H0 H1 H2 H3 x. subst x. rewrite !byte_div_mod by lia.
  change (8 * 0) with 0; change (8 * 1) with 8;
    change (8 * 2) with 16; change (8 * 3) with 24.
  change (2 ^ 0) with 1; change (2 ^ 8) with 256;
    change (2 ^ 16) with 65536; change (2 ^ 24) with 16777216.
  repeat split; Z.div_mod_to_equations; lia.
Qed.

Lemma byte_land (k x m : Z) :
  0 <= k -> byte k (Z.land x m) = Z.land (byte k x) (byte k m).
Proof. intros Hk. unfold byte. Z.bitblast. Qed.

Lemma byte_shiftr_low (k s x : Z) :
  0 <= k -> 0 <= s <= 8 ->
  Z.land (byte k (Z.shiftr x s)) (Z.ones (8 - s)) = Z.shiftr (byte k x) s.
Proof. intros Hk Hs. unfold byte. change 255 with (Z.ones 8). Z.bitblast. Qed.

Lemma land_mask_range (x m : Z) : 0 <= m < 2 ^ 32 -> 0 <= Z.land x m < 2 ^ 32.
Proof.
  intros Hm. rewrite <- (Z.mod_small m (2 ^ 32)) by assumption.
  rewrite <- (Z.land_ones m 32), Z.land_assoc, Z.land_ones by lia.
  apply Z.mod_pos_bound. lia.
Qed.

Lemma testbit_byte (k x i : Z) :
  0 <= k -> 0 <= i < 8 -> Z.testbit (byte k x) i = Z.testbit x (8 * k + i).
Proof.
  intros Hk Hi. unfold byte. change 255 with (Z.ones 8).
  rewrite Z.land_spec, Z.shiftr_spec, Z.testbit_ones_nonneg by lia.
  replace (i <? 8) with true by (symmetry; apply Z.ltb_lt; lia).
  rewrite andb_true_r. f_equal. lia.
Qed.

(** Checking a property of bytes on all 256 of them. *)
Lemma forall_bytes (P : Z -> bool) :
  forallb P (map Z.of_nat (seq 0 256)) = true ->
  forall b, 0 <= b < 256 -> P b = true.
Proof.
  intros H b Hb. rewrite forallb_forall in H. apply H.
  apply in_map_iff. exists (Z.to_nat b). split; [lia|].
  apply in_seq. lia.
Qed.

(** *** The population count, byte by byte *)

Lemma byte_steps (b : Z) :
  0 <= b < 256 ->
  let a := pairs8 b in
  let n := nibbles8 a in
  0 <= a < 256 /\ 0 <= n < 256 /\ 0 <= n mod 16 <= 4 /\ 0 <= n / 16 <= 4
  /\ n mod 16 + n / 16 = ones 8 b.
Proof.
  intros Hb a n.
  assert (H : byte_steps_ok b = true)
    by (apply forall_bytes; [vm_compute; reflexivity | assumption]).
  unfold byte_steps_ok in H. fold a n in H.
  repeat (apply andb_prop in H; destruct H as [H ?]).
  repeat match goal with
         | H : (_ <=? _) = true |- _ => apply Z.leb_le in H
         | H : (_ <? _) = true |- _ => apply Z.ltb_lt in H
         | H : (_ =? _) = true |- _ => apply Z.eqb_eq in H
         end.
  pose proof (Z.mod_pos_bound n 16 ltac:(lia)).
  pose proof (Z.div_pos n 16 ltac:(lia) ltac:(lia)).
  repeat split; lia.
Qed.

Lemma byte_shiftr_mask (k s m x : Z) :
  0 <= k -> 0 <= s <= 8 -> Z.land (Z.ones (8 - s)) m = m ->
  Z.land (byte k (Z.shiftr x s)) m = Z.land (Z.shiftr (byte k x) s) m.
Proof.
  intros Hk Hs Hm. rewrite <- Hm at 1.
  rewrite Z.land_assoc, byte_shiftr_low by lia. reflexivity.
Qed.

Lemma ones_ext (n : nat) (x y : Z) :
  (forall i, 0 <= i < Z.of_nat n -> Z.testbit x i = Z.testbit y i) ->
  ones n x = ones n y.
Proof.
  induction n as [|n IH]; intros H; simpl; [reflexivity|].
  rewrite H by lia. rewrite IH; [reflexivity|]. intros i Hi. apply H. lia.
Qed.

Lemma ones_bytes (x : Z) :
  ones 32 x
  = ones 8 (byte 0 x) + ones 8 (byte 1 x) + ones 8 (byte 2 x) + ones 8 (byte 3 x).
Proof.
  cbn [ones Z.of_nat Pos.of_succ_nat Pos.succ].
  rewrite !testbit_byte by lia.
  cbn [Z.mul Z.add Pos.mul Pos.add Pos.succ Pos.add_carry]. lia.
Qed.

Lemma ones_payload (w : Z) : ones 32 (Z.land w P1) = ones 31 w.
Proof.
  change (ones 32 (Z.land w P1))
    with (Z.b2z (Z.testbit (Z.land w P1) 31) + ones 31 (Z.land w P1)).
  change P1 with (Z.ones 31).
  rewrite Z.land_spec, Z.testbit_ones_nonneg by lia.
  rewrite andb_false_r. cbn [Z.b2z Z.add].
  apply ones_ext. intros i Hi.
  rewrite Z.land_spec, Z.testbit_ones_nonneg by lia.
  replace (i <? 31) with true by (symmetry; apply Z.ltb_lt; lia).
  apply andb_true_r.
Qed.

Ltac pow2_consts :=
  change (2 ^ 8) with 256 in *; change (2 ^ 16) with 65536 in *;
  change (2 ^ 24) with 16777216 in *; change (2 ^ 32) with 4294967296 in *.

Lemma gather_bytes (s0 s1 s2 s3 : Z) :
  0 <= s0 <= 8 -> 0 <= s1 <= 8 -> 0 <= s2 <= 8 -> 0 <= s3 <= 8 ->
  wrap32 (0 + Z.shiftr
                (wrap32 ((s0 + 2 ^ 8 * s1 + 2 ^ 16 * s2 + 2 ^ 24 * s3) * P5)) 24)
  = s0 + s1 + s2 + s3.
Proof.
  intros H0 H1 H2 H3. unfold wrap32, P5.
  rewrite Z.shiftr_div_pow2 by lia. pow2_consts.
  set (low := s0 + 256 * (s0 + s1) + 65536 * (s0 + s1 + s2)
              + 16777216 * (s0 + s1 + s2 + s3)).
  replace ((s0 + 256 * s1 + 65536 * s2 + 16777216 * s3) * 16843009)
    with (low + (s1 + s2 + s3 + 256 * (s2 + s3) + 65536 * s3) * 4294967296)
    by (subst low; ring).
  rewrite Z_mod_plus_full, (Z.mod_small low) by (subst low; lia).
  replace (low / 16777216) with (s0 + s1 + s2 + s3).
  - rewrite Z.add_0_l. apply Z.mod_small. lia.
  - apply Z.div_unique with (r := s0 + 256 * (s0 + s1) + 65536 * (s0 + s1 + s2)).
    + left. lia.
    + subst low. ring.
Qed.

Lemma popcount31_ones (w : Z) : popcount31 w = ones 31 w.
Proof.
  rewrite <- ones_payload, ones_bytes.
  unfold popcount31, BITSET_POP_COUNT. cbn [fst].
  change (BITSET_WORD_LENGTH - 8) with 24.
  set (w0 := Z.land w P1).
  assert (Hw0 : 0 <= w0 < 2 ^ 32) by (apply land_mask_range; vm_compute; split; congruence).
  (* step 1: pairs *)
  set (g := Z.land (Z.shiftr w0 1) P2).
  assert (Hg : 0 <= g < 2 ^ 32) by (apply land_mask_range; vm_compute; split; congruence).
  assert (Hgk : forall k, 0 <= k < 4 ->
                byte k g = Z.land (Z.shiftr (byte k w0) 1) 0x55).
  { intros k Hk. unfold g. rewrite byte_land by lia.
    replace (byte k P2) with 0x55
      by (assert (k = 0 \/ k = 1 \/ k = 2 \/ k = 3) as [->|[->|[->| ->]]] by lia;
          reflexivity).
    apply byte_shiftr_mask; [lia | lia | reflexivity]. }
  pose proof (byte_range 0 w0) as R0. pose proof (byte_range 1 w0) as R1.
  pose proof (byte_range 2 w0) as R2. pose proof (byte_range 3 w0) as R3.
  destruct (byte_steps _ R0) as (A0 & N0 & L0 & H0 & E0).
  destruct (byte_steps _ R1) as (A1 & N1 & L1 & H1 & E1).
  destruct (byte_steps _ R2) as (A2 & N2 & L2 & H2 & E2).
  destruct (byte_steps _ R3) as (A3 & N3 & L3 & H3 & E3).
  rewrite <- E0, <- E1, <- E2, <- E3. clear E0 E1 E2 E3.
  set (a0 := pairs8 (byte 0 w0)) in *. set (a1 := pairs8 (byte 1 w0)) in *.
  set (a2 := pairs8 (byte 2 w0)) in *. set (a3 := pairs8 (byte 3 w0)) in *.
  assert (Ha : wrap32 (w0 - g) = a0 + 2 ^ 8 * a1 + 2 ^ 16 * a2 + 2 ^ 24 * a3).
  { pose proof (word_bytes w0 Hw0) as Ew. pose proof (word_bytes g Hg) as Eg.
    rewrite !Hgk in Eg by lia.
    unfold wrap32. subst a0 a1 a2 a3. unfold pairs8 in *.
    pow2_consts. rewrite Z.mod_small; lia. }
  rewrite Ha. clear Ha Hgk Hg. clearbody a0 a1 a2 a3. clear g R0 R1 R2 R3.
  set (a := a0 + 2 ^ 8 * a1 + 2 ^ 16 * a2 + 2 ^ 24 * a3).
  destruct (bytes_unique a0 a1 a2 a3 A0 A1 A2 A3) as (Ba0 & Ba1 & Ba2 & Ba3).
  fold a in Ba0, Ba1, Ba2, Ba3.
  (* step 2: nibbles *)
  set (p := Z.land a P3). set (q := Z.land (Z.shiftr a 2) P3).
  assert (Hp : 0 <= p < 2 ^ 32) by (apply land_mask_range; vm_compute; split; congruence).
  assert (Hq : 0 <= q < 2 ^ 32) by (apply land_mask_range; vm_compute; split; congruence).
  assert (Hpk : forall k, 0 <= k < 4 -> byte k p = Z.land (byte k a) 0x33).
  { intros k Hk. unfold p. rewrite byte_land by lia. f_equal.
    assert (k = 0 \/ k = 1 \/ k = 2 \/ k = 3) as [->|[->|[->| ->]]] by lia;
      reflexivity. }
  assert (Hqk : forall k, 0 <= k < 4 ->
                byte k q = Z.land (Z.shiftr (byte k a) 2) 0x33).
  { intros k Hk. unfold q. rewrite byte_land by lia.
    replace (byte k P3) with 0x33
      by (assert (k = 0 \/ k = 1 \/ k = 2 \/ k = 3) as [->|[->|[->| ->]]] by lia;
          reflexivity).
    apply byte_shiftr_mask; [lia | lia | reflexivity]. }
  set (n0 := nibbles8 a0) in *. set (n1 := nibbles8 a1) in *.
  set (n2 := nibbles8 a2) in *. set (n3 := nibbles8 a3) in *.
  assert (Hb : wrap32 (p + q) = n0 + 2 ^ 8 * n1 + 2 ^ 16 * n2 + 2 ^ 24 * n3).
  { pose proof (word_bytes p Hp) as Ep. pose proof (word_bytes q Hq) as Eq.
    rewrite !Hpk in Ep by lia. rewrite !Hqk in Eq by lia.
    rewrite Ba0, Ba1, Ba2, Ba3 in Ep, Eq.
    unfold wrap32. subst n0 n1 n2 n3. unfold nibbles8 in *.
    pow2_consts. rewrite Z.mod_small; lia. }
  rewrite Hb. clear Hb Hpk Hqk Hp Hq Ba0 Ba1 Ba2 Ba3. clearbody n0 n1 n2 n3.
  clear p q a A0 A1 A2 A3 a0 a1 a2 a3 Hw0 w0.
  (* step 3: bytes *)
  set (b := n0 + 2 ^ 8 * n1 + 2 ^ 16 * n2 + 2 ^ 24 * n3).
  set (l0 := n0 mod 16) in *. set (h0 := n0 / 16) in *.
  set (l1 := n1 mod 16) in *. set (h1 := n1 / 16) in *.
  set (l2 := n2 mod 16) in *. set (h2 := n2 / 16) in *.
  set (l3 := n3 mod 16) in *. set (h3 := n3 / 16) in *.
  assert (En0 : n0 = l0 + 16 * h0) by (subst l0 h0; Z.div_mod_to_equations; lia).
  assert (En1 : n1 = l1 + 16 * h1) by (subst l1 h1; Z.div_mod_to_equations; lia).
  assert (En2 : n2 = l2 + 16 * h2) by (subst l2 h2; Z.div_mod_to_equations; lia).
  assert (En3 : n3 = l3 + 16 * h3) by (subst l3 h3; Z.div_mod_to_equations; lia).
  clearbody l0 h0 l1 h1 l2 h2 l3 h3.
  set (t0 := (l0 + h0) + 16 * (h0 + l1)).
  set (t1 := (l1 + h1) + 16 * (h1 + l2)).
  set (t2 := (l2 + h2) + 16 * (h2 + l3)).
  set (t3 := (l3 + h3) + 16 * h3).
  assert (Ht : wrap32 (b + Z.shiftr b 4)
               = t0 + 2 ^ 8 * t1 + 2 ^ 16 * t2 + 2 ^ 24 * t3).
  { rewrite Z.shiftr_div_pow2 by lia. change (2 ^ 4) with 16.
    assert (Hd : b / 16
                 = h0 + 16 * l1 + 256 * h1 + 4096 * l2 + 65536 * h2
                   + 1048576 * l3 + 16777216 * h3).
    { subst b. rewrite En0, En1, En2, En3. pow2_consts.
      Z.div_mod_to_equations. lia. }
    rewrite Hd. unfold wrap32. subst b t0 t1 t2 t3.
    rewrite En0, En1, En2, En3. pow2_consts. rewrite Z.mod_small; lia. }
  rewrite Ht. clear Ht.
  assert (T0 : 0 <= t0 < 256) by (subst t0; lia).
  assert (T1 : 0 <= t1 < 256) by (subst t1; lia).
  assert (T2 : 0 <= t2 < 256) by (subst t2; lia).
  assert (T3 : 0 <= t3 < 256) by (subst t3; lia).
  set (t := t0 + 2 ^ 8 * t1 + 2 ^ 16 * t2 + 2 ^ 24 * t3).
  destruct (bytes_unique t0 t1 t2 t3 T0 T1 T2 T3) as (Bt0 & Bt1 & Bt2 & Bt3).
  fold t in Bt0, Bt1, Bt2, Bt3.
  set (e := Z.land t P4).
  assert (He : 0 <= e < 2 ^ 32) by (apply land_mask_range; vm_compute; split; congruence).
  assert (Hek : forall k, 0 <= k < 4 -> byte k e = byte k t mod 16).
  { intros k Hk. unfold e. rewrite byte_land by lia.
    replace (byte k P4) with (Z.ones 4)
      by (assert (k = 0 \/ k = 1 \/ k = 2 \/ k = 3) as [->|[->|[->| ->]]] by lia;
          reflexivity).
    rewrite Z.land_ones by lia. reflexivity. }
  pose proof (word_bytes e He) as Ee. rewrite !Hek in Ee by lia.
  rewrite Bt0, Bt1, Bt2, Bt3 in Ee.
  replace (t0 mod 16) with (l0 + h0) in Ee
    by (subst t0; Z.div_mod_to_equations; lia).
  replace (t1 mod 16) with (l1 + h1) in Ee
    by (subst t1; Z.div_mod_to_equations; lia).
  replace (t2 mod 16) with (l2 + h2) in Ee
    by (subst t2; Z.div_mod_to_equations; lia).
  replace (t3 mod 16) with (l3 + h3) in Ee
    by (subst t3; Z.div_mod_to_equations; lia).
  (* step 4: the multiplication gathers the four byte counts *)
  rewrite Ee. apply gather_bytes; lia.
Qed.

(** *** Literals *)

Lemma create_literal_pow2 (p : Z) :
  0 <= p <= 30 -> BITSET_CREATE_LITERAL p = 2 ^ (30 - p).
Proof.
  intros Hp. unfold BITSET_CREATE_LITERAL.
  change (BITSET_WORD_LENGTH - 2) with 30.
  rewrite Z.shiftr_div_pow2, Z.shiftl_1_l by lia.
  rewrite Z.pow_sub_r by lia. reflexivity.
Qed.

Lemma create_literal_bits (p i : Z) :
  0 <= p <= 30 -> 0 <= i ->
  Z.testbit (BITSET_CREATE_LITERAL p) i = (i =? 30 - p).
Proof.
  intros Hp Hi. rewrite create_literal_pow2 by assumption.
  rewrite Z.pow2_bits_eqb by lia. apply Z.eqb_sym.
Qed.

Lemma ones_pow2 (n : nat) (j : Z) :
  0 <= j -> ones n (2 ^ j) = if j <? Z.of_nat n then 1 else 0.
Proof.
  intros Hj. induction n as [|n IH].
  - simpl. destruct (j <? 0) eqn:E; [apply Z.ltb_lt in E; lia | reflexivity].
  - cbn [ones]. rewrite IH, Z.pow2_bits_eqb by lia.
    destruct (Z.eqb_spec j (Z.of_nat n)) as [->|Hne].
    + rewrite Z.ltb_irrefl.
      replace (Z.of_nat n <? Z.of_nat (S n)) with true
        by (symmetry; apply Z.ltb_lt; lia).
      reflexivity.
    + destruct (Z.ltb_spec j (Z.of_nat n)), (Z.ltb_spec j (Z.of_nat (S n)));
        simpl; lia.
Qed.

Lemma is_literal_msb (w : Z) :
  BITSET_IS_LITERAL_WORD w = negb (Z.testbit w 31).
Proof.
  unfold BITSET_IS_LITERAL_WORD. change BITSET_FILL_BIT with (2 ^ 31).
  destruct (Z.testbit w 31) eqn:E; cbn [negb].
  - apply Z.eqb_neq. intros H.
    assert (F : Z.testbit (Z.land w (2 ^ 31)) 31 = false)
      by (rewrite H; apply Z.bits_0).
    rewrite Z.land_spec, E, Z.pow2_bits_true in F by lia. discriminate.
  - apply Z.eqb_eq. apply Z.bits_inj'. intros i Hi.
    rewrite Z.land_spec, Z.bits_0, Z.pow2_bits_eqb by lia.
    destruct (Z.eqb_spec 31 i) as [<-|]; [rewrite E|]; auto using andb_false_r.
Qed.

(** The layout the macros of the header compute: the length field of a
    fill word is its 26 low bits (the mask and [BITSET_MAX_LENGTH] are
    [2^26 - 1]) and the position field is the 5 bits 26..30. *)
Lemma fill_fields_layout (w : Z) :
  BITSET_GET_LENGTH w = w mod 2 ^ 26
  /\ BITSET_LENGTH_MASK = 2 ^ 26 - 1
  /\ BITSET_MAX_LENGTH = 2 ^ 26 - 1
  /\ BITSET_GET_POSITION w = (w / 2 ^ 26) mod 2 ^ 5
  /\ BITSET_POSITION_MASK = (2 ^ 5 - 1) * 2 ^ 26.
Proof.
  repeat split; auto using get_length_mod, get_position_div_mod.
Qed.

(** C1: the header does not have the layout the claim states and the test
    suite relies on.  The fill word [0x82000001] is length 1 and position 1
    with a length of 25 bits (the test suite expects bit 31 of that bitset
    to be set); the macros read it as length [0x2000001] and position 0.
    The largest length is [2^26 - 1], not [2^25 - 1], and
    [BITSET_CREATE_FILL(2, 0)] is [0x84000002] where the test suite expects
    the word [0x82000002]. *)
Theorem fill_fields_not_25 :
  BITSET_GET_LENGTH 0x82000001 = 0x2000001
  /\ 0x82000001 mod 2 ^ 25 = 1
  /\ BITSET_GET_LENGTH 0x82000001 <> 0x82000001 mod 2 ^ 25
  /\ BITSET_GET_POSITION 0x82000001 = 0
  /\ (0x82000001 / 2 ^ 25) mod 2 ^ 5 = 1
  /\ BITSET_GET_POSITION 0x82000001 <> (0x82000001 / 2 ^ 25) mod 2 ^ 5
  /\ BITSET_MAX_LENGTH = 2 ^ 26 - 1
  /\ BITSET_MAX_LENGTH <> 2 ^ 25 - 1
  /\ BITSET_CREATE_FILL 2 0 = 0x84000002
  /\ BITSET_CREATE_FILL 2 0 <> 0x82000002.
Proof. vm_compute. repeat split; congruence. Qed.

(** C8: for [0 <= p <= 30] the word [BITSET_CREATE_LITERAL p] is a literal
    with exactly one set bit, at payload position [p] counted from the most
    significant bit below the fill bit; [BITSET_POP_COUNT] counts the ones
    among the 31 payload bits of any word and ignores bit 31; so the count
    of [BITSET_CREATE_LITERAL p] is 1. *)
Theorem create_literal_popcount (p : Z) :
  0 <= p <= 30 ->
  BITSET_IS_LITERAL_WORD (BITSET_CREATE_LITERAL p) = true
  /\ (forall i, 0 <= i ->
        Z.testbit (BITSET_CREATE_LITERAL p) i = (i =? 30 - p))
  /\ (forall k, 0 <= k <= 30 ->
        payload_bit (BITSET_CREATE_LITERAL p) k = (k =? p))
  /\ (forall w, popcount31 w = ones 31 w)
  /\ (forall w, popcount31 (Z.lor w BITSET_FILL_BIT) = popcount31 w)
  /\ popcount31 (BITSET_CREATE_LITERAL p) = 1.
Proof.
  intros Hp. repeat split.
  - rewrite is_literal_msb, create_literal_bits by lia.
    destruct (Z.eqb_spec 31 (30 - p)); [lia | reflexivity].
  - intros i Hi. apply create_literal_bits; assumption.
  - intros k Hk. unfold payload_bit. change (BITSET_LITERAL_LENGTH - 1) with 30.
    rewrite create_literal_bits by lia.
    destruct (Z.eqb_spec (30 - k) (30 - p)), (Z.eqb_spec k p); lia || reflexivity.
  - apply popcount31_ones.
  - intros w. rewrite !popcount31_ones. apply ones_ext. intros i Hi.
    change BITSET_FILL_BIT with (2 ^ 31).
    rewrite Z.lor_spec, Z.pow2_bits_eqb by lia.
    destruct (Z.eqb_spec 31 i); [lia | apply orb_false_r].
  - rewrite popcount31_ones, create_literal_pow2, ones_pow2 by lia.
    destruct (Z.ltb_spec (30 - p) (Z.of_nat 31)); [reflexivity | lia].
Qed.

Lemma create_literal_popcount_witness :
  0 <= 10 <= 30
  /\ BITSET_CREATE_LITERAL 10 = 0x100000
  /\ payload_bit (BITSET_CREATE_LITERAL 10) 10 = true
  /\ popcount31 (BITSET_CREATE_LITERAL 10) = 1.
Proof.
  assert (H : 0 <= 10 <= 30) by lia.
  destruct (create_literal_popcount 10 H) as (_ & _ & Hk & _ & _ & Hc).
  split; [exact H|]. split; [reflexivity|]. split; [|exact Hc].
  apply (Hk 10). lia.
Defined.

(** *** [BITSET_NEXT_POW2] *)

Lemma smeared_start (d : Z) : smeared d d 1.
Proof.
  intros i Hi. split.
  - intros H. exists i. split; [lia | exact H].
  - intros (j & Hj & H). replace i with j by lia. exact H.
Qed.

Lemma smeared_step (d x m : Z) :
  0 <= m -> smeared d x m ->
  smeared d (Z.lor x (Z.shiftr x m)) (2 * m).
Proof.
  intros Hm H i Hi.
  rewrite Z.lor_spec, Z.shiftr_spec, orb_true_iff, (H i), (H (i + m))
    by lia.
  split.
  - intros [(j & Hj & Hb)|(j & Hj & Hb)]; exists j; (split; [lia | exact Hb]).
  - intros (j & Hj & Hb). destruct (Z_lt_dec j (i + m)).
    + left. exists j. split; [lia | exact Hb].
    + right. exists j. split; [lia | exact Hb].
Qed.

Lemma smear_ones (d : Z) :
  0 < d < 2 ^ 32 ->
  let d1 := Z.lor d (Z.shiftr d 1) in
  let d2 := Z.lor d1 (Z.shiftr d1 2) in
  let d3 := Z.lor d2 (Z.shiftr d2 4) in
  let d4 := Z.lor d3 (Z.shiftr d3 8) in
  Z.lor d4 (Z.shiftr d4 16) = 2 ^ (Z.log2 d + 1) - 1.
Proof.
  intros Hd d1 d2 d3 d4.
  assert (H : smeared d (Z.lor d4 (Z.shiftr d4 16)) 32).
  { apply (smeared_step d d4 16); [lia|].
    apply (smeared_step d d3 8); [lia|].
    apply (smeared_step d d2 4); [lia|].
    apply (smeared_step d d1 2); [lia|].
    apply (smeared_step d d 1); [lia|]. apply smeared_start. }
  pose proof (Z.log2_nonneg d) as Hl0.
  assert (Hl : Z.log2 d < 32) by (apply Z.log2_lt_pow2; lia).
  replace (2 ^ (Z.log2 d + 1) - 1) with (Z.ones (Z.log2 d + 1))
    by (rewrite Z.ones_equiv; lia).
  apply Z.bits_inj'. intros i Hi.
  rewrite Z.testbit_ones_nonneg by lia.
  destruct (Z.ltb_spec i (Z.log2 d + 1)).
  - apply (H i Hi). exists (Z.log2 d). split; [lia|].
    apply Z.bit_log2. lia.
  - destruct (Z.testbit _ i) eqn:E; [|reflexivity].
    apply (H i Hi) in E. destruct E as (j & Hj & Hb).
    rewrite Z.bits_above_log2 in Hb by lia. discriminate.
Qed.

Lemma next_pow2_log2 (s : Z) :
  1 < s <= 2 ^ 32 ->
  BITSET_NEXT_POW2 s = wrap32 (2 ^ Z.log2_up s).
Proof.
  intros Hs. unfold BITSET_NEXT_POW2.
  replace (wrap32 (s - 1)) with (s - 1)
    by (unfold wrap32; rewrite Z.mod_small; lia).
  rewrite smear_ones by lia.
  rewrite Z.log2_up_eqn by lia. unfold Z.succ, Z.pred.
  replace (2 ^ (Z.log2 (s - 1) + 1) - 1 + 1) with (2 ^ (Z.log2 (s - 1) + 1))
    by lia.
  reflexivity.
Qed.

Lemma next_pow2_bounds (s : Z) :
  1 <= s <= 2 ^ 31 ->
  BITSET_NEXT_POW2 s = 2 ^ Z.log2_up s /\ s <= BITSET_NEXT_POW2 s < 2 * s.
Proof.
  intros Hs. destruct (Z.eq_dec s 1) as [->|Hne].
  { split; [reflexivity | vm_compute; split; congruence]. }
  assert (Hlu : Z.log2_up s <= 31) by (apply Z.log2_up_le_pow2; lia).
  pose proof (Z.log2_up_nonneg s) as Hlu0.
  assert (Hp : 2 ^ Z.log2_up s <= 2 ^ 31) by (apply Z.pow_le_mono_r; lia).
  assert (Hn : BITSET_NEXT_POW2 s = 2 ^ Z.log2_up s).
  { rewrite next_pow2_log2 by lia. unfold wrap32. apply Z.mod_small.
    split; [apply Z.pow_nonneg|]; lia. }
  pose proof (Z.log2_up_spec s ltac:(lia)) as Hspec.
  assert (Hpos : 0 < Z.log2_up s) by (apply Z.log2_up_pos; lia).
  assert (Hdouble : 2 ^ Z.log2_up s = 2 * 2 ^ Z.pred (Z.log2_up s)).
  { rewrite <- Z.pow_succ_r by (unfold Z.pred; lia).
    f_equal. unfold Z.succ, Z.pred. lia. }
  split; [exact Hn|]. rewrite Hn. lia.
Qed.

Lemma next_pow2_overflow (s : Z) :
  2 ^ 31 < s < 2 ^ 32 -> BITSET_NEXT_POW2 s = 0.
Proof.
  intros Hs. rewrite next_pow2_log2 by lia.
  assert (Hlu : Z.log2_up s = 32).
  { apply Z.le_antisymm.
    - apply Z.log2_up_le_pow2; lia.
    - destruct (Z_le_gt_dec (Z.log2_up s) 31) as [Hle|Hgt]; [|lia].
      apply Z.log2_up_le_pow2 in Hle; lia. }
  rewrite Hlu. reflexivity.
Qed.

End WordFacts.

(** ** Buffers *)

Lemma store_nat_length (mem : list Z) (n : nat) (v : Z) :
  length (store_nat mem n v) = length mem.
Proof.
  revert n; induction mem as [|h t IH]; intros [|n]; simpl; auto.
Qed.

Lemma store_length (mem : list Z) (p v : Z) :
  length (store mem p v) = length mem.
Proof. unfold store. destruct (p <? 0); auto using store_nat_length. Qed.

Lemma nth_error_store_nat_same (mem : list Z) (n : nat) (v : Z) :
  (n < length mem)%nat -> nth_error (store_nat mem n v) n = Some v.
Proof.
  revert n; induction mem as [|h t IH]; intros [|n] H; simpl in *;
    try lia; auto. apply IH. lia.
Qed.

Lemma nth_error_store_nat_other (mem : list Z) (n m : nat) (v : Z) :
  n <> m -> nth_error (store_nat mem n v) m = nth_error mem m.
Proof.
  revert n m; induction mem as [|h t IH]; intros [|n] [|m] H; simpl;
    try congruence; auto.
Qed.

Lemma load_store_same (mem : list Z) (p v : Z) :
  0 <= p < Z.of_nat (length mem) -> load (store mem p v) p = Some v.
Proof.
  intros H. unfold load, store.
  destruct (Z.ltb_spec p 0); [lia|].
  apply nth_error_store_nat_same. lia.
Qed.

Lemma load_store_other (mem : list Z) (p q v : Z) :
  p <> q -> load (store mem p v) q = load mem q.
Proof.
  intros H. unfold load, store.
  destruct (Z.ltb_spec q 0); [reflexivity|].
  destruct (Z.ltb_spec p 0); [reflexivity|].
  apply nth_error_store_nat_other. lia.
Qed.

Lemma some_inj {A : Type} (a b : A) : Some a = Some b -> a = b.
Proof. congruence. Qed.

Lemma load_Some_bounds (mem : list Z) (p v : Z) :
  load mem p = Some v -> 0 <= p < Z.of_nat (length mem).
Proof.
  unfold load. destruct (Z.ltb_spec p 0); [discriminate|]. intros Hv.
  assert (Hn : nth_error mem (Z.to_nat p) <> None) by congruence.
  apply nth_error_Some in Hn. lia.
Qed.

Lemma load_skipn (mem : list Z) (p k : Z) :
  0 <= p -> 0 <= k -> load (skipn (Z.to_nat p) mem) k = load mem (p + k).
Proof.
  intros Hp Hk. unfold load.
  destruct (Z.ltb_spec k 0); [lia|]. destruct (Z.ltb_spec (p + k) 0); [lia|].
  rewrite nth_error_skipn. f_equal. lia.
Qed.

Lemma load_word_skipn (mem : list Z) (p k : Z) :
  0 <= p -> 0 <= k ->
  load_word (skipn (Z.to_nat p) mem) k = load_word mem (p + k).
Proof.
  intros Hp Hk. unfold load_word.
  rewrite !load_skipn, !Z.add_assoc by lia. reflexivity.
Qed.

Lemma load_words_skipn (mem : list Z) (n : nat) (p k : Z) :
  0 <= p -> 0 <= k ->
  load_words (skipn (Z.to_nat p) mem) k n = load_words mem (p + k) n.
Proof.
  revert k. induction n as [|n IH]; intros k Hp Hk; simpl; [reflexivity|].
  rewrite load_word_skipn, IH, Z.add_assoc by lia. reflexivity.
Qed.

Lemma load_word_bounds (mem : list Z) (p w : Z) :
  load_word mem p = Some w -> 0 <= p /\ p + 4 <= Z.of_nat (length mem).
Proof.
  unfold load_word. intros H.
  destruct (load mem p) eqn:E0; [|discriminate].
  destruct (load mem (p + 1)); [|discriminate].
  destruct (load mem (p + 2)); [|discriminate].
  destruct (load mem (p + 3)) eqn:E3; [|discriminate].
  apply load_Some_bounds in E0, E3. lia.
Qed.

Lemma load_words_bounds (mem : list Z) (n : nat) (p : Z) (ws : list Z) :
  load_words mem p n = Some ws ->
  length ws = n /\ (n <> O -> 0 <= p /\ p + 4 * Z.of_nat n <= Z.of_nat (length mem)).
Proof.
  revert p ws. induction n as [|n IH]; intros p ws H; simpl in H.
  - inversion H. split; [reflexivity | congruence].
  - destruct (load_word mem p) eqn:Ew; [|discriminate].
    destruct (load_words mem (p + 4) n) eqn:Er; [|discriminate].
    inversion H; subst. apply load_word_bounds in Ew.
    destruct (IH _ _ Er) as [Hl Hb]. split; [simpl; congruence|].
    intros _. destruct n as [|n]; [lia|].
    specialize (Hb ltac:(discriminate)). lia.
Qed.

(** *** Writes at the end of a buffer *)

Lemma store_nat_app (pre l : list Z) (k : nat) (v : Z) :
  store_nat (pre ++ l) (length pre + k) v = pre ++ store_nat l k v.
Proof.
  induction pre as [|h t IH]; simpl; [reflexivity|]. rewrite IH. reflexivity.
Qed.

Lemma store_app (pre l : list Z) (p k v : Z) :
  p = Z.of_nat (length pre) + k -> 0 <= k ->
  store (pre ++ l) p v = pre ++ store l k v.
Proof.
  intros -> Hk. unfold store.
  destruct (Z.ltb_spec (Z.of_nat (length pre) + k) 0); [lia|].
  destruct (Z.ltb_spec k 0); [lia|].
  replace (Z.to_nat (Z.of_nat (length pre) + k))
    with (length pre + Z.to_nat k)%nat by lia.
  apply store_nat_app.
Qed.

Lemma store_bytes_app (bytes : list Z) :
  forall (pre l : list Z) (p k : Z),
    p = Z.of_nat (length pre) + k -> 0 <= k ->
    store_bytes (pre ++ l) p bytes = pre ++ store_bytes l k bytes.
Proof.
  induction bytes as [|b bs IH]; intros pre l p k Hp Hk; simpl;
    [reflexivity|].
  rewrite (store_app pre l p k) by assumption.
  apply IH; lia.
Qed.

Lemma store_bytes_over (bytes : list Z) :
  forall (done region : list Z),
    length region = length bytes ->
    store_bytes (done ++ region) (Z.of_nat (length done)) bytes
    = done ++ bytes.
Proof.
  induction bytes as [|b bs IH]; intros done region Hl.
  - destruct region; [|discriminate]. reflexivity.
  - destruct region as [|r region]; [discriminate|]. simpl.
    rewrite (store_app done (r :: region) _ 0) by lia.
    change (store (r :: region) 0 b) with (b :: region).
    replace (done ++ b :: region) with ((done ++ [b]) ++ region)
      by (rewrite <- app_assoc; reflexivity).
    replace (Z.of_nat (length done) + 1) with (Z.of_nat (length (done ++ [b])))
      by (rewrite length_app; simpl; lia).
    rewrite IH by (simpl in Hl; lia).
    rewrite <- app_assoc. reflexivity.
Qed.

Lemma words_to_bytes_length (ws : list Z) :
  length (words_to_bytes ws) = (4 * length ws)%nat.
Proof.
  induction ws as [|w ws IH]; [reflexivity|].
  change (words_to_bytes (w :: ws))
    with (word_to_bytes w ++ words_to_bytes ws).
  rewrite length_app, IH. simpl. lia.
Qed.

Lemma load_word_cons4 (b0 b1 b2 b3 : Z) (l : list Z) :
  load_word (b0 :: b1 :: b2 :: b3 :: l) 0
  = Some (b0 + 2 ^ 8 * b1 + 2 ^ 16 * b2 + 2 ^ 24 * b3).
Proof. reflexivity. Qed.

(** Words read back from their bytes. *)
Lemma load_words_of_bytes (ws : list Z) :
  forall rest : list Z,
    Forall (fun w => 0 <= w < 2 ^ 32) ws ->
    load_words (words_to_bytes ws ++ rest) 0 (length ws) = Some ws.
Proof.
  induction ws as [|w ws IH]; intros rest Hws; [reflexivity|].
  inversion Hws as [|? ? Hw Hws']; subst.
  cbn [length load_words words_to_bytes flat_map word_to_bytes app].
  rewrite load_word_cons4, <- (WordFacts.word_bytes w Hw).
  pose proof (load_words_skipn
                (Word.byte 0 w :: Word.byte 1 w :: Word.byte 2 w
                 :: Word.byte 3 w :: flat_map word_to_bytes ws ++ rest)
                (length ws) 4 0 ltac:(lia) ltac:(lia)) as Hs.
  change (Z.to_nat 4) with 4%nat in Hs. cbn [skipn] in Hs.
  change (4 + 0) with (0 + 4) in Hs. rewrite <- Hs.
  fold (words_to_bytes ws). rewrite IH by assumption. reflexivity.
Qed.

(** ** Length-prefixed integers *)

Module VarintFacts.
Import Varint.

Lemma uchar_range (z : Z) : 0 <= uchar z < 256.
Proof. unfold uchar. apply Z.mod_pos_bound. reflexivity. Qed.

Lemma uchar_small (z : Z) : 0 <= z < 256 -> uchar z = z.
Proof. intros H. unfold uchar. apply Z.mod_small. exact H. Qed.

Lemma to_char_small (z : Z) : 0 <= z < 256 -> to_char z = z.
Proof. intros H. unfold to_char. apply Z.mod_small. exact H. Qed.

(** The shifts of the encoder act on a value already cut to one byte. *)
Lemma uchar_shiftr_zero (z s : Z) : 8 <= s -> Z.shiftr (uchar z) s = 0.
Proof.
  intros Hs. pose proof (uchar_range z) as H.
  rewrite Z.shiftr_div_pow2 by lia. apply Z.div_small.
  assert (2 ^ 8 <= 2 ^ s) by (apply Z.pow_le_mono_r; lia).
  change (2 ^ 8) with 256 in *. lia.
Qed.

Lemma small_prefix_zero (z : Z) : 0 <= z < 64 -> Z.land z 0xC0 = 0.
Proof.
  intros H. rewrite <- (Z.mod_small z (2 ^ 6)) by exact H.
  rewrite <- Z.land_ones, <- Z.land_assoc by lia. apply Z.land_0_r.
Qed.

Lemma encoded_first_byte (length : Z) (mem : list Z) (buffer : Z) :
  0 <= length ->
  0 <= buffer ->
  buffer + bitset_encoded_length_required_bytes length
    <= Z.of_nat (List.length mem) ->
  load (bitset_encoded_length_bytes length mem buffer) buffer
  = Some (first_byte length).
Proof.
  unfold bitset_encoded_length_bytes, bitset_encoded_length_required_bytes,
    first_byte.
  change (Z.shiftl 1 6) with 64; change (Z.shiftl 1 14) with 16384;
    change (Z.shiftl 1 22) with 4194304.
  intros Hn Hb.
  destruct (Z.ltb_spec length 64); [|destruct (Z.ltb_spec length 16384);
    [|destruct (Z.ltb_spec length 4194304)]]; intros Hlen.
  - rewrite load_store_same by lia. f_equal.
    rewrite (uchar_small length), (to_char_small length) by lia. reflexivity.
  - rewrite load_store_other, load_store_same by lia.
    rewrite uchar_shiftr_zero by lia. reflexivity.
  - rewrite !load_store_other, load_store_same by lia.
    rewrite uchar_shiftr_zero by lia. reflexivity.
  - rewrite !load_store_other, load_store_same by lia.
    rewrite uchar_shiftr_zero by lia. reflexivity.
Qed.

(** *** What the decoder reads *)

Lemma encoded_length_size_skipn (mem : list Z) (p k : Z) :
  0 <= p -> 0 <= k ->
  bitset_encoded_length_size (skipn (Z.to_nat p) mem) k
  = bitset_encoded_length_size mem (p + k).
Proof.
  intros Hp Hk. unfold bitset_encoded_length_size.
  rewrite load_skipn by lia. reflexivity.
Qed.

Lemma encoded_length_skipn (mem : list Z) (p k : Z) :
  0 <= p -> 0 <= k ->
  bitset_encoded_length (skipn (Z.to_nat p) mem) k
  = bitset_encoded_length mem (p + k).
Proof.
  intros Hp Hk. unfold bitset_encoded_length.
  rewrite !load_skipn, !Z.add_assoc by lia. reflexivity.
Qed.

Lemma encoded_length_size_range (mem : list Z) (p n : Z) :
  bitset_encoded_length_size mem p = Some n -> 1 <= n <= 4.
Proof.
  unfold bitset_encoded_length_size.
  destruct (load mem p) as [b0|]; [|discriminate].
  intros H; inversion H; clear H.
  repeat match goal with |- context [if ?c then _ else _] => destruct c end;
    lia.
Qed.

Lemma high_bits_range (b s : Z) :
  0 <= s -> 0 <= Z.shiftl (Z.land (uchar b) 0x3F) s <= 63 * 2 ^ s.
Proof.
  intros Hs. change 0x3F with (Z.ones 6).
  rewrite Z.land_ones, Z.shiftl_mul_pow2 by lia.
  pose proof (Z.mod_pos_bound (uchar b) (2 ^ 6) ltac:(lia)) as H.
  change (2 ^ 6) with 64 in *. change (Z.ones 6) with 63.
  assert (0 < 2 ^ s) by (apply Z.pow_pos_nonneg; lia).
  split; [apply Z.mul_nonneg_nonneg; lia | apply Z.mul_le_mono_nonneg_r; lia].
Qed.

Lemma low_byte_range (b s : Z) :
  0 <= s -> 0 <= Z.shiftl (uchar b) s <= 255 * 2 ^ s.
Proof.
  intros Hs. rewrite Z.shiftl_mul_pow2 by lia.
  pose proof (uchar_range b) as H.
  assert (0 < 2 ^ s) by (apply Z.pow_pos_nonneg; lia).
  split; [apply Z.mul_nonneg_nonneg; lia | apply Z.mul_le_mono_nonneg_r; lia].
Qed.

Ltac mod_small32 :=
  repeat match goal with
         | |- context [?x mod 4294967296] =>
             rewrite (Z.mod_small x 4294967296) by lia
         end.

Lemma encoded_length_range (mem : list Z) (p v : Z) :
  bitset_encoded_length mem p = Some v -> 0 <= v < 2 ^ 30.
Proof.
  unfold bitset_encoded_length.
  destruct (load mem p) as [b0|]; [|discriminate].
  pose proof (uchar_range b0) as R0.
  pose proof (high_bits_range b0 8 ltac:(lia)) as H8.
  pose proof (high_bits_range b0 16 ltac:(lia)) as H16.
  pose proof (high_bits_range b0 24 ltac:(lia)) as H24.
  destruct (Z.land b0 0xC0 =? 0x00).
  { intros H; apply some_inj in H; subst v. lia. }
  destruct (load mem (p + 1)) as [b1|];
    [|repeat match goal with
             | |- context [if ?c then _ else _] => destruct c
             end; discriminate].
  pose proof (uchar_range b1) as R1.
  pose proof (low_byte_range b1 8 ltac:(lia)) as L8.
  pose proof (low_byte_range b1 16 ltac:(lia)) as L16.
  destruct (Z.land b0 0xC0 =? 0x40).
  { intros H; apply some_inj in H; subst v. unfold wrap32.
    change (2 ^ 8) with 256 in *; change (2 ^ 30) with 1073741824;
      change (2 ^ 32) with 4294967296.
    mod_small32; lia. }
  destruct (load mem (p + 2)) as [b2|];
    [|repeat match goal with
             | |- context [if ?c then _ else _] => destruct c
             end; discriminate].
  pose proof (uchar_range b2) as R2.
  pose proof (low_byte_range b2 8 ltac:(lia)) as M8.
  destruct (Z.land b0 0xC0 =? 0x80).
  { intros H; apply some_inj in H; subst v. unfold wrap32.
    change (2 ^ 8) with 256 in *; change (2 ^ 16) with 65536 in *;
      change (2 ^ 30) with 1073741824; change (2 ^ 32) with 4294967296.
    mod_small32; lia. }
  destruct (load mem (p + 3)) as [b3|]; [|discriminate].
  pose proof (uchar_range b3) as R3.
  intros H; apply some_inj in H; subst v. unfold wrap32.
  change (2 ^ 8) with 256 in *; change (2 ^ 16) with 65536 in *;
    change (2 ^ 24) with 16777216 in *;
    change (2 ^ 30) with 1073741824; change (2 ^ 32) with 4294967296.
  mod_small32; lia.
Qed.

(** A decoded integer lies inside the buffer, all its bytes included. *)
Lemma encoded_length_in_buffer (mem : list Z) (p v n : Z) :
  bitset_encoded_length mem p = Some v ->
  bitset_encoded_length_size mem p = Some n ->
  0 <= p /\ p + n <= Z.of_nat (length mem).
Proof.
  unfold bitset_encoded_length, bitset_encoded_length_size.
  destruct (load mem p) as [b0|] eqn:E0; [|discriminate].
  apply load_Some_bounds in E0.
  destruct (Z.land b0 0xC0 =? 0x00).
  { intros _ H; apply some_inj in H; lia. }
  destruct (load mem (p + 1)) as [b1|] eqn:E1;
    [|repeat match goal with
             | |- context [if ?c then _ else _] => destruct c
             end; discriminate].
  apply load_Some_bounds in E1.
  destruct (Z.land b0 0xC0 =? 0x40).
  { intros _ H; apply some_inj in H; lia. }
  destruct (load mem (p + 2)) as [b2|] eqn:E2;
    [|repeat match goal with
             | |- context [if ?c then _ else _] => destruct c
             end; discriminate].
  apply load_Some_bounds in E2.
  destruct (Z.land b0 0xC0 =? 0x80).
  { intros _ H; apply some_inj in H; lia. }
  destruct (load mem (p + 3)) as [b3|] eqn:E3; [|discriminate].
  apply load_Some_bounds in E3.
  intros _ H; apply some_inj in H; lia.
Qed.

(** *** What the encoder writes *)

Lemma encoded_length_bytes_length (n : Z) (mem : list Z) (p : Z) :
  length (bitset_encoded_length_bytes n mem p) = length mem.
Proof.
  unfold bitset_encoded_length_bytes.
  repeat match goal with |- context [if ?c then _ else _] => destruct c end;
    rewrite ?store_length; reflexivity.
Qed.

Lemma encode_nonempty (n : Z) : (1 <= length (encode n))%nat.
Proof.
  unfold encode. rewrite encoded_length_bytes_length, repeat_length.
  unfold bitset_encoded_length_required_bytes.
  repeat match goal with |- context [if ?c then _ else _] => destruct c end;
    simpl; lia.
Qed.

Lemma encode_form (n : Z) :
  0 <= n ->
  encode n
  = if n <? 64 then [n]
    else if n <? 16384 then [0x40; n mod 256]
    else if n <? 4194304 then [0x80; 0; n mod 256]
    else [0xC0; 0; 0; n mod 256].
Proof.
  intros Hn. unfold encode, bitset_encoded_length_bytes,
    bitset_encoded_length_required_bytes.
  change (Z.shiftl 1 6) with 64; change (Z.shiftl 1 14) with 16384;
    change (Z.shiftl 1 22) with 4194304.
  pose proof (uchar_range n) as Hu.
  assert (Hl : Z.land (uchar n) 255 = uchar n).
  { change 255 with (Z.ones 8). rewrite Z.land_ones by lia.
    apply Z.mod_small. exact Hu. }
  assert (Ht : to_char (uchar n) = n mod 256).
  { rewrite (to_char_small (uchar n)) by exact Hu. reflexivity. }
  destruct (Z.ltb_spec n 64); [|destruct (Z.ltb_spec n 16384);
    [|destruct (Z.ltb_spec n 4194304)]].
  - cbn. rewrite Ht. rewrite Z.mod_small by lia. reflexivity.
  - rewrite !uchar_shiftr_zero, Hl, Ht by lia. reflexivity.
  - rewrite !uchar_shiftr_zero, Hl, Ht by lia. reflexivity.
  - rewrite !uchar_shiftr_zero, Hl, Ht by lia. reflexivity.
Qed.

Lemma encode_length (n : Z) :
  0 <= n ->
  Z.of_nat (length (encode n)) = bitset_encoded_length_required_bytes n.
Proof.
  intros Hn. rewrite encode_form by exact Hn.
  unfold bitset_encoded_length_required_bytes.
  change (Z.shiftl 1 6) with 64; change (Z.shiftl 1 14) with 16384;
    change (Z.shiftl 1 22) with 4194304.
  destruct (n <? 64); [|destruct (n <? 16384); [|destruct (n <? 4194304)]];
    reflexivity.
Qed.

(** Writing at the end of [pre] is writing at index 0 of what follows. *)
Lemma encoded_length_bytes_app (n : Z) (pre l : list Z) :
  bitset_encoded_length_bytes n (pre ++ l) (Z.of_nat (length pre))
  = pre ++ bitset_encoded_length_bytes n l 0.
Proof.
  unfold bitset_encoded_length_bytes.
  repeat match goal with |- context [if ?c then _ else _] => destruct c end;
    repeat first
      [ rewrite (store_app pre _ (Z.of_nat (length pre)) 0) by lia
      | rewrite (store_app pre _ (Z.of_nat (length pre) + 1) 1) by lia
      | rewrite (store_app pre _ (Z.of_nat (length pre) + 2) 2) by lia
      | rewrite (store_app pre _ (Z.of_nat (length pre) + 3) 3) by lia ];
    reflexivity.
Qed.

(** The bytes reserved for the integer are all written. *)
Lemma encoded_length_bytes_region (n : Z) (post : list Z) :
  bitset_encoded_length_bytes n
    (repeat 0 (Z.to_nat (bitset_encoded_length_required_bytes n)) ++ post) 0
  = encode n ++ post.
Proof.
  unfold encode, bitset_encoded_length_bytes,
    bitset_encoded_length_required_bytes.
  destruct (n <? Z.shiftl 1 6); [|destruct (n <? Z.shiftl 1 14);
    [|destruct (n <? Z.shiftl 1 22)]]; reflexivity.
Qed.

(** What the decoder reads back: the value itself below 64, and the low
    byte of the value in the longer forms. *)
Lemma decode_encode (n : Z) (rest : list Z) :
  0 <= n ->
  bitset_encoded_length (encode n ++ rest) 0
  = Some (if n <? 64 then n else n mod 256)
  /\ bitset_encoded_length_size (encode n ++ rest) 0
     = Some (bitset_encoded_length_required_bytes n).
Proof.
  intros Hn. rewrite encode_form by exact Hn.
  unfold bitset_encoded_length_required_bytes.
  change (Z.shiftl 1 6) with 64; change (Z.shiftl 1 14) with 16384;
    change (Z.shiftl 1 22) with 4194304.
  pose proof (Z.mod_pos_bound n 256 ltac:(lia)) as Hm.
  assert (Hw : wrap32 (0 + uchar (n mod 256)) = n mod 256).
  { rewrite (uchar_small (n mod 256)) by exact Hm.
    unfold wrap32. apply Z.mod_small. change (2 ^ 32) with 4294967296. lia. }
  destruct (Z.ltb_spec n 64); [|destruct (Z.ltb_spec n 16384);
    [|destruct (Z.ltb_spec n 4194304)]].
  - unfold bitset_encoded_length, bitset_encoded_length_size.
    change (load ([n] ++ rest) 0) with (Some n). cbv beta iota.
    rewrite small_prefix_zero by lia. change (0 =? 0) with true. cbv iota.
    rewrite (uchar_small n) by lia. split; reflexivity.
  - split; [|reflexivity].
    unfold bitset_encoded_length.
    change (load ([64; n mod 256] ++ rest) 0) with (Some 64).
    change (load ([64; n mod 256] ++ rest) (0 + 1)) with (Some (n mod 256)).
    change (Z.land 64 192 =? 0) with false.
    change (Z.land 64 192 =? 64) with true. cbv beta iota.
    change (Z.shiftl (Z.land (uchar 64) 63) 8) with 0.
    rewrite Hw. reflexivity.
  - split; [|reflexivity].
    unfold bitset_encoded_length.
    change (load ([128; 0; n mod 256] ++ rest) 0) with (Some 128).
    change (load ([128; 0; n mod 256] ++ rest) (0 + 1)) with (Some 0).
    change (load ([128; 0; n mod 256] ++ rest) (0 + 2)) with (Some (n mod 256)).
    change (Z.land 128 192 =? 0) with false.
    change (Z.land 128 192 =? 64) with false.
    change (Z.land 128 192 =? 128) with true. cbv beta iota.
    change (wrap32 (Z.shiftl (Z.land (uchar 128) 63) 16
                    + Z.shiftl (uchar 0) 8)) with 0.
    rewrite Hw. reflexivity.
  - split; [|reflexivity].
    unfold bitset_encoded_length.
    change (load ([192; 0; 0; n mod 256] ++ rest) 0) with (Some 192).
    change (load ([192; 0; 0; n mod 256] ++ rest) (0 + 1)) with (Some 0).
    change (load ([192; 0; 0; n mod 256] ++ rest) (0 + 2)) with (Some 0).
    change (load ([192; 0; 0; n mod 256] ++ rest) (0 + 3))
      with (Some (n mod 256)).
    change (Z.land 192 192 =? 0) with false.
    change (Z.land 192 192 =? 64) with false.
    change (Z.land 192 192 =? 128) with false. cbv beta iota.
    change (wrap32 (wrap32 (Z.shiftl (Z.land (uchar 192) 63) 24
                            + Z.shiftl (uchar 0) 16)
                    + Z.shiftl (uchar 0) 8)) with 0.
    rewrite Hw. reflexivity.
Qed.

(** The values that survive the encoder: those below 256. *)
Lemma encoded_length_roundtrip_iff (n : Z) :
  0 <= n ->
  bitset_encoded_length (encode n) 0 = Some n <-> n < 256.
Proof.
  intros Hn. destruct (decode_encode n [] Hn) as [D _].
  rewrite app_nil_r in D. rewrite D.
  destruct (Z.ltb_spec n 64).
  - split; [lia | reflexivity].
  - split.
    + intros E. apply some_inj in E.
      pose proof (Z.mod_pos_bound n 256 ltac:(lia)). lia.
    + intros E. rewrite Z.mod_small by lia. reflexivity.
Qed.

(** C9: for [0 <= n <= 2^30 - 1], the size a reader derives from the first
    byte written by [bitset_encoded_length_bytes n] is
    [bitset_encoded_length_required_bytes n], the number of bytes the writer
    reserved, wherever in a buffer the integer is written. *)
Theorem encoded_size_is_required (n : Z) (mem : list Z) (buffer : Z) :
  0 <= n <= 2 ^ 30 - 1 ->
  0 <= buffer ->
  buffer + bitset_encoded_length_required_bytes n
    <= Z.of_nat (List.length mem) ->
  bitset_encoded_length_size (bitset_encoded_length_bytes n mem buffer) buffer
  = Some (bitset_encoded_length_required_bytes n).
Proof.
  intros Hn Hb Hlen. unfold bitset_encoded_length_size.
  rewrite encoded_first_byte by lia. f_equal.
  unfold first_byte, bitset_encoded_length_required_bytes.
  change (Z.shiftl 1 6) with 64; change (Z.shiftl 1 14) with 16384;
    change (Z.shiftl 1 22) with 4194304.
  destruct (Z.ltb_spec n 64); [|destruct (Z.ltb_spec n 16384);
    [|destruct (Z.ltb_spec n 4194304)]]; try reflexivity.
  rewrite small_prefix_zero by lia. reflexivity.
Qed.

Lemma encoded_size_is_required_witness :
  bitset_encoded_length_size
    (bitset_encoded_length_bytes 100000 [7; 7; 7; 7; 7] 1) 1
  = Some 3.
Proof.
  apply (encoded_size_is_required 100000 [7; 7; 7; 7; 7] 1);
    [lia | lia | vm_compute; discriminate].
Defined.

(** C2 at [n = 256]: the encoder picks the two-byte form, the shortest one
    that holds 256, but writes the bytes [0x40; 0x00], which decode to 0. *)
Theorem encoded_length_256_decodes_to_0 :
  bitset_encoded_length_required_bytes 256 = 2
  /\ encode 256 = [0x40; 0x00]
  /\ bitset_encoded_length (encode 256) 0 = Some 0
  /\ bitset_encoded_length (encode 256) 0 <> Some 256.
Proof. vm_compute. repeat split; congruence. Qed.

End VarintFacts.

(** ** The bitset list *)

Module BListFacts.
Import Varint VarintFacts BList.

(** *** The resize helpers

    Up to [2 ^ 31] the capacity asked of the allocator is not 0. *)

Lemma next_pow2_nonzero (n : Z) :
  1 <= n <= 2 ^ 31 -> (Word.BITSET_NEXT_POW2 n =? 0) = false.
Proof.
  intros Hn. destruct (WordFacts.next_pow2_bounds n Hn) as [_ Hb].
  apply Z.eqb_neq. lia.
Qed.

Lemma list_resize_grows (c : bitset_list) (n : Z) :
  1 <= n <= 2 ^ 31 ->
  bitset_list_resize c n
  = Some {| c_buffer := resize_bytes (c_buffer c) n;
            c_length := n;
            c_size := if c_size c <? n
                      then Word.BITSET_NEXT_POW2 n else c_size c;
            c_count := c_count c;
            c_tail_offset := c_tail_offset c;
            c_tail := c_tail c |}.
Proof.
  intros Hn. unfold bitset_list_resize.
  destruct (Z.ltb_spec (c_size c) n); [|reflexivity].
  cbv zeta. rewrite next_pow2_nonzero by lia. reflexivity.
Qed.

Lemma iterator_resize_grows (i : bitset_list_iterator) (n : Z) :
  1 <= n <= 2 ^ 31 ->
  bitset_list_iterator_resize i n
  = Some {| i_bitsets := i_bitsets i;
            i_offsets := i_offsets i;
            i_length := n;
            i_size := if i_size i <? n
                      then Word.BITSET_NEXT_POW2 n else i_size i |}.
Proof.
  intros Hn. unfold bitset_list_iterator_resize.
  destruct (Z.ltb_spec (i_size i) n); [|reflexivity].
  cbv zeta. rewrite next_pow2_nonzero by lia. reflexivity.
Qed.

Lemma skipn_nil_iff (mem : list Z) (p : Z) :
  0 <= p -> skipn (Z.to_nat p) mem = [] <-> Z.of_nat (length mem) <= p.
Proof.
  intros Hp. split; intros H.
  - apply (f_equal (@length Z)) in H. rewrite length_skipn in H. simpl in H. lia.
  - apply skipn_all2. lia.
Qed.

(** What [entries_from] reads for the entry at index [p] of the buffer. *)
Lemma entries_from_step (mem : list Z) (fuel : nat) (prev p : Z)
    (es : list (Z * bitset)) :
  0 <= p < Z.of_nat (length mem) ->
  entries_from (S fuel) prev (skipn (Z.to_nat p) mem) = Some es ->
  exists delta ob count cb ws rest,
    bitset_encoded_length mem p = Some delta
    /\ bitset_encoded_length_size mem p = Some ob
    /\ bitset_encoded_length mem (p + ob) = Some count
    /\ bitset_encoded_length_size mem (p + ob) = Some cb
    /\ load_words mem (p + ob + cb) (Z.to_nat count) = Some ws
    /\ entries_from fuel (wrap32 (prev + delta))
         (skipn (Z.to_nat (p + ob + cb + 4 * count)) mem) = Some rest
    /\ es = (wrap32 (prev + delta), ws) :: rest
    /\ 1 <= ob <= 4 /\ 1 <= cb <= 4 /\ 0 <= count < 2 ^ 30
    /\ p + ob + cb + 4 * count <= Z.of_nat (length mem).
Proof.
  intros Hp H.
  destruct (skipn (Z.to_nat p) mem) as [|x bytes] eqn:Eb.
  { apply skipn_nil_iff in Eb; lia. }
  rewrite <- Eb in H. cbn [entries_from] in H. rewrite Eb in H at 1.
  rewrite encoded_length_skipn, encoded_length_size_skipn in H by lia.
  rewrite Z.add_0_r in H.
  destruct (bitset_encoded_length mem p) as [delta|] eqn:Ed; [|discriminate].
  destruct (bitset_encoded_length_size mem p) as [ob|] eqn:Eob; [|discriminate].
  pose proof (encoded_length_size_range _ _ _ Eob) as Rob.
  rewrite encoded_length_skipn, encoded_length_size_skipn in H by lia.
  destruct (bitset_encoded_length mem (p + ob)) as [count|] eqn:Ec;
    [|discriminate].
  destruct (bitset_encoded_length_size mem (p + ob)) as [cb|] eqn:Ecb;
    [|discriminate].
  pose proof (encoded_length_size_range _ _ _ Ecb) as Rcb.
  pose proof (encoded_length_range _ _ _ Ec) as Rc.
  pose proof (encoded_length_in_buffer _ _ _ _ Ec Ecb) as Bc.
  rewrite load_words_skipn, Z.add_assoc in H by lia.
  destruct (load_words mem (p + ob + cb) (Z.to_nat count)) as [ws|] eqn:Ew;
    [|discriminate].
  rewrite skipn_skipn in H.
  replace (Z.to_nat (ob + cb + 4 * count) + Z.to_nat p)%nat
    with (Z.to_nat (p + ob + cb + 4 * count)) in H by lia.
  destruct (entries_from fuel (wrap32 (prev + delta))
              (skipn (Z.to_nat (p + ob + cb + 4 * count)) mem))
    as [rest|] eqn:Er; [|discriminate].
  apply some_inj in H.
  exists delta, ob, count, cb, ws, rest.
  repeat split; try assumption; try lia; try (symmetry; assumption).
  destruct (load_words_bounds _ _ _ _ Ew) as [_ Hb].
  destruct (Z.eq_dec count 0) as [->|Hc]; [lia|].
  specialize (Hb ltac:(lia)). lia.
Qed.
Section Scan.
Variables (mem : list Z) (start end_ : Z).
Hypothesis mem_small : Z.of_nat (length mem) < 2 ^ 32.

(** One pass of the loop of the iterator over the entry [entries_from]
    reads at the same index. *)
Lemma scan_step_entry (s : scan) (delta ob count cb : Z) :
  bitset_encoded_length mem (s_buffer s) = Some delta ->
  bitset_encoded_length_size mem (s_buffer s) = Some ob ->
  bitset_encoded_length mem (s_buffer s + ob) = Some count ->
  bitset_encoded_length_size mem (s_buffer s + ob) = Some cb ->
  0 <= count < 2 ^ 30 ->
  s_j s = s_buffer s ->
  0 <= 2 * s_b s <= s_buffer s ->
  1 <= ob -> 1 <= cb ->
  s_buffer s + ob + cb + 4 * count <= Z.of_nat (length mem) ->
  let offset := wrap32 (s_offset s + delta) in
  let next := s_buffer s + ob + cb + 4 * count in
  scan_step mem start end_ s
  = Some
      (if in_window start end_ (offset, @nil Z)
       then {| s_j := next; s_b := s_b s + 1; s_offset := offset;
               s_buffer := next;
               s_i := {| i_bitsets :=
                           i_bitsets (s_i s)
                           ++ [{| v_words := s_buffer s + ob + cb;
                                  v_length := count |}];
                         i_offsets := i_offsets (s_i s) ++ [offset];
                         i_length := s_b s + 1;
                         i_size := if i_size (s_i s) <? s_b s + 1
                                   then Word.BITSET_NEXT_POW2 (s_b s + 1)
                                   else i_size (s_i s) |} |}
       else {| s_j := next; s_b := s_b s; s_offset := offset;
               s_buffer := next; s_i := s_i s |}).
Proof.
  intros Ed Eob Ec Ecb Rc Hj Hb Hob Hcb Hn offset next.
  unfold scan_step. rewrite Ed, Eob, Ec, Ecb, Hj.
  change Word.sizeof_bitset_word with 4.
  assert (W1 : wrap32 (count * 4) = 4 * count).
  { unfold wrap32. change (2 ^ 30) with 1073741824 in Rc.
    change (2 ^ 32) with 4294967296. rewrite Z.mod_small; lia. }
  assert (W2 : wrap32 (s_buffer s + ob + cb + 4 * count) = next).
  { unfold wrap32. apply Z.mod_small. subst next. lia. }
  assert (W3 : wrap32 (s_b s + 1) = s_b s + 1).
  { unfold wrap32. apply Z.mod_small. lia. }
  rewrite W1, W2, W3. fold offset.
  rewrite (iterator_resize_grows (s_i s) (s_b s + 1)) by lia.
  unfold in_window, BITSET_LIST_END. cbn [fst].
  destruct ((start <=? offset) && ((end_ =? 0) || (offset <? end_)));
    reflexivity.
Qed.

(** The loop of the iterator against [entries_from]: it ends, the slots
    it writes read back as the entries inside the window, in the order of
    the buffer, and [i_length] counts the slots written once one is. *)
Lemma scan_loop_entries (fuel : nat) :
  forall (s : scan) (es : list (Z * bitset)),
    s_j s = s_buffer s ->
    0 <= 2 * s_b s <= s_buffer s ->
    entries_from fuel (s_offset s) (skipn (Z.to_nat (s_buffer s)) mem)
    = Some es ->
    exists s' vs os,
      scan_loop fuel mem (Z.of_nat (length mem)) start end_ s = Some s'
      /\ i_bitsets (s_i s') = i_bitsets (s_i s) ++ vs
      /\ i_offsets (s_i s') = i_offsets (s_i s) ++ os
      /\ read_views mem os vs = Some (filter (in_window start end_) es)
      /\ i_length (s_i s')
         = match vs with
           | [] => i_length (s_i s)
           | _ :: _ => s_b s + Z.of_nat (length vs)
           end.
Proof.
  induction fuel as [|fuel IH]; intros s es Hj Hb He.
  - destruct (skipn (Z.to_nat (s_buffer s)) mem) eqn:Eb; [|discriminate].
    apply some_inj in He. subst es.
    apply skipn_nil_iff in Eb; [|lia].
    exists s, [], []. cbn [scan_loop].
    destruct (Z.ltb_spec (s_j s) (Z.of_nat (length mem))); [lia|].
    rewrite !app_nil_r. repeat split; reflexivity.
  - destruct (Z_lt_le_dec (s_buffer s) (Z.of_nat (length mem))) as [Hlt|Hge].
    + destruct (entries_from_step mem fuel (s_offset s) (s_buffer s) es
                  ltac:(lia) He)
        as (delta & ob & count & cb & ws & rest & Ed & Eob & Ec & Ecb & Ew
            & Er & -> & Rob & Rcb & Rc & Hn).
      cbn [scan_loop].
      destruct (Z.ltb_spec (s_j s) (Z.of_nat (length mem))); [|lia].
      rewrite (scan_step_entry s delta ob count cb) by (assumption || lia).
      cbn [filter].
      replace (in_window start end_ (wrap32 (s_offset s + delta), ws))
        with (in_window start end_ (wrap32 (s_offset s + delta), @nil Z))
        by reflexivity.
      destruct (in_window start end_ (wrap32 (s_offset s + delta), @nil Z)).
      * match goal with
        | |- context [scan_loop fuel mem _ start end_ ?s1] =>
            destruct (IH s1 rest) as (s' & vs & os & El & Ev & Eo & Erd & Elen)
        end; cbn [s_j s_b s_offset s_buffer s_i i_bitsets i_offsets i_length]
             in *; try reflexivity; try lia; try assumption.
        exists s', ({| v_words := s_buffer s + ob + cb; v_length := count |} :: vs),
          (wrap32 (s_offset s + delta) :: os).
        rewrite El, Ev, Eo, <- !app_assoc. cbn [app read_views v_words v_length].
        rewrite Ew, Erd.
        repeat split; try reflexivity.
        rewrite Elen. destruct vs; cbn [length]; lia.
      * match goal with
        | |- context [scan_loop fuel mem _ start end_ ?s1] =>
            destruct (IH s1 rest) as (s' & vs & os & El & Ev & Eo & Erd & Elen)
        end; cbn [s_j s_b s_offset s_buffer s_i] in *;
             try reflexivity; try lia; try assumption.
        exists s', vs, os. rewrite El. repeat split; assumption.
    + assert (Eb : skipn (Z.to_nat (s_buffer s)) mem = [])
        by (apply skipn_nil_iff; lia).
      rewrite Eb in He. apply some_inj in He. subst es.
      exists s, [], []. cbn [scan_loop].
      destruct (Z.ltb_spec (s_j s) (Z.of_nat (length mem))); [lia|].
      rewrite !app_nil_r. repeat split; reflexivity.
Qed.
End Scan.

(** Every offset [entries_from] reports is an [unsigned] value. *)
Lemma entries_from_offsets (mem : list Z) (fuel : nat) :
  forall (prev p : Z) (es : list (Z * bitset)),
    0 <= p ->
    entries_from fuel prev (skipn (Z.to_nat p) mem) = Some es ->
    Forall (fun e => 0 <= fst e < 2 ^ 32) es.
Proof.
  induction fuel as [|fuel IH]; intros prev p es Hp He.
  - destruct (skipn (Z.to_nat p) mem); [|discriminate].
    apply some_inj in He. subst es. constructor.
  - destruct (Z_lt_le_dec p (Z.of_nat (length mem))) as [Hlt|Hge].
    + destruct (entries_from_step mem fuel prev p es ltac:(lia) He)
        as (delta & ob & count & cb & ws & rest & _ & _ & _ & _ & _
            & Er & -> & Rob & Rcb & Rc & _).
      constructor.
      * cbn [fst]. unfold wrap32. apply Z.mod_pos_bound. reflexivity.
      * eapply IH; [|exact Er]. lia.
    + assert (Eb : skipn (Z.to_nat p) mem = []) by (apply skipn_nil_iff; lia).
      rewrite Eb in He. apply some_inj in He. subst es. constructor.
Qed.

Lemma filter_all {A : Type} (f : A -> bool) (l : list A) :
  Forall (fun x => f x = true) l -> filter f l = l.
Proof.
  induction 1 as [|x l Hx _ IH]; simpl; [reflexivity|].
  rewrite Hx, IH. reflexivity.
Qed.

Lemma read_views_length (mem : list Z) (os : list Z) :
  forall (vs : list bitset_view) (es : list (Z * bitset)),
    read_views mem os vs = Some es -> length vs = length es.
Proof.
  induction os as [|o os IH]; intros [|v vs] es H; simpl in H;
    try discriminate.
  - apply some_inj in H. subst es. reflexivity.
  - destruct (load_words mem (v_words v) (Z.to_nat (v_length v)));
      [|discriminate].
    destruct (read_views mem os vs) as [rest|] eqn:Er; [|discriminate].
    apply some_inj in H. subst es. simpl. f_equal. eapply IH. exact Er.
Qed.

(** The iterator over a list whose fields agree with its buffer: it is
    built, and a traversal meets the entries of the buffer that pass the
    window test, in the order of the buffer. *)
Lemma iterate_entries (c : bitset_list) (start end_ : Z)
    (es : list (Z * bitset)) :
  c_length c = Z.of_nat (length (c_buffer c)) ->
  c_length c < 2 ^ 32 ->
  c_count c = Z.of_nat (length es) ->
  bitset_list_entries c = Some es ->
  iterate c start end_ = Some (filter (in_window start end_) es).
Proof.
  intros Hlen Hsmall Hcount He. unfold iterate, bitset_list_iterator_new.
  unfold bitset_list_entries in He.
  set (i0 := if (start =? BITSET_LIST_START) && (end_ =? BITSET_LIST_END)
             then _ else _).
  set (s0 := {| s_j := 0; s_b := 0; s_offset := 0; s_buffer := 0; s_i := i0 |}).
  destruct (scan_loop_entries (c_buffer c) start end_ ltac:(lia)
              (S (length (c_buffer c))) s0 es)
    as (s' & vs & os & El & Ev & Eo & Erd & Elen);
    try reflexivity; try (cbn; lia); try exact He.
  rewrite Hlen, El. unfold iterator_yield.
  assert (Hb0 : i_bitsets i0 = []) by (subst i0; destruct (_ && _); reflexivity).
  assert (Ho0 : i_offsets i0 = []) by (subst i0; destruct (_ && _); reflexivity).
  cbn [s_i s_b s0] in Ev, Eo, Elen. rewrite Hb0 in Ev. rewrite Ho0 in Eo.
  cbn [app] in Ev, Eo. rewrite Ev, Eo, Elen, Erd.
  pose proof (read_views_length _ _ _ _ Erd) as Hvl.
  destruct vs as [|v vs].
  - replace (i_length i0 =? Z.of_nat (length (@nil bitset_view))) with true;
      [reflexivity|].
    symmetry. apply Z.eqb_eq. cbn [length Z.of_nat].
    subst i0. destruct ((start =? BITSET_LIST_START) && (end_ =? BITSET_LIST_END))
      eqn:Ew; [|reflexivity].
    cbn [i_length]. rewrite Hcount.
    apply andb_prop in Ew. destruct Ew as [Es Ee].
    apply Z.eqb_eq in Es, Ee. subst start end_.
    rewrite filter_all in Hvl.
    + rewrite <- Hvl. reflexivity.
    + pose proof (entries_from_offsets (c_buffer c) _ 0 0 es ltac:(lia) He) as Hf.
      eapply Forall_impl; [|exact Hf]. intros e [H0 _].
      unfold in_window. rewrite Z.eqb_refl, andb_true_r.
      apply Z.leb_le. exact H0.
  - replace (0 + Z.of_nat (length (v :: vs))
             =? Z.of_nat (length (v :: vs))) with true; [reflexivity|].
    symmetry. apply Z.eqb_eq. lia.
Qed.

(** *** Lists grown by pushes *)

Lemma resize_bytes_grow (mem : list Z) (n : Z) :
  Z.of_nat (length mem) <= n ->
  resize_bytes mem n = mem ++ repeat 0 (Z.to_nat n - length mem).
Proof.
  intros H. unfold resize_bytes. rewrite firstn_all2 by lia. reflexivity.
Qed.

Lemma entry_bytes_length (delta : Z) (b : bitset) :
  0 <= delta ->
  Z.of_nat (length (entry_bytes delta b))
  = bitset_encoded_length_required_bytes delta
    + bitset_encoded_length_required_bytes (bitset_words_count b)
    + 4 * bitset_words_count b.
Proof.
  intros Hd. unfold entry_bytes, bitset_words_count.
  rewrite !length_app, words_to_bytes_length, !Nat2Z.inj_add.
  rewrite !encode_length by lia. lia.
Qed.

Lemma required_bytes_range (n : Z) :
  1 <= bitset_encoded_length_required_bytes n <= 4.
Proof.
  unfold bitset_encoded_length_required_bytes.
  repeat match goal with |- context [if ?c then _ else _] => destruct c end;
    lia.
Qed.

(** A push that keeps the buffer within [2 ^ 31] bytes appends the bytes
    of the entry to the buffer. *)
Lemma push_appends (c : bitset_list) (b : bitset) (offset : Z) :
  c_length c = Z.of_nat (length (c_buffer c)) ->
  c_tail_offset c <= offset < 2 ^ 32 ->
  0 <= c_tail_offset c ->
  c_length c
  + Z.of_nat (length (entry_bytes (offset - c_tail_offset c) b)) <= 2 ^ 31 ->
  exists size',
    bitset_list_push c b offset
    = Pushed {| c_buffer :=
                  c_buffer c ++ entry_bytes (offset - c_tail_offset c) b;
                c_length :=
                  c_length c
                  + Z.of_nat
                      (length (entry_bytes (offset - c_tail_offset c) b));
                c_size := size';
                c_count := wrap32 (c_count c + 1);
                c_tail_offset := offset;
                c_tail := At (c_length c) |}.
Proof.
  intros Hlen Hoff Htail Hfit.
  set (delta := offset - c_tail_offset c) in *.
  assert (Hdelta : 0 <= delta < 2 ^ 32) by (subst delta; lia).
  pose proof (entry_bytes_length delta b ltac:(lia)) as He.
  pose proof (required_bytes_range delta) as Rd.
  pose proof (required_bytes_range (bitset_words_count b)) as Rc.
  assert (Hcnt : 0 <= bitset_words_count b < 2 ^ 32)
    by (unfold bitset_words_count in *; lia).
  unfold bitset_list_push.
  destruct (Z.ltb_spec offset (c_tail_offset c)); [lia|].
  fold delta.
  assert (W1 : wrap32 delta = delta) by (apply Z.mod_small; lia).
  assert (W2 : wrap32 (bitset_words_count b) = bitset_words_count b)
    by (apply Z.mod_small; lia).
  rewrite W1, W2. change Word.sizeof_bitset_word with 4.
  set (ob := bitset_encoded_length_required_bytes delta) in *.
  set (lb := bitset_encoded_length_required_bytes (bitset_words_count b)) in *.
  set (n := bitset_words_count b) in *.
  assert (W3 : wrap32 (c_length c + lb + ob + n * 4)
               = c_length c + Z.of_nat (length (entry_bytes delta b))).
  { rewrite He. replace (c_length c + lb + ob + n * 4)
      with (c_length c + (ob + lb + 4 * n)) by lia.
    apply Z.mod_small. lia. }
  rewrite W3, list_resize_grows by lia.
  eexists. f_equal. cbn [c_buffer c_length c_size].
  f_equal.
  rewrite resize_bytes_grow by lia.
  replace (Z.to_nat (c_length c + Z.of_nat (length (entry_bytes delta b)))
           - length (c_buffer c))%nat
    with (Z.to_nat ob + (Z.to_nat lb + length (words_to_bytes b)))%nat
    by (rewrite words_to_bytes_length; unfold n, bitset_words_count in *; lia).
  rewrite !repeat_app.
  (* the relative offset *)
  rewrite Hlen, encoded_length_bytes_app.
  subst ob. rewrite encoded_length_bytes_region.
  (* the word count *)
  replace (Z.of_nat (length (c_buffer c))
           + bitset_encoded_length_required_bytes delta)
    with (Z.of_nat (length (c_buffer c ++ encode delta)))
    by (rewrite length_app, Nat2Z.inj_add, encode_length by lia; reflexivity).
  rewrite (app_assoc (c_buffer c) (encode delta)).
  rewrite encoded_length_bytes_app.
  subst lb. rewrite encoded_length_bytes_region.
  (* the words *)
  replace (Z.of_nat (length (c_buffer c ++ encode delta))
           + bitset_encoded_length_required_bytes n)
    with (Z.of_nat (length ((c_buffer c ++ encode delta) ++ encode n)))
    by (rewrite (length_app _ (encode n)), Nat2Z.inj_add, (encode_length n)
          by lia; reflexivity).
  rewrite (app_assoc (c_buffer c ++ encode delta) (encode n)).
  rewrite store_bytes_over by (apply repeat_length).
  unfold entry_bytes. fold n. unfold n, bitset_words_count.
  destruct b as [|w b'].
  - cbn [length Z.of_nat Z.eqb words_to_bytes flat_map repeat].
    rewrite !app_nil_r, <- app_assoc. reflexivity.
  - replace (Z.of_nat (length (w :: b')) =? 0) with false
      by (symmetry; apply Z.eqb_neq; simpl; lia).
    rewrite <- !app_assoc. reflexivity.
Qed.

Lemma pushed_inj (a b : bitset_list) : Pushed a = Pushed b -> a = b.
Proof. congruence. Qed.

(** The capacity a push leaves. *)
Lemma push_size (c c' : bitset_list) (b : bitset) (offset : Z) :
  bitset_list_push c b offset = Pushed c' ->
  c_size c' = (if c_size c <? c_length c'
               then Word.BITSET_NEXT_POW2 (c_length c') else c_size c)
  /\ 0 <= c_length c' < 2 ^ 32
  /\ (c_size c < c_length c' -> Word.BITSET_NEXT_POW2 (c_length c') <> 0).
Proof.
  unfold bitset_list_push. destruct (offset <? c_tail_offset c);
    [discriminate|].
  match goal with
  | |- context [bitset_list_resize c ?n] =>
      assert (Hn : 0 <= n < 2 ^ 32) by (apply Z.mod_pos_bound; reflexivity);
      set (L := n) in *
  end.
  unfold bitset_list_resize.
  destruct (Z.ltb_spec (c_size c) L) as [Hlt|Hge]; cbv zeta.
  - destruct (Z.eqb_spec (Word.BITSET_NEXT_POW2 L) 0) as [E|E];
      [discriminate|].
    intros H. apply pushed_inj in H. subst c'. cbn [c_size c_length].
    destruct (Z.ltb_spec (c_size c) L); [|lia].
    split; [reflexivity|]. split; [exact Hn | intros _; exact E].
  - intros H. apply pushed_inj in H. subst c'. cbn [c_size c_length].
    destruct (Z.ltb_spec (c_size c) L); [lia|].
    split; [reflexivity|]. split; [exact Hn | intros Hc; lia].
Qed.



Lemma skipn_exact {A : Type} (pre l : list A) (n : nat) :
  n = length pre -> skipn n (pre ++ l) = l.
Proof.
  intros ->. rewrite skipn_app, skipn_all, Nat.sub_diag. reflexivity.
Qed.

Lemma entries_from_unfold (fuel : nat) (prev : Z) (bytes : list Z) :
  bytes <> [] ->
  entries_from (S fuel) prev bytes
  = (delta <- bitset_encoded_length bytes 0 ;;
     offset_bytes <- bitset_encoded_length_size bytes 0 ;;
     count <- bitset_encoded_length bytes offset_bytes ;;
     count_bytes <- bitset_encoded_length_size bytes offset_bytes ;;
     ws <- load_words bytes (offset_bytes + count_bytes) (Z.to_nat count) ;;
     rest <- entries_from fuel (wrap32 (prev + delta))
               (skipn (Z.to_nat (offset_bytes + count_bytes + 4 * count))
                  bytes) ;;
     Some ((wrap32 (prev + delta), ws) :: rest)).
Proof. destruct bytes; [congruence | reflexivity]. Qed.

(** One entry written in full reads back as it was pushed. *)
Lemma entries_from_entry (fuel : nat) (prev delta : Z) (b : bitset)
    (rest : list Z) :
  0 <= delta < 256 ->
  bitset_words_count b < 256 ->
  Forall (fun w => 0 <= w < 2 ^ 32) b ->
  entries_from (S fuel) prev (entry_bytes delta b ++ rest)
  = (tail <- entries_from fuel (wrap32 (prev + delta)) rest ;;
     Some ((wrap32 (prev + delta), b) :: tail)).
Proof.
  intros Hd Hn Hb.
  assert (Hn0 : 0 <= bitset_words_count b) by (unfold bitset_words_count; lia).
  set (n := bitset_words_count b) in *.
  set (ob := bitset_encoded_length_required_bytes delta).
  set (cb := bitset_encoded_length_required_bytes n).
  pose proof (required_bytes_range delta) as Rd. fold ob in Rd.
  pose proof (required_bytes_range n) as Rc. fold cb in Rc.
  pose proof (encode_length delta ltac:(lia)) as Ld. fold ob in Ld.
  pose proof (encode_length n ltac:(lia)) as Ln. fold cb in Ln.
  set (bytes := entry_bytes delta b ++ rest).
  assert (Eb : bytes = encode delta ++ (encode n ++ (words_to_bytes b ++ rest)))
    by (subst bytes; unfold entry_bytes; fold n; rewrite <- !app_assoc;
        reflexivity).
  assert (Hne : bytes <> []).
  { intros H. apply (f_equal (@length Z)) in H. rewrite Eb, length_app in H.
    simpl in H. lia. }
  rewrite entries_from_unfold by exact Hne.
  (* the relative offset *)
  destruct (decode_encode delta (encode n ++ (words_to_bytes b ++ rest))
              ltac:(lia)) as [D1 S1].
  rewrite <- Eb in D1, S1. fold ob in S1. rewrite D1, S1.
  replace (if delta <? 64 then delta else delta mod 256) with delta
    by (destruct (delta <? 64); [reflexivity | rewrite Z.mod_small; lia]).
  (* the word count *)
  assert (Sk1 : skipn (Z.to_nat ob) bytes
                = encode n ++ (words_to_bytes b ++ rest))
    by (rewrite Eb; apply skipn_exact; lia).
  destruct (decode_encode n (words_to_bytes b ++ rest) ltac:(lia)) as [D2 S2].
  rewrite <- Sk1 in D2, S2. fold cb in S2.
  rewrite encoded_length_skipn in D2 by lia.
  rewrite encoded_length_size_skipn in S2 by lia.
  rewrite Z.add_0_r in D2, S2. rewrite D2, S2.
  replace (if n <? 64 then n else n mod 256) with n
    by (destruct (n <? 64); [reflexivity | rewrite Z.mod_small; lia]).
  (* the words *)
  assert (Sk2 : skipn (Z.to_nat (ob + cb)) bytes = words_to_bytes b ++ rest).
  { rewrite Eb, app_assoc. apply skipn_exact. rewrite length_app. lia. }
  pose proof (load_words_of_bytes b rest Hb) as Lw.
  rewrite <- Sk2, load_words_skipn, Z.add_0_r in Lw by lia.
  replace (Z.to_nat n) with (length b) by (unfold n, bitset_words_count; lia).
  rewrite Lw.
  replace (skipn (Z.to_nat (ob + cb + 4 * n)) bytes) with rest; [reflexivity|].
  symmetry. rewrite Eb, !app_assoc. apply skipn_exact.
  rewrite !length_app, words_to_bytes_length.
  unfold n, bitset_words_count in *. lia.
Qed.

Lemma pushes_small_cons (prev offset : Z) (b : bitset)
    (rest : list (Z * bitset)) :
  pushes_small prev ((offset, b) :: rest) = true ->
  prev <= offset /\ offset - prev < 256 /\ offset < 2 ^ 32
  /\ bitset_words_count b < 256
  /\ Forall (fun w => 0 <= w < 2 ^ 32) b
  /\ pushes_small offset rest = true.
Proof.
  cbn [pushes_small]. rewrite !andb_true_iff.
  intros [[[[[H1 H2] H3] H4] H5] H6].
  apply Z.leb_le in H1. apply Z.ltb_lt in H2, H3, H4.
  repeat split; try assumption.
  apply Forall_forall. intros w Hw.
  rewrite forallb_forall in H5. specialize (H5 w Hw).
  apply andb_prop in H5. destruct H5 as [Ha Hb].
  apply Z.leb_le in Ha. apply Z.ltb_lt in Hb. lia.
Qed.

(** Entries written in full read back as they were pushed. *)
Lemma entries_from_serialize (es : list (Z * bitset)) :
  forall (fuel : nat) (prev : Z),
    (length es <= fuel)%nat ->
    0 <= prev ->
    pushes_small prev es = true ->
    entries_from fuel prev (serialize prev es) = Some es.
Proof.
  induction es as [|[offset b] es IH]; intros fuel prev Hf Hp Hs.
  - destruct fuel; reflexivity.
  - destruct fuel as [|fuel]; [simpl in Hf; lia|].
    apply pushes_small_cons in Hs.
    destruct Hs as (H1 & H2 & H3 & H4 & H5 & H6).
    cbn [serialize].
    rewrite entries_from_entry by (assumption || lia).
    replace (prev + (offset - prev)) with offset by lia.
    replace (wrap32 offset) with offset by (symmetry; apply Z.mod_small; lia).
    rewrite IH by (simpl in Hf; assumption || lia). reflexivity.
Qed.

Lemma last_cons_default {A : Type} (l : list A) :
  forall a d : A, last (a :: l) d = last l a.
Proof.
  induction l as [|x l IH]; intros a d; [reflexivity|].
  change (last (a :: x :: l) d) with (last (x :: l) d).
  rewrite !IH. reflexivity.
Qed.

(** The list a run of pushes builds within [2 ^ 31] bytes. *)
Lemma push_all_serialize (es : list (Z * bitset)) :
  forall c : bitset_list,
    c_length c = Z.of_nat (length (c_buffer c)) ->
    0 <= c_tail_offset c ->
    0 <= c_count c ->
    c_count c + Z.of_nat (length es) < 2 ^ 32 ->
    pushes_small (c_tail_offset c) es = true ->
    c_length c
    + Z.of_nat (length (serialize (c_tail_offset c) es)) <= 2 ^ 31 ->
    exists c',
      push_all c es = Some c'
      /\ c_buffer c' = c_buffer c ++ serialize (c_tail_offset c) es
      /\ c_length c' = Z.of_nat (length (c_buffer c'))
      /\ c_count c' = c_count c + Z.of_nat (length es)
      /\ c_tail_offset c' = last (map fst es) (c_tail_offset c)
      /\ c_tail c'
         = match es with
           | [] => c_tail c
           | _ :: _ =>
               At (Z.of_nat
                     (length (c_buffer c
                              ++ serialize (c_tail_offset c) (removelast es))))
           end.
Proof.
  induction es as [|[offset b] es IH]; intros c Hlen Ht Hc Hcn Hs Hfit.
  - exists c. cbn. rewrite app_nil_r. repeat split; try assumption; lia.
  - apply pushes_small_cons in Hs.
    destruct Hs as (H1 & H2 & H3 & H4 & H5 & H6).
    cbn [serialize] in Hfit. rewrite length_app, Nat2Z.inj_add in Hfit.
    destruct (push_appends c b offset Hlen ltac:(lia) Ht ltac:(lia))
      as [size' Hp].
    cbn [push_all]. rewrite Hp.
    match goal with
    | |- context [push_all ?c1 es] =>
        destruct (IH c1) as (c' & E1 & E2 & E3 & E4 & E5 & E6)
    end; cbn [c_buffer c_length c_count c_tail_offset];
      try assumption; try lia.
    + rewrite length_app, Nat2Z.inj_add. lia.
    + unfold wrap32. rewrite Z.mod_small; simpl length in Hcn; lia.
    + unfold wrap32. rewrite Z.mod_small; simpl length in Hcn; lia.
    + exists c'. cbn [c_buffer c_count c_tail_offset c_tail] in E2, E4, E5, E6.
      split; [exact E1|].
      split; [rewrite E2; cbn [serialize]; rewrite <- app_assoc; reflexivity|].
      split; [exact E3|]. split; [|split].
      * rewrite E4. unfold wrap32.
        rewrite Z.mod_small; simpl length; simpl length in Hcn; lia.
      * rewrite E5. cbn [map fst]. symmetry. apply last_cons_default.
      * rewrite E6. destruct es as [|e es'].
        -- cbn [removelast serialize]. rewrite app_nil_r, Hlen. reflexivity.
        -- change (removelast ((offset, b) :: e :: es'))
             with ((offset, b) :: removelast (e :: es')).
           cbn [serialize]. rewrite <- app_assoc. reflexivity.
Qed.

Lemma serialize_length_lower (es : list (Z * bitset)) :
  forall prev : Z, (2 * length es <= length (serialize prev es))%nat.
Proof.
  induction es as [|[offset b] es IH]; intros prev; [simpl; lia|].
  cbn [serialize]. unfold entry_bytes. rewrite !length_app.
  specialize (IH offset).
  pose proof (encode_nonempty (offset - prev)).
  pose proof (encode_nonempty (bitset_words_count b)).
  simpl length. lia.
Qed.

(** *** Rebuilding a list from its buffer *)

(** The two integers at the head of an entry written in full. *)
Lemma entry_decoders (delta : Z) (b : bitset) (rest : list Z) :
  0 <= delta < 256 ->
  bitset_words_count b < 256 ->
  let bytes := entry_bytes delta b ++ rest in
  let ob := bitset_encoded_length_required_bytes delta in
  bitset_encoded_length bytes 0 = Some delta
  /\ bitset_encoded_length_size bytes 0 = Some ob
  /\ bitset_encoded_length bytes ob = Some (bitset_words_count b)
  /\ bitset_encoded_length_size bytes ob
     = Some (bitset_encoded_length_required_bytes (bitset_words_count b)).
Proof.
  intros Hd Hn bytes ob.
  assert (Hn0 : 0 <= bitset_words_count b) by (unfold bitset_words_count; lia).
  set (n := bitset_words_count b) in *.
  pose proof (required_bytes_range delta) as Rd. fold ob in Rd.
  pose proof (encode_length delta ltac:(lia)) as Ld. fold ob in Ld.
  assert (Eb : bytes = encode delta ++ (encode n ++ (words_to_bytes b ++ rest)))
    by (subst bytes; unfold entry_bytes; fold n; rewrite <- !app_assoc;
        reflexivity).
  destruct (decode_encode delta (encode n ++ (words_to_bytes b ++ rest))
              ltac:(lia)) as [D1 S1].
  rewrite <- Eb in D1, S1. fold ob in S1.
  replace (if delta <? 64 then delta else delta mod 256) with delta in D1
    by (destruct (delta <? 64); [reflexivity | rewrite Z.mod_small; lia]).
  assert (Sk1 : skipn (Z.to_nat ob) bytes
                = encode n ++ (words_to_bytes b ++ rest))
    by (rewrite Eb; apply skipn_exact; lia).
  destruct (decode_encode n (words_to_bytes b ++ rest) ltac:(lia)) as [D2 S2].
  rewrite <- Sk1 in D2, S2.
  rewrite encoded_length_skipn in D2 by lia.
  rewrite encoded_length_size_skipn in S2 by lia.
  rewrite Z.add_0_r in D2, S2.
  replace (if n <? 64 then n else n mod 256) with n in D2
    by (destruct (n <? 64); [reflexivity | rewrite Z.mod_small; lia]).
  repeat split; assumption.
Qed.

(** One pass of the replay loop over an entry written in full. *)
Lemma replay_step_entry (pre rest : list Z) (delta : Z) (b : bitset)
    (r : replay) :
  0 <= delta < 256 ->
  bitset_words_count b < 256 ->
  r_buf r = Z.of_nat (length pre) ->
  r_i r = r_buf r ->
  Z.of_nat (length (pre ++ entry_bytes delta b ++ rest)) < 2 ^ 32 ->
  replay_step (pre ++ entry_bytes delta b ++ rest) r
  = Some {| r_i := Z.of_nat (length (pre ++ entry_bytes delta b));
            r_buf := Z.of_nat (length (pre ++ entry_bytes delta b));
            r_count := wrap32 (r_count r + 1);
            r_tail_offset := wrap32 (r_tail_offset r + delta);
            r_tail := At (Z.of_nat (length pre)) |}.
Proof.
  intros Hd Hn Hbuf Hi Hfit.
  destruct (entry_decoders delta b rest Hd Hn) as (D1 & S1 & D2 & S2).
  pose proof (required_bytes_range delta) as Rd.
  pose proof (required_bytes_range (bitset_words_count b)) as Rc.
  pose proof (entry_bytes_length delta b ltac:(lia)) as Le.
  assert (Sk : skipn (Z.to_nat (Z.of_nat (length pre)))
                 (pre ++ entry_bytes delta b ++ rest)
               = entry_bytes delta b ++ rest)
    by (apply skipn_exact; lia).
  rewrite <- Sk in D1, S1, D2, S2.
  rewrite encoded_length_skipn in D1, D2 by lia.
  rewrite encoded_length_size_skipn in S1, S2 by lia.
  rewrite Z.add_0_r in D1, S1.
  unfold replay_step. rewrite Hi, Hbuf, D1, S1, D2, S2.
  change Word.sizeof_bitset_word with 4.
  assert (Hn0 : 0 <= bitset_words_count b) by (unfold bitset_words_count; lia).
  assert (W1 : wrap32 (bitset_words_count b * 4) = 4 * bitset_words_count b).
  { unfold wrap32. change (2 ^ 32) with 4294967296.
    rewrite Z.mod_small; lia. }
  rewrite W1. rewrite !length_app, !Nat2Z.inj_add in Hfit.
  rewrite length_app, Nat2Z.inj_add, Le.
  f_equal. f_equal; try lia.
  unfold wrap32. rewrite Z.mod_small; lia.
Qed.

(** The replay loop over entries written in full, from the end of [pre]:
    it counts them, ends on the last offset and points [tail] at the start
    of the last entry. *)
Lemma replay_loop_serialize (es : list (Z * bitset)) :
  forall (fuel : nat) (pre : list Z) (r : replay),
    (length es <= fuel)%nat ->
    pushes_small (r_tail_offset r) es = true ->
    0 <= r_tail_offset r ->
    r_buf r = Z.of_nat (length pre) ->
    r_i r = r_buf r ->
    0 <= r_count r ->
    r_count r + Z.of_nat (length es) < 2 ^ 32 ->
    Z.of_nat (length (pre ++ serialize (r_tail_offset r) es)) < 2 ^ 32 ->
    exists r',
      replay_loop fuel (pre ++ serialize (r_tail_offset r) es)
        (Z.of_nat (length (pre ++ serialize (r_tail_offset r) es))) r
      = Some r'
      /\ r_count r' = r_count r + Z.of_nat (length es)
      /\ r_tail_offset r' = last (map fst es) (r_tail_offset r)
      /\ r_tail r'
         = match es with
           | [] => r_tail r
           | _ :: _ =>
               At (Z.of_nat
                     (length (pre ++ serialize (r_tail_offset r)
                                       (removelast es))))
           end.
Proof.
  induction es as [|[offset b] es IH];
    intros fuel pre r Hf Hs Ht Hbuf Hi Hc Hcn Hfit.
  - exists r. cbn [serialize] in *. rewrite app_nil_r in *.
    destruct fuel; cbn [replay_loop];
      destruct (Z.ltb_spec (r_i r) (Z.of_nat (length pre))); try lia;
      repeat split; simpl; lia.
  - destruct fuel as [|fuel]; [simpl in Hf; lia|].
    apply pushes_small_cons in Hs.
    destruct Hs as (H1 & H2 & H3 & H4 & H5 & H6).
    set (delta := offset - r_tail_offset r) in *.
    cbn [serialize] in *. fold delta in Hfit |- *.
    pose proof (encode_nonempty delta) as Hne.
    assert (Hlt : r_i r < Z.of_nat (length (pre ++ entry_bytes delta b
                                              ++ serialize offset es))).
    { rewrite !length_app. unfold entry_bytes at 1. rewrite !length_app. lia. }
    cbn [replay_loop].
    destruct (Z.ltb_spec (r_i r)
                (Z.of_nat (length (pre ++ entry_bytes delta b
                                     ++ serialize offset es)))); [|lia].
    rewrite replay_step_entry by (assumption || lia).
    set (r1 := {| r_i := _; r_buf := _; r_count := _; r_tail_offset := _;
                  r_tail := _ |}).
    assert (Eo : wrap32 (r_tail_offset r + delta) = offset).
    { subst delta. replace (r_tail_offset r + (offset - r_tail_offset r))
        with offset by lia. apply Z.mod_small. lia. }
    assert (Ec : wrap32 (r_count r + 1) = r_count r + 1).
    { apply Z.mod_small. simpl length in Hcn. lia. }
    destruct (IH fuel (pre ++ entry_bytes delta b) r1)
      as (r' & El & Ecnt & Eoff & Etail);
      subst r1; cbn [r_i r_buf r_count r_tail_offset r_tail];
      rewrite ?Eo, ?Ec; try assumption; try reflexivity;
      try (simpl length in *; lia).
    + rewrite <- app_assoc. exact Hfit.
    + cbn [r_i r_buf r_count r_tail_offset r_tail] in El, Ecnt, Eoff, Etail.
      rewrite Eo in El, Eoff, Etail. rewrite Ec in El, Ecnt.
      rewrite <- app_assoc in El, Etail.
      exists r'. split; [exact El|]. split; [simpl length; lia|].
      split; [rewrite Eoff; cbn [map fst]; symmetry; apply last_cons_default|].
      rewrite Etail. destruct es as [|e es'].
      * cbn [removelast serialize]. rewrite app_nil_r. reflexivity.
      * change (removelast ((offset, b) :: e :: es'))
          with ((offset, b) :: removelast (e :: es')).
        cbn [serialize]. fold delta. reflexivity.
Qed.

(** Over a list grown from the empty one by pushes the encoder writes in
    full, the buffer holds the entries pushed and the iterator yields those
    inside its window. *)
Lemma pushed_list_iterates (es : list (Z * bitset)) (start end_ : Z) :
  pushes_small 0 es = true ->
  Z.of_nat (length (serialize 0 es)) <= 2 ^ 31 ->
  exists c,
    push_all bitset_list_new es = Some c
    /\ c_buffer c = serialize 0 es
    /\ bitset_list_entries c = Some es
    /\ iterate c start end_ = Some (filter (in_window start end_) es).
Proof.
  intros Hs Hfit.
  pose proof (serialize_length_lower es 0) as Hlow.
  assert (Hcn : 0 + Z.of_nat (length es) < 2 ^ 32) by lia.
  assert (Hfit' : 0 + Z.of_nat (length (serialize 0 es)) <= 2 ^ 31) by lia.
  destruct (push_all_serialize es bitset_list_new eq_refl (Z.le_refl 0)
              (Z.le_refl 0) Hcn Hs Hfit')
    as (c & E1 & E2 & E3 & E4 & E5 & _).
  cbn [bitset_list_new c_buffer c_count c_tail_offset app] in E2, E4.
  exists c.
  assert (He : bitset_list_entries c = Some es).
  { unfold bitset_list_entries. rewrite E2.
    apply entries_from_serialize; [lia|lia|assumption]. }
  repeat split; try assumption.
  apply iterate_entries; try assumption.
  rewrite E3, E2. lia.
Qed.

(** A list grown from the empty one by at least one push that the encoder
    writes in full is rebuilt from its buffer with the count, the tail
    offset, the tail index and the entries it had. *)
Lemma new_buffer_of_pushed_list (es : list (Z * bitset)) :
  es <> [] ->
  pushes_small 0 es = true ->
  Z.of_nat (length (serialize 0 es)) <= 2 ^ 31 ->
  exists c c',
    push_all bitset_list_new es = Some c
    /\ bitset_list_new_buffer (c_length c) (c_buffer c) = Some c'
    /\ c_buffer c' = c_buffer c
    /\ c_length c' = c_length c
    /\ c_count c' = c_count c
    /\ c_tail_offset c' = c_tail_offset c
    /\ c_tail c' = c_tail c
    /\ bitset_list_entries c' = Some es.
Proof.
  intros Hne Hs Hfit.
  pose proof (serialize_length_lower es 0) as Hlow.
  assert (Hcn : 0 + Z.of_nat (length es) < 2 ^ 32) by lia.
  assert (Hfit' : 0 + Z.of_nat (length (serialize 0 es)) <= 2 ^ 31) by lia.
  destruct (push_all_serialize es bitset_list_new eq_refl (Z.le_refl 0)
              (Z.le_refl 0) Hcn Hs Hfit')
    as (c & E1 & E2 & E3 & E4 & E5 & E6).
  cbn [bitset_list_new c_buffer c_count c_tail_offset c_tail app] in *.
  set (r0 := {| r_i := 0; r_buf := 0; r_count := 0; r_tail_offset := 0;
                r_tail := Unassigned |}).
  assert (Hfit32 : Z.of_nat (length (serialize 0 es)) < 2 ^ 32) by lia.
  destruct (replay_loop_serialize es (S (length (serialize 0 es))) [] r0
              ltac:(lia) Hs (Z.le_refl 0) eq_refl eq_refl (Z.le_refl 0)
              Hcn Hfit32)
    as (r' & El & Ecnt & Eoff & Etail).
  cbn [r0 r_count r_tail_offset r_tail app] in *.
  exists c. unfold bitset_list_new_buffer.
  rewrite E3, Nat2Z.id, firstn_all, E2. fold r0. rewrite El.
  eexists. split; [exact E1|]. split; [reflexivity|].
  cbn [c_buffer c_length c_count c_tail_offset c_tail].
  split; [reflexivity|]. split; [reflexivity|].
  split; [lia|]. split; [congruence|]. split.
  - rewrite Etail, E6. destruct es; [congruence | reflexivity].
  - unfold bitset_list_entries. cbn [c_buffer].
    apply entries_from_serialize; [lia | lia | assumption].
Qed.

(** C5: over a list whose fields agree with its buffer, the iterator for
    the window [start, end) is built and a traversal meets exactly the
    entries whose absolute offset [o] has [start <= o] and, unless [end] is
    the open bound, [o < end], in the order of the buffer (the open lower
    bound is 0, below every offset).  In particular, over the list made by
    pushing a bitset at offset 3 and another at offset 10, the window
    [3, 10) yields the first entry only, the window [4, 5) yields none and
    the open window yields both, in order. *)
Theorem iterator_yields_window :
  (forall (c : bitset_list) (start end_ : Z) (es : list (Z * bitset)),
      c_length c = Z.of_nat (length (c_buffer c)) ->
      c_length c < 2 ^ 32 ->
      c_count c = Z.of_nat (length es) ->
      bitset_list_entries c = Some es ->
      iterate c start end_
      = Some (filter (fun e => (start <=? fst e)
                               && ((end_ =? BITSET_LIST_END)
                                   || (fst e <? end_)))
                es))
  /\ (forall b1 b2 : bitset,
        bitset_words_count b1 < 256 ->
        bitset_words_count b2 < 256 ->
        Forall (fun w => 0 <= w < 2 ^ 32) b1 ->
        Forall (fun w => 0 <= w < 2 ^ 32) b2 ->
        exists c,
          push_all bitset_list_new [(3, b1); (10, b2)] = Some c
          /\ iterate c 3 10 = Some [(3, b1)]
          /\ iterate c 4 5 = Some []
          /\ iterate c BITSET_LIST_START BITSET_LIST_END
             = Some [(3, b1); (10, b2)]).
Proof.
  split; [exact iterate_entries|].
  intros b1 b2 H1 H2 W1 W2.
  set (es := [(3, b1); (10, b2)]).
  assert (Hs : pushes_small 0 es = true).
  { cbn [pushes_small es]. rewrite !andb_true_iff.
    repeat split; try reflexivity; try (apply Z.ltb_lt; assumption);
      apply forallb_forall; intros w Hw;
      [rewrite Forall_forall in W1; specialize (W1 w Hw)
      |rewrite Forall_forall in W2; specialize (W2 w Hw)];
      apply andb_true_iff; split; [apply Z.leb_le|apply Z.ltb_lt| |]; lia. }
  assert (Hfit : Z.of_nat (length (serialize 0 es)) <= 2 ^ 31).
  { unfold es. cbn [serialize]. rewrite app_nil_r, length_app, Nat2Z.inj_add.
    rewrite !entry_bytes_length by lia.
    pose proof (required_bytes_range (3 - 0)).
    pose proof (required_bytes_range (10 - 3)).
    pose proof (required_bytes_range (bitset_words_count b1)).
    pose proof (required_bytes_range (bitset_words_count b2)).
    change (2 ^ 32) with 4294967296. lia. }
  destruct (pushed_list_iterates es 3 10 Hs Hfit) as (c & Ep & _ & _ & Ea).
  destruct (pushed_list_iterates es 4 5 Hs Hfit) as (c4 & Ep4 & _ & _ & Eb).
  destruct (pushed_list_iterates es BITSET_LIST_START BITSET_LIST_END Hs Hfit)
    as (c0 & Ep0 & _ & _ & Ec).
  assert (c4 = c) by congruence. assert (c0 = c) by congruence. subst c4 c0.
  exists c. repeat split; assumption.
Qed.

(** The list of the test suite: a bitset holding bit 10 pushed at offset 3,
    then one holding bits 100 and 1000 pushed at offset 10. *)
Lemma iterator_yields_window_witness :
  bitset_list_entries list_3_10 = Some [(3, bits_10); (10, bits_100_1000)]
  /\ iterate list_3_10 3 10 = Some [(3, bits_10)]
  /\ iterate list_3_10 4 5 = Some []
  /\ iterate list_3_10 BITSET_LIST_START BITSET_LIST_END
     = Some [(3, bits_10); (10, bits_100_1000)]
  /\ (exists c,
        push_all bitset_list_new [(3, bits_10); (10, bits_100_1000)] = Some c
        /\ iterate c 3 10 = Some [(3, bits_10)]
        /\ iterate c 4 5 = Some []
        /\ iterate c BITSET_LIST_START BITSET_LIST_END
           = Some [(3, bits_10); (10, bits_100_1000)]).
Proof.
  destruct iterator_yields_window as [Hwindow Hpushed].
  assert (He : bitset_list_entries list_3_10
               = Some [(3, bits_10); (10, bits_100_1000)])
    by (vm_compute; reflexivity).
  split; [exact He|].
  pose (es := [(3, bits_10); (10, bits_100_1000)]).
  split; [exact (Hwindow list_3_10 3 10 es eq_refl eq_refl eq_refl He)|].
  split; [exact (Hwindow list_3_10 4 5 es eq_refl eq_refl eq_refl He)|].
  split; [exact (Hwindow list_3_10 BITSET_LIST_START BITSET_LIST_END es
                   eq_refl eq_refl eq_refl He)|].
  apply Hpushed; try reflexivity;
    repeat constructor; vm_compute; discriminate.
Defined.

(** C10: an [end] of 0 is the open upper bound: over a list whose fields
    agree with its buffer, the iterator made with [end = 0] yields every
    entry whose absolute offset is at least [start], whatever [start] is;
    no call asks for the empty window [start, 0). *)
Theorem iterator_end_zero_unbounded (c : bitset_list) (start : Z)
    (es : list (Z * bitset)) :
  c_length c = Z.of_nat (length (c_buffer c)) ->
  c_length c < 2 ^ 32 ->
  c_count c = Z.of_nat (length es) ->
  bitset_list_entries c = Some es ->
  iterate c start 0 = Some (filter (fun e => start <=? fst e) es).
Proof.
  intros H1 H2 H3 He. rewrite (iterate_entries c start 0 es H1 H2 H3 He).
  f_equal. apply filter_ext. intros e. unfold in_window, BITSET_LIST_END.
  rewrite Z.eqb_refl. apply andb_true_r.
Qed.

Lemma iterator_end_zero_unbounded_witness :
  iterate list_3_10 4 0 = Some [(10, bits_100_1000)]
  /\ iterate list_3_10 11 0 = Some [].
Proof.
  assert (He : bitset_list_entries list_3_10
               = Some [(3, bits_10); (10, bits_100_1000)])
    by (vm_compute; reflexivity).
  split.
  - exact (iterator_end_zero_unbounded list_3_10 4
             [(3, bits_10); (10, bits_100_1000)] eq_refl eq_refl eq_refl He).
  - exact (iterator_end_zero_unbounded list_3_10 11
             [(3, bits_10); (10, bits_100_1000)] eq_refl eq_refl eq_refl He).
Defined.

(** The model against [test_suite_list]. *)

Example test_push_empty_bitset :
  bitset_list_push bitset_list_new [] 0
  = Pushed {| c_buffer := [0; 0]; c_length := 2; c_size := 2; c_count := 1;
              c_tail_offset := 0; c_tail := At 0 |}.
Proof. reflexivity. Qed.

Example test_push_two_bitsets :
  bitset_list_push bitset_list_new bits_10 3
  = Pushed {| c_buffer := 3 :: 1 :: word_to_bytes (Word.BITSET_CREATE_LITERAL 10);
              c_length := 6; c_size := 8; c_count := 1;
              c_tail_offset := 3; c_tail := At 0 |}
  /\ push_all bitset_list_new [(3, bits_10); (10, bits_100_1000)]
     = Some list_3_10
  /\ c_size list_3_10 = 16 /\ c_length list_3_10 = 16
  /\ c_count list_3_10 = 2
  /\ load (c_buffer list_3_10) 6 = Some 7
  /\ load (c_buffer list_3_10) 7 = Some 2
  /\ c_tail_offset list_3_10 = 10 /\ c_tail list_3_10 = At 6.
Proof. vm_compute. repeat split. Qed.

Example test_new_buffer_copy :
  bitset_list_new_buffer (c_length list_3_10) (c_buffer list_3_10)
  = Some list_3_10.
Proof. vm_compute. reflexivity. Qed.

(** *** A list of empty bitsets *)









(** On an empty buffer the loop of [bitset_list_new_buffer] does not run
    and [tail] is never assigned; [bitset_list_new] sets it to [NULL]. *)
Example new_buffer_of_empty :
  bitset_list_new_buffer 0 []
  = Some {| c_buffer := []; c_length := 0; c_size := 0; c_count := 0;
            c_tail_offset := 0; c_tail := Unassigned |}.
Proof. reflexivity. Qed.

(** C3 on the list made by one push of an empty bitset at offset 256: the
    list has tail offset 256, the list rebuilt from its buffer has tail
    offset 0 (count and tail index agree).  The relative offset 256 was
    written as the bytes [0x40; 0x00]. *)
Theorem new_buffer_loses_tail_offset :
  exists c c',
    push_all bitset_list_new [(256, [])] = Some c
    /\ c_buffer c = [0x40; 0x00; 0x00]
    /\ bitset_list_new_buffer (c_length c) (c_buffer c) = Some c'
    /\ c_tail_offset c = 256
    /\ c_tail_offset c' = 0
    /\ c_count c' = c_count c
    /\ c_tail c' = c_tail c
    /\ bitset_list_entries c' = Some [(0, [])].
Proof.
  eexists. eexists.
  split; [vm_compute; reflexivity|].
  split; [reflexivity|].
  split; [vm_compute; reflexivity|].
  repeat split.
Qed.

End BListFacts.

(** ** The bitset engine *)

Module EngineFacts.
Import Word Engine.

(** The model against [test_suite_set], [test_suite_get], [test_suite_min]
    and [test_suite_max]; the fills of the tests are written with the
    macros of the header. *)

Example test_append_after_fill :
  bitset_set_to [BITSET_CREATE_EMPTY_FILL 1] 93 true
  = (false, [BITSET_CREATE_EMPTY_FILL 1; BITSET_CREATE_FILL 2 0]).
Proof. reflexivity. Qed.

Example test_set_in_literal :
  fold_left (fun b o => snd (bitset_set_to b o true)) [32; 38; 45; 55; 61]
    [BITSET_CREATE_EMPTY_FILL 1; 0]
  = [BITSET_CREATE_EMPTY_FILL 1; 0x20810041].
Proof. reflexivity. Qed.

Example test_partition_of_fill_1 :
  bitset_set_to [BITSET_CREATE_FILL 1 0] 32 true
  = (false, [BITSET_CREATE_EMPTY_FILL 1; 0x60000000]).
Proof. reflexivity. Qed.

Example test_partition_of_fill_5 :
  bitset_set_to [BITSET_CREATE_EMPTY_FILL 1] 31 true
  = (false, [BITSET_CREATE_FILL 1 0]).
Proof. reflexivity. Qed.

Example test_partition_of_fill_7 :
  bitset_set_to [BITSET_CREATE_FILL 1 0; BITSET_CREATE_FILL 1 2] 0 true
  = (false, [0x40000000; 0x40000000; BITSET_CREATE_FILL 1 2]).
Proof. reflexivity. Qed.

Example test_partition_of_fill_7b :
  bitset_set_to [BITSET_CREATE_FILL 2 0; BITSET_CREATE_FILL 1 2] 32 true
  = (false, [BITSET_CREATE_FILL 1 1; 0x40000000; BITSET_CREATE_FILL 1 2]).
Proof. reflexivity. Qed.

Example test_partition_of_fill_8 :
  bitset_set_to [BITSET_CREATE_FILL 3 0; BITSET_CREATE_FILL 1 2] 32 true
  = (false, [BITSET_CREATE_FILL 1 1; BITSET_CREATE_FILL 1 0;
             BITSET_CREATE_FILL 1 2]).
Proof. reflexivity. Qed.

Example test_partition_of_fill_10 :
  bitset_set_to [BITSET_CREATE_EMPTY_FILL 1; BITSET_CREATE_FILL 1 0] 1 true
  = (false, [0x20000000; BITSET_CREATE_FILL 1 0]).
Proof. reflexivity. Qed.

Example test_setting_position_bit :
  bitset_set_to [BITSET_CREATE_FILL 1 0] 31 true
  = (true, [BITSET_CREATE_FILL 1 0])
  /\ bitset_set_to [BITSET_CREATE_FILL 1 0] 31 false
     = (true, [BITSET_CREATE_EMPTY_FILL 1]).
Proof. split; reflexivity. Qed.

Example test_get_with_position :
  bitset_get [BITSET_CREATE_FILL 1 0] 0 = false
  /\ bitset_get [BITSET_CREATE_FILL 1 0] 31 = true
  /\ bitset_get [BITSET_CREATE_FILL 1 0] 32 = false.
Proof. repeat split. Qed.

Example test_find_first_and_last_set :
  let b := bitset_new_bits [1000; 300; 299; 298; 290; 240; 12; 3] in
  bitset_min b = 3 /\ bitset_max b = 1000 /\ bitset_count b = 8.
Proof. vm_compute. repeat split. Qed.

Example test_list_bitsets :
  bitset_new_bits [10] = BList.bits_10
  /\ bitset_new_bits [100; 1000] = BList.bits_100_1000.
Proof. split; reflexivity. Qed.

(** C6, as the engine and the header have it: [set(b, 32, true)] on the
    single word [fill L=2 P=0] leaves the single word [fill L=1 P=2], the
    head fill of one clean block that absorbs bit index 1 of block 1; the
    previous value is false and [get(b, 32)] is true afterwards.  The
    literal with only bit index 1 set is [0x20000000]. *)
Theorem set_32_splits_fill_2 :
  bitset_set_to [BITSET_CREATE_EMPTY_FILL 2] 32 true
  = (false, [BITSET_CREATE_FILL 1 1])
  /\ BITSET_GET_LENGTH (BITSET_CREATE_FILL 1 1) = 1
  /\ BITSET_GET_POSITION (BITSET_CREATE_FILL 1 1) = 2
  /\ bitset_get (snd (bitset_set_to [BITSET_CREATE_EMPTY_FILL 2] 32 true)) 32
     = true
  /\ BITSET_CREATE_LITERAL 1 = 0x20000000.
Proof. repeat split. Qed.

(** C6 as stated fails: the stream after the call is not
    [fill L=1 P=0][0x40000000]; the literal [0x40000000] has bit index 0
    set and not bit index 1; and on that stream [get(b, 32)] is false (bit
    31 is the one it holds). *)
Lemma set_32_not_fill_then_literal :
  snd (bitset_set_to [BITSET_CREATE_EMPTY_FILL 2] 32 true)
  <> [BITSET_CREATE_EMPTY_FILL 1; 0x40000000]
  /\ 0x40000000 = BITSET_CREATE_LITERAL 0
  /\ payload_bit 0x40000000 1 = false
  /\ bitset_get [BITSET_CREATE_EMPTY_FILL 1; 0x40000000] 32 = false
  /\ bitset_get [BITSET_CREATE_EMPTY_FILL 1; 0x40000000] 31 = true.
Proof. split; [vm_compute; discriminate | repeat split]. Qed.
End EngineFacts.

(** * Further properties of the code *)

(** ** The word codec *)

Module WordMore.
Import Word WordFacts.

Lemma create_fill_bits (len pos i : Z) :
  0 <= i ->
  Z.testbit (BITSET_CREATE_FILL len pos) i
  = (i <? 32)
    && ((i =? 31) || Z.testbit len i || Z.testbit (pos + 1) (i - 26)).
Proof.
  intros Hi. unfold BITSET_CREATE_FILL, BITSET_SET_POSITION, wrap32.
  change BITSET_FILL_BIT with (2 ^ 31). change BITSET_SPAN_LENGTH with 26.
  rewrite Z.testbit_mod_pow2 by lia.
  rewrite !Z.lor_spec, Z.shiftl_spec, Z.pow2_bits_eqb by lia.
  destruct (Z.ltb_spec i 32); [|reflexivity]. cbn [andb].
  rewrite (Z.eqb_sym 31 i). reflexivity.
Qed.

Lemma get_length_bits (w i : Z) :
  0 <= i -> Z.testbit (BITSET_GET_LENGTH w) i = (i <? 26) && Z.testbit w i.
Proof.
  intros Hi. rewrite get_length_mod. apply Z.testbit_mod_pow2. lia.
Qed.

Lemma get_position_bits (w i : Z) :
  0 <= i ->
  Z.testbit (BITSET_GET_POSITION w) i = (i <? 5) && Z.testbit w (i + 26).
Proof.
  intros Hi. rewrite get_position_div_mod.
  rewrite Z.testbit_mod_pow2, Z.div_pow2_bits by lia. reflexivity.
Qed.

Lemma is_fill_msb (w : Z) : BITSET_IS_FILL_WORD w = Z.testbit w 31.
Proof.
  pose proof (is_literal_msb w) as H.
  unfold BITSET_IS_FILL_WORD, BITSET_IS_LITERAL_WORD in *.
  rewrite H. apply negb_involutive.
Qed.

Lemma word_range_bits (w : Z) :
  (forall i, 32 <= i -> Z.testbit w i = false) -> 0 <= w -> 0 <= w < 2 ^ 32.
Proof.
  intros Hb Hw. split; [exact Hw|].
  destruct (Z.eq_dec w 0) as [->|Hne]; [reflexivity|].
  apply Z.log2_lt_pow2; [lia|].
  destruct (Z_lt_le_dec (Z.log2 w) 32) as [Hl|Hl]; [exact Hl|].
  pose proof (Z.bit_log2 w ltac:(lia)) as Hbit.
  rewrite Hb in Hbit by exact Hl. discriminate.
Qed.

(** The fields of the word [BITSET_CREATE_FILL] builds, whatever its
    arguments: the length field is the 26 low bits of [len], and the
    position field joins [pos + 1] with bits 26..30 of [len]. *)
Lemma create_fill_length (len pos : Z) :
  BITSET_GET_LENGTH (BITSET_CREATE_FILL len pos) = len mod 2 ^ 26.
Proof.
  apply Z.bits_inj'. intros i Hi.
  rewrite get_length_bits, create_fill_bits, Z.testbit_mod_pow2 by lia.
  destruct (Z.ltb_spec i 26); [|reflexivity]. cbn [andb].
  rewrite (Z.testbit_neg_r (pos + 1) (i - 26)) by lia.
  destruct (Z.ltb_spec i 32); [|lia].
  destruct (Z.eqb_spec i 31); [lia|].
  cbn [andb orb]. apply orb_false_r.
Qed.

Lemma create_fill_position (len pos : Z) :
  BITSET_GET_POSITION (BITSET_CREATE_FILL len pos)
  = Z.lor ((pos + 1) mod 2 ^ 5) ((len / 2 ^ 26) mod 2 ^ 5).
Proof.
  apply Z.bits_inj'. intros i Hi.
  rewrite get_position_bits, create_fill_bits, Z.lor_spec by lia.
  rewrite !Z.testbit_mod_pow2, Z.div_pow2_bits by lia.
  replace (i + 26 - 26) with i by lia.
  destruct (Z.ltb_spec i 5); [|reflexivity]. cbn [andb].
  destruct (Z.ltb_spec (i + 26) 32); [|lia].
  destruct (Z.eqb_spec (i + 26) 31); [lia|].
  cbn [andb orb]. apply orb_comm.
Qed.

(** X1: [BITSET_CREATE_FILL len pos] with a length the field can hold
    ([0 <= len <= BITSET_MAX_LENGTH]) and a bit position [0 <= pos <= 30]
    is a 32-bit fill word whose length reads back as [len] and whose
    position field reads back as [pos + 1]; [BITSET_CREATE_EMPTY_FILL len]
    is a fill word of length [len] with position field 0. *)
Theorem create_fill_roundtrip (len pos : Z) :
  0 <= len <= BITSET_MAX_LENGTH ->
  0 <= pos <= 30 ->
  0 <= BITSET_CREATE_FILL len pos < 2 ^ 32
  /\ BITSET_IS_FILL_WORD (BITSET_CREATE_FILL len pos) = true
  /\ BITSET_GET_LENGTH (BITSET_CREATE_FILL len pos) = len
  /\ BITSET_GET_POSITION (BITSET_CREATE_FILL len pos) = pos + 1
  /\ BITSET_IS_FILL_WORD (BITSET_CREATE_EMPTY_FILL len) = true
  /\ BITSET_GET_LENGTH (BITSET_CREATE_EMPTY_FILL len) = len
  /\ BITSET_GET_POSITION (BITSET_CREATE_EMPTY_FILL len) = 0.
Proof.
  change BITSET_MAX_LENGTH with (2 ^ 26 - 1). intros Hl Hp.
  assert (Hlen : len mod 2 ^ 26 = len) by (apply Z.mod_small; lia).
  assert (Hhigh : len / 2 ^ 26 = 0) by (apply Z.div_small; lia).
  assert (Hempty : forall i, 0 <= i ->
            Z.testbit (BITSET_CREATE_EMPTY_FILL len) i
            = (i =? 31) || Z.testbit len i).
  { intros i Hi. unfold BITSET_CREATE_EMPTY_FILL.
    change BITSET_FILL_BIT with (2 ^ 31).
    rewrite Z.lor_spec, Z.pow2_bits_eqb, (Z.eqb_sym 31 i) by lia.
    reflexivity. }
  assert (Hlbits : forall i, 26 <= i -> Z.testbit len i = false).
  { intros i Hi. rewrite <- Hlen, Z.testbit_mod_pow2 by lia.
    destruct (Z.ltb_spec i 26); [lia | reflexivity]. }
  split; [|split; [|split; [|split; [|split; [|split]]]]].
  - unfold BITSET_CREATE_FILL, BITSET_SET_POSITION, wrap32.
    apply Z.mod_pos_bound. reflexivity.
  - rewrite is_fill_msb, create_fill_bits by lia. reflexivity.
  - rewrite create_fill_length. exact Hlen.
  - rewrite create_fill_position, Hhigh, Z.mod_0_l, Z.lor_0_r by lia.
    apply Z.mod_small. change (2 ^ 5) with 32. lia.
  - rewrite is_fill_msb, Hempty by lia. reflexivity.
  - apply Z.bits_inj'. intros i Hi.
    rewrite get_length_bits, Hempty by lia.
    destruct (Z.ltb_spec i 26).
    + destruct (Z.eqb_spec i 31); [lia | reflexivity].
    + rewrite Hlbits by lia. reflexivity.
  - apply Z.bits_inj'. intros i Hi.
    rewrite get_position_bits, Hempty, Z.bits_0 by lia.
    destruct (Z.ltb_spec i 5); [|reflexivity].
    rewrite Hlbits by lia.
    destruct (Z.eqb_spec (i + 26) 31); [lia | reflexivity].
Qed.

Lemma create_fill_roundtrip_witness :
  BITSET_GET_LENGTH (BITSET_CREATE_FILL 28 8) = 28
  /\ BITSET_GET_POSITION (BITSET_CREATE_FILL 28 8) = 9.
Proof.
  destruct (create_fill_roundtrip 28 8) as (_ & _ & Hl & Hp & _);
    [vm_compute; split; discriminate | lia | split; assumption].
Defined.

(** X2: [BITSET_CREATE_FILL] has no guard on its length argument: for any
    [len] and [pos], the length field of the word is [len] cut to 26 bits
    and bits 26..30 of [len] are joined (bitwise or) with [pos + 1] in the
    position field; so a length above [BITSET_MAX_LENGTH] alters the
    position the word carries. *)
Theorem create_fill_length_spills (len pos : Z) :
  BITSET_GET_LENGTH (BITSET_CREATE_FILL len pos) = len mod 2 ^ 26
  /\ BITSET_GET_POSITION (BITSET_CREATE_FILL len pos)
     = Z.lor ((pos + 1) mod 2 ^ 5) ((len / 2 ^ 26) mod 2 ^ 5)
  /\ BITSET_GET_LENGTH (BITSET_CREATE_FILL (BITSET_MAX_LENGTH + 1) pos) = 0
  /\ BITSET_GET_POSITION (BITSET_CREATE_FILL (BITSET_MAX_LENGTH + 1) 1) = 3.
Proof.
  split; [apply create_fill_length|]. split; [apply create_fill_position|].
  split; [rewrite create_fill_length; reflexivity | reflexivity].
Qed.

Lemma unset_position_bits (w i : Z) :
  0 <= i ->
  Z.testbit (BITSET_UNSET_POSITION w) i
  = Z.testbit w i && ((i =? 31) || (i <? 26)).
Proof.
  intros Hi. unfold BITSET_UNSET_POSITION.
  change (wrap32 (Z.lnot BITSET_POSITION_MASK))
    with (Z.lor (2 ^ 31) (Z.ones 26)).
  rewrite Z.land_spec, Z.lor_spec, Z.pow2_bits_eqb, Z.testbit_ones_nonneg
    by lia.
  rewrite (Z.eqb_sym 31 i). reflexivity.
Qed.

Lemma get_position_unset (w : Z) :
  BITSET_GET_POSITION (BITSET_UNSET_POSITION w) = 0.
Proof.
  apply Z.bits_inj'. intros i Hi.
  rewrite get_position_bits, unset_position_bits, Z.bits_0 by lia.
  destruct (Z.ltb_spec i 5); [|reflexivity].
  destruct (Z.eqb_spec (i + 26) 31); [lia|].
  destruct (Z.ltb_spec (i + 26) 26); [lia|].
  cbn [andb orb]. apply andb_false_r.
Qed.

(** X3: [BITSET_UNSET_POSITION] clears the position field of any word and
    nothing else of its 32 bits: the position reads 0, the length and the
    fill bit read as before, and clearing twice is clearing once. *)
Theorem unset_position_clears (w : Z) :
  BITSET_GET_POSITION (BITSET_UNSET_POSITION w) = 0
  /\ BITSET_GET_LENGTH (BITSET_UNSET_POSITION w) = BITSET_GET_LENGTH w
  /\ BITSET_IS_FILL_WORD (BITSET_UNSET_POSITION w) = BITSET_IS_FILL_WORD w
  /\ BITSET_UNSET_POSITION (BITSET_UNSET_POSITION w)
     = BITSET_UNSET_POSITION w.
Proof.
  split; [apply get_position_unset|]. split; [|split].
  - apply Z.bits_inj'. intros i Hi.
    rewrite !get_length_bits, unset_position_bits by lia.
    destruct (Z.ltb_spec i 26); [|reflexivity].
    rewrite orb_true_r, andb_true_r. reflexivity.
  - rewrite !is_fill_msb, unset_position_bits by lia.
    apply andb_true_r.
  - apply Z.bits_inj'. intros i Hi.
    rewrite !unset_position_bits by lia.
    rewrite <- andb_assoc, andb_diag. reflexivity.
Qed.

Lemma set_position_bits (w p i : Z) :
  0 <= i ->
  Z.testbit (BITSET_SET_POSITION w p) i
  = (i <? 32) && (Z.testbit w i || Z.testbit p (i - 26)).
Proof.
  intros Hi. unfold BITSET_SET_POSITION, wrap32.
  change BITSET_SPAN_LENGTH with 26.
  rewrite Z.testbit_mod_pow2, Z.lor_spec, Z.shiftl_spec by lia.
  reflexivity.
Qed.

(** X4: [BITSET_SET_POSITION w p] with [0 <= p < 32] joins [p] (bitwise or)
    with the position field [w] already has and leaves the length and the
    fill bit as they are: on a word whose position field is 0, and on any
    word after [BITSET_UNSET_POSITION], the position reads back as [p]. *)
Theorem set_position_ors (w p : Z) :
  0 <= p < 32 ->
  BITSET_GET_POSITION (BITSET_SET_POSITION w p)
  = Z.lor (BITSET_GET_POSITION w) p
  /\ (BITSET_GET_POSITION w = 0 ->
      BITSET_GET_POSITION (BITSET_SET_POSITION w p) = p)
  /\ BITSET_GET_POSITION (BITSET_SET_POSITION (BITSET_UNSET_POSITION w) p) = p
  /\ BITSET_GET_LENGTH (BITSET_SET_POSITION w p) = BITSET_GET_LENGTH w
  /\ BITSET_IS_FILL_WORD (BITSET_SET_POSITION w p) = BITSET_IS_FILL_WORD w.
Proof.
  intros Hp.
  assert (Hpb : forall i, 5 <= i -> Z.testbit p i = false).
  { intros i Hi. rewrite <- (Z.mod_small p (2 ^ 5)) by (change (2 ^ 5) with 32; lia).
    rewrite Z.testbit_mod_pow2 by lia.
    destruct (Z.ltb_spec i 5); [lia | reflexivity]. }
  assert (Hor : forall v, BITSET_GET_POSITION (BITSET_SET_POSITION v p)
                          = Z.lor (BITSET_GET_POSITION v) p).
  { intros v. apply Z.bits_inj'. intros i Hi.
    rewrite get_position_bits, set_position_bits, Z.lor_spec,
      get_position_bits by lia.
    replace (i + 26 - 26) with i by lia.
    destruct (Z.ltb_spec i 5).
    - destruct (Z.ltb_spec (i + 26) 32); [reflexivity | lia].
    - rewrite Hpb by lia. reflexivity. }
  split; [apply Hor|]. split; [|split; [|split]].
  - intros H0. rewrite Hor, H0. apply Z.lor_0_l.
  - rewrite Hor, get_position_unset. apply Z.lor_0_l.
  - apply Z.bits_inj'. intros i Hi.
    rewrite !get_length_bits, set_position_bits by lia.
    destruct (Z.ltb_spec i 26); [|reflexivity].
    destruct (Z.ltb_spec i 32); [|lia].
    rewrite (Z.testbit_neg_r p (i - 26)) by lia.
    cbn [andb]. apply orb_false_r.
  - rewrite !is_fill_msb, set_position_bits by lia.
    change (31 - 26) with 5. rewrite Hpb by lia. apply orb_false_r.
Qed.

Lemma set_position_ors_witness :
  BITSET_GET_POSITION (BITSET_SET_POSITION 0x84000001 4) = 5
  /\ BITSET_GET_POSITION
       (BITSET_SET_POSITION (BITSET_UNSET_POSITION 0x84000001) 4) = 4.
Proof.
  destruct (set_position_ors 0x84000001 4) as (H1 & _ & H2 & _); [lia|].
  split; [exact H1 | exact H2].
Defined.

Lemma ones_range (n : nat) (w : Z) : 0 <= ones n w <= Z.of_nat n.
Proof.
  induction n as [|n IH]; [cbn; lia|].
  cbn [ones]. destruct (Z.testbit w (Z.of_nat n)); cbn [Z.b2z]; lia.
Qed.

Lemma ones_zero_iff (n : nat) (w : Z) :
  ones n w = 0 <-> forall i, 0 <= i < Z.of_nat n -> Z.testbit w i = false.
Proof.
  induction n as [|n IH]; [split; [intros _ i Hi; lia | reflexivity]|].
  cbn [ones]. pose proof (ones_range n w) as Hr. split.
  - intros H i Hi. destruct (Z.testbit w (Z.of_nat n)) eqn:E;
      cbn [Z.b2z] in H; [lia|].
    destruct (Z.eq_dec i (Z.of_nat n)) as [->|Hne]; [exact E|].
    apply IH; lia.
  - intros H. rewrite (H (Z.of_nat n)) by lia. cbn [Z.b2z].
    rewrite (proj2 IH); [reflexivity|]. intros i Hi. apply H. lia.
Qed.

(** X5: [BITSET_POP_COUNT(c, w)] adds to the counter [c], modulo [2 ^ 32],
    the number of ones among the 31 payload bits of [w], whatever the fill
    bit and the bits above it are; that number is between 0 and 31, and it
    is 0 exactly when the payload [w & P1] is 0. *)
Theorem pop_count_accumulates (c w : Z) :
  fst (BITSET_POP_COUNT c w) = wrap32 (c + ones 31 w)
  /\ 0 <= ones 31 w <= 31
  /\ (ones 31 w = 0 <-> Z.land w P1 = 0).
Proof.
  pose proof (ones_range 31 w) as Hr. change (Z.of_nat 31) with 31 in Hr.
  split; [|split; [exact Hr|]].
  - pose proof (popcount31_ones w) as H.
    unfold popcount31, BITSET_POP_COUNT in H. cbn [fst] in H.
    unfold BITSET_POP_COUNT. cbn [fst].
    set (x := Z.shiftr _ (BITSET_WORD_LENGTH - 8)) in *.
    assert (Hx : 0 <= x < 2 ^ 32).
    { unfold x. change (BITSET_WORD_LENGTH - 8) with 24.
      rewrite Z.shiftr_div_pow2 by lia.
      set (y := wrap32 _).
      assert (0 <= y < 2 ^ 32) by (apply Z.mod_pos_bound; reflexivity).
      split; [apply Z.div_pos; lia|].
      apply Z.div_lt_upper_bound; lia. }
    rewrite Z.add_0_l in H. unfold wrap32 in H.
    rewrite Z.mod_small in H by exact Hx. rewrite H. reflexivity.
  - rewrite ones_zero_iff. change (Z.of_nat 31) with 31.
    change P1 with (Z.ones 31). split.
    + intros H. apply Z.bits_inj'. intros i Hi.
      rewrite Z.land_spec, Z.testbit_ones_nonneg, Z.bits_0 by lia.
      destruct (Z.ltb_spec i 31); [|apply andb_false_r].
      rewrite H by lia. reflexivity.
    + intros H i Hi.
      pose proof (f_equal (fun z => Z.testbit z i) H) as Hb. cbv beta in Hb.
      rewrite Z.land_spec, Z.testbit_ones_nonneg, Z.bits_0 in Hb by lia.
      destruct (Z.ltb_spec i 31); [|lia].
      rewrite andb_true_r in Hb. exact Hb.
Qed.

(** X6: for [1 <= s <= 2 ^ 31], [BITSET_NEXT_POW2(d, s)] sets [d] to
    [2 ^ Z.log2_up s], the least power of two that is at least [s]: it is
    at least [s], below [2 * s], and no power of two that is at least [s]
    is smaller; a power of two is left as it is. *)
Theorem next_pow2_least (s : Z) :
  1 <= s <= 2 ^ 31 ->
  BITSET_NEXT_POW2 s = 2 ^ Z.log2_up s
  /\ s <= BITSET_NEXT_POW2 s < 2 * s
  /\ (forall k, 0 <= k -> s <= 2 ^ k -> BITSET_NEXT_POW2 s <= 2 ^ k)
  /\ (forall k, 0 <= k -> s = 2 ^ k -> BITSET_NEXT_POW2 s = s).
Proof.
  intros Hs. destruct (next_pow2_bounds s Hs) as [Hn Hb].
  split; [exact Hn|]. split; [exact Hb|]. rewrite Hn. split.
  - intros k Hk Hle. apply Z.pow_le_mono_r; [lia|].
    apply Z.log2_up_le_pow2; lia.
  - intros k Hk ->. rewrite Z.log2_up_pow2 by lia. reflexivity.
Qed.

Lemma next_pow2_least_witness :
  BITSET_NEXT_POW2 5 = 2 ^ Z.log2_up 5 /\ 5 <= BITSET_NEXT_POW2 5 < 2 * 5.
Proof.
  destruct (next_pow2_least 5) as (H1 & H2 & _); [lia|].
  split; [exact H1 | exact H2].
Defined.

(** X7: [BITSET_NEXT_POW2(d, s)] works on 32-bit operands and has no guard:
    for [s = 0] and for every [s] above [2 ^ 31] it sets [d] to 0, a value
    below [s]. *)
Theorem next_pow2_wraps_to_zero (s : Z) :
  s = 0 \/ 2 ^ 31 < s < 2 ^ 32 ->
  BITSET_NEXT_POW2 s = 0.
Proof.
  intros [->|Hs]; [reflexivity | apply next_pow2_overflow; exact Hs].
Qed.

Lemma next_pow2_wraps_to_zero_witness :
  BITSET_NEXT_POW2 (2 ^ 31 + 1) = 0.
Proof.
  apply next_pow2_wraps_to_zero. right. lia.
Defined.

(** X8: on a 32-bit operand, [BITSET_IS_POW2] holds for the powers of two
    and for 0, and for nothing else. *)
Theorem is_pow2_iff (w : Z) :
  0 <= w < 2 ^ 32 ->
  BITSET_IS_POW2 w = true <-> w = 0 \/ exists k, 0 <= k < 32 /\ w = 2 ^ k.
Proof.
  intros Hw. unfold BITSET_IS_POW2. rewrite Z.eqb_eq. split.
  - intros H. destruct (Z.eq_dec w 0) as [->|Hne]; [left; reflexivity|].
    right. pose proof (Z.log2_nonneg w) as Hl0.
    assert (Hl : Z.log2 w < 32) by (apply Z.log2_lt_pow2; lia).
    pose proof (Z.log2_spec w ltac:(lia)) as Hspec.
    exists (Z.log2 w). split; [lia|].
    destruct (Z.eq_dec w (2 ^ Z.log2 w)) as [He|Hgt]; [exact He|].
    exfalso.
    assert (Hw1 : wrap32 (w - 1) = w - 1)
      by (unfold wrap32; apply Z.mod_small; lia).
    assert (Hl1 : Z.log2 (w - 1) = Z.log2 w)
      by (apply Z.log2_unique; lia).
    pose proof (f_equal (fun z => Z.testbit z (Z.log2 w)) H) as Hb.
    cbv beta in Hb.
    rewrite Z.land_spec, Z.bits_0, Hw1, Z.bit_log2 in Hb by lia.
    rewrite <- Hl1, Z.bit_log2 in Hb by lia. discriminate.
  - intros [->|(k & Hk & ->)]; [reflexivity|].
    assert (0 < 2 ^ k) by (apply Z.pow_pos_nonneg; lia).
    replace (wrap32 (2 ^ k - 1)) with (Z.ones k)
      by (rewrite Z.ones_equiv; unfold wrap32, Z.pred;
          rewrite Z.mod_small; lia).
    apply Z.bits_inj'. intros i Hi.
    rewrite Z.land_spec, Z.pow2_bits_eqb, Z.testbit_ones_nonneg, Z.bits_0
      by lia.
    destruct (Z.eqb_spec k i); [|reflexivity].
    destruct (Z.ltb_spec i k); [lia | reflexivity].
Qed.

Lemma is_pow2_iff_witness :
  BITSET_IS_POW2 64 = true <-> 64 = 0 \/ exists k, 0 <= k < 32 /\ 64 = 2 ^ k.
Proof.
  apply is_pow2_iff. lia.
Defined.

Lemma testbit_one (i : Z) : 0 <= i -> Z.testbit 1 i = (i =? 0).
Proof.
  intros Hi. change 1 with (2 ^ 0). rewrite Z.pow2_bits_eqb by lia.
  apply Z.eqb_sym.
Qed.

(** X9: an unsigned value that [BITSET_UINT_CAN_TAG] accepts survives the
    trip through a tagged pointer, on 4-byte and on 8-byte pointers:
    [BITSET_UINT_IN_POINTER] gives a word that [BITSET_IS_TAGGED_POINTER]
    recognises and from which [BITSET_UINT_FROM_POINTER] gives the value
    back. *)
Theorem uint_in_pointer_roundtrip (sizeof_ptr u : Z) :
  sizeof_ptr = 4 \/ sizeof_ptr = 8 ->
  0 <= u ->
  BITSET_UINT_CAN_TAG sizeof_ptr u = true ->
  BITSET_IS_TAGGED_POINTER sizeof_ptr (BITSET_UINT_IN_POINTER sizeof_ptr u)
  = true
  /\ BITSET_UINT_FROM_POINTER sizeof_ptr (BITSET_UINT_IN_POINTER sizeof_ptr u)
     = u.
Proof.
  intros Hs Hu Hc.
  assert (Hlt : u < 2 ^ (8 * sizeof_ptr - 1)).
  { unfold BITSET_UINT_CAN_TAG in Hc. apply Z.ltb_lt in Hc.
    destruct Hs as [->| ->]; exact Hc. }
  assert (Hn : 0 < 8 * sizeof_ptr - 1) by lia.
  assert (Hhigh : forall i, 8 * sizeof_ptr - 1 <= i -> Z.testbit u i = false).
  { intros i Hi.
    rewrite <- (Z.mod_small u (2 ^ (8 * sizeof_ptr - 1))) by lia.
    rewrite Z.testbit_mod_pow2 by lia.
    destruct (Z.ltb_spec i (8 * sizeof_ptr - 1)); [lia | reflexivity]. }
  assert (Hbits : forall i, 0 <= i ->
            Z.testbit (wrap_ptr sizeof_ptr
                         (BITSET_UINT_IN_POINTER sizeof_ptr u)) i
            = (i =? 0) || Z.testbit u (i - 1)).
  { intros i Hi. unfold BITSET_UINT_IN_POINTER, wrap_ptr.
    rewrite Z.testbit_mod_pow2, Z.lor_spec, Z.testbit_mod_pow2,
      Z.shiftl_spec, Z.testbit_mod_pow2 by lia.
    rewrite testbit_one by lia.
    destruct (Z.ltb_spec i (8 * sizeof_ptr)).
    - destruct (Z.ltb_spec (i - 1) (8 * sizeof_ptr)); [|lia].
      cbn [andb]. apply orb_comm.
    - destruct (Z.eqb_spec i 0); [lia|].
      rewrite Hhigh by lia. reflexivity. }
  split.
  - unfold BITSET_IS_TAGGED_POINTER.
    destruct (Z.eqb_spec
                (Z.land (wrap_ptr sizeof_ptr
                           (BITSET_UINT_IN_POINTER sizeof_ptr u)) 1) 0)
      as [E|E]; [|reflexivity].
    pose proof (f_equal (fun z => Z.testbit z 0) E) as Hb. cbv beta in Hb.
    rewrite Z.land_spec, Hbits in Hb by lia. discriminate.
  - unfold BITSET_UINT_FROM_POINTER. apply Z.bits_inj'. intros i Hi.
    rewrite Z.shiftr_spec, Hbits by lia.
    destruct (Z.eqb_spec (i + 1) 0); [lia|].
    replace (i + 1 - 1) with i by lia. reflexivity.
Qed.

Lemma uint_in_pointer_roundtrip_witness :
  BITSET_UINT_FROM_POINTER 4 (BITSET_UINT_IN_POINTER 4 12345) = 12345.
Proof.
  destruct (uint_in_pointer_roundtrip 4 12345) as [_ H];
    [left; reflexivity | lia | reflexivity | exact H].
Defined.

(** X10: a value that [BITSET_UINT_CAN_TAG] rejects does not survive the
    trip: for [u] of pointer width with its top bit set,
    [BITSET_UINT_FROM_POINTER] after [BITSET_UINT_IN_POINTER] gives [u]
    without that bit. *)
Theorem uint_in_pointer_drops_top_bit (sizeof_ptr u : Z) :
  sizeof_ptr = 4 \/ sizeof_ptr = 8 ->
  u < 2 ^ (8 * sizeof_ptr) ->
  BITSET_UINT_CAN_TAG sizeof_ptr u = false ->
  BITSET_UINT_FROM_POINTER sizeof_ptr (BITSET_UINT_IN_POINTER sizeof_ptr u)
  = u - 2 ^ (8 * sizeof_ptr - 1).
Proof.
  intros Hs Hu Hc.
  assert (Hge : 2 ^ (8 * sizeof_ptr - 1) <= u).
  { unfold BITSET_UINT_CAN_TAG in Hc. apply Z.ltb_ge in Hc.
    destruct Hs as [->| ->]; exact Hc. }
  assert (Hn : 0 < 8 * sizeof_ptr - 1) by lia.
  assert (Hp : 2 ^ (8 * sizeof_ptr) = 2 * 2 ^ (8 * sizeof_ptr - 1)).
  { rewrite <- Z.pow_succ_r by lia. f_equal. lia. }
  set (h := 2 ^ (8 * sizeof_ptr - 1)) in *.
  rewrite <- (Z.mod_small (u - h) h) by lia.
  replace ((u - h) mod h) with (u mod h)
    by (replace u with (u - h + 1 * h) at 1 by lia;
        apply Z_mod_plus_full).
  unfold h. apply Z.bits_inj'. intros i Hi.
  unfold BITSET_UINT_FROM_POINTER, BITSET_UINT_IN_POINTER, wrap_ptr.
  rewrite Z.shiftr_spec, Z.testbit_mod_pow2, Z.lor_spec, Z.testbit_mod_pow2,
    Z.shiftl_spec, !Z.testbit_mod_pow2 by lia.
  rewrite testbit_one by lia.
  destruct (Z.eqb_spec (i + 1) 0); [lia|].
  replace (i + 1 - 1) with i by lia. rewrite orb_false_r.
  destruct (Z.ltb_spec (i + 1) (8 * sizeof_ptr));
    destruct (Z.ltb_spec i (8 * sizeof_ptr));
    destruct (Z.ltb_spec i (8 * sizeof_ptr - 1)); try lia; reflexivity.
Qed.

Lemma uint_in_pointer_drops_top_bit_witness :
  BITSET_UINT_FROM_POINTER 4 (BITSET_UINT_IN_POINTER 4 (2 ^ 31 + 5)) = 5.
Proof.
  apply (uint_in_pointer_drops_top_bit 4 (2 ^ 31 + 5));
    [left; reflexivity | reflexivity | reflexivity].
Defined.

(** X11: tagging an aligned (even) pointer and untagging it gives the
    pointer back; the tagged pointer is recognised as tagged and the
    aligned one is not; [BITSET_UNTAG_POINTER] clears nothing but the
    lowest bit. *)
Theorem tag_pointer_roundtrip (sizeof_ptr p : Z) :
  0 < sizeof_ptr ->
  0 <= p < 2 ^ (8 * sizeof_ptr) ->
  Z.even p = true ->
  BITSET_UNTAG_POINTER sizeof_ptr (BITSET_TAG_POINTER sizeof_ptr p) = p
  /\ BITSET_TAG_POINTER sizeof_ptr p = p + 1
  /\ BITSET_IS_TAGGED_POINTER sizeof_ptr (BITSET_TAG_POINTER sizeof_ptr p)
     = true
  /\ BITSET_IS_TAGGED_POINTER sizeof_ptr p = false.
Proof.
  intros Hs Hp He.
  assert (Hw : wrap_ptr sizeof_ptr p = p)
    by (unfold wrap_ptr; apply Z.mod_small; exact Hp).
  assert (Hb0 : Z.testbit p 0 = false).
  { rewrite Z.bit0_odd, <- Z.negb_even, He. reflexivity. }
  assert (Hhigh : forall i, 8 * sizeof_ptr <= i -> Z.testbit p i = false).
  { intros i Hi. rewrite <- Hw. unfold wrap_ptr.
    rewrite Z.testbit_mod_pow2 by lia.
    destruct (Z.ltb_spec i (8 * sizeof_ptr)); [lia | reflexivity]. }
  assert (Htag : BITSET_TAG_POINTER sizeof_ptr p = p + 1).
  { unfold BITSET_TAG_POINTER. rewrite Hw.
    assert (Hd : Z.land p 1 = 0); [|rewrite Z.add_nocarry_lxor by exact Hd;
                                     symmetry; apply Z.lxor_lor; exact Hd].
    apply Z.bits_inj'. intros i Hi.
    rewrite Z.land_spec, Z.bits_0, testbit_one by lia.
    destruct (Z.eqb_spec i 0) as [->|]; [rewrite Hb0|];
      [reflexivity | apply andb_false_r]. }
  assert (Hodd : Z.testbit (p + 1) 0 = true).
  { rewrite Z.bit0_odd, Z.odd_add, <- Z.negb_even, He. reflexivity. }
  assert (Hw1 : wrap_ptr sizeof_ptr (p + 1) = p + 1).
  { unfold wrap_ptr. apply Z.mod_small.
    assert (Z.even (2 ^ (8 * sizeof_ptr)) = true).
    { replace (8 * sizeof_ptr) with (Z.succ (8 * sizeof_ptr - 1)) by lia.
      rewrite Z.pow_succ_r by lia. apply Z.even_mul. }
    destruct (Z.eq_dec (p + 1) (2 ^ (8 * sizeof_ptr))) as [E|]; [|lia].
    rewrite <- E, Z.even_add, He in H. discriminate. }
  split; [|split; [exact Htag|split]].
  - unfold BITSET_UNTAG_POINTER. rewrite Htag, Hw1, <- Htag.
    unfold BITSET_TAG_POINTER. rewrite Hw. unfold wrap_ptr.
    apply Z.bits_inj'. intros i Hi.
    rewrite Z.land_spec, Z.testbit_mod_pow2, Z.lor_spec, Z.lnot_spec,
      testbit_one by lia.
    destruct (Z.eqb_spec i 0) as [->|].
    + rewrite Hb0. cbn [negb]. rewrite andb_false_r. apply andb_false_r.
    + destruct (Z.ltb_spec i (8 * sizeof_ptr)).
      * cbn [negb andb]. rewrite orb_false_r. apply andb_true_r.
      * rewrite Hhigh by lia. reflexivity.
  - unfold BITSET_IS_TAGGED_POINTER. rewrite Htag, Hw1.
    destruct (Z.eqb_spec (Z.land (p + 1) 1) 0) as [E|]; [|reflexivity].
    pose proof (f_equal (fun z => Z.testbit z 0) E) as Hb. cbv beta in Hb.
    rewrite Z.land_spec, Hodd in Hb. discriminate.
  - unfold BITSET_IS_TAGGED_POINTER. rewrite Hw.
    replace (Z.land p 1) with 0; [reflexivity|].
    symmetry. apply Z.bits_inj'. intros i Hi.
    rewrite Z.land_spec, Z.bits_0, testbit_one by lia.
    destruct (Z.eqb_spec i 0) as [->|]; [rewrite Hb0|];
      [reflexivity | apply andb_false_r].
Qed.

Lemma tag_pointer_roundtrip_witness :
  BITSET_UNTAG_POINTER 8 (BITSET_TAG_POINTER 8 4096) = 4096.
Proof.
  destruct (tag_pointer_roundtrip 8 4096) as [H _];
    [lia | vm_compute; split; congruence | reflexivity | exact H].
Defined.
(** X12: [BITSET_LOG2], the constant expression that gives
    [BITSET_POSITION_LENGTH] its value, is the binary logarithm rounded
    down for every operand from 1 to 255, which covers the word widths the
    header can be built for; at 256 it is one short. *)
Theorem log2_macro_exact_below_256 (v : Z) :
  1 <= v < 256 ->
  BITSET_LOG2 v = Z.log2 v /\ BITSET_LOG2 256 = Z.log2 256 - 1.
Proof.
  intros Hv. split; [|reflexivity].
  assert (H : ((v =? 0) || (BITSET_LOG2 v =? Z.log2 v)) = true).
  { apply (forall_bytes (fun b => (b =? 0) || (BITSET_LOG2 b =? Z.log2 b)));
      [vm_compute; reflexivity | lia]. }
  destruct (Z.eqb_spec v 0); [lia|]. apply Z.eqb_eq. exact H.
Qed.

Lemma log2_macro_exact_below_256_witness :
  BITSET_LOG2 BITSET_WORD_LENGTH = Z.log2 BITSET_WORD_LENGTH.
Proof.
  destruct (log2_macro_exact_below_256 BITSET_WORD_LENGTH) as [H _];
    [vm_compute; split; congruence | exact H].
Defined.
(** X13: [BITSET_SET_LENGTH word len] with a length the field can hold
    joins [len] (bitwise or) with the length [word] already has and leaves
    the position and the fill bit as they are; on a word whose length
    field is 0 the length reads back as [len]. *)
Theorem set_length_ors (w len : Z) :
  0 <= len <= BITSET_MAX_LENGTH ->
  BITSET_GET_LENGTH (BITSET_SET_LENGTH w len)
  = Z.lor (BITSET_GET_LENGTH w) len
  /\ (BITSET_GET_LENGTH w = 0 ->
      BITSET_GET_LENGTH (BITSET_SET_LENGTH w len) = len)
  /\ BITSET_GET_POSITION (BITSET_SET_LENGTH w len) = BITSET_GET_POSITION w
  /\ BITSET_IS_FILL_WORD (BITSET_SET_LENGTH w len) = BITSET_IS_FILL_WORD w.
Proof.
  change BITSET_MAX_LENGTH with (2 ^ 26 - 1). intros Hl.
  assert (Hlb : forall i, 26 <= i -> Z.testbit len i = false).
  { intros i Hi. rewrite <- (Z.mod_small len (2 ^ 26)) by lia.
    rewrite Z.testbit_mod_pow2 by lia.
    destruct (Z.ltb_spec i 26); [lia | reflexivity]. }
  assert (Hor : BITSET_GET_LENGTH (BITSET_SET_LENGTH w len)
                = Z.lor (BITSET_GET_LENGTH w) len).
  { apply Z.bits_inj'. intros i Hi. unfold BITSET_SET_LENGTH.
    rewrite get_length_bits, !Z.lor_spec, get_length_bits by lia.
    destruct (Z.ltb_spec i 26); [reflexivity|].
    rewrite Hlb by lia. reflexivity. }
  split; [exact Hor|]. split; [intros H0; rewrite Hor, H0; apply Z.lor_0_l|].
  split.
  - apply Z.bits_inj'. intros i Hi. unfold BITSET_SET_LENGTH.
    rewrite !get_position_bits, Z.lor_spec, Hlb by lia.
    rewrite orb_false_r. reflexivity.
  - unfold BITSET_SET_LENGTH. rewrite !is_fill_msb, Z.lor_spec, Hlb by lia.
    apply orb_false_r.
Qed.

Lemma set_length_ors_witness :
  BITSET_GET_LENGTH (BITSET_SET_LENGTH BITSET_FILL_BIT 28) = 28.
Proof.
  destruct (set_length_ors BITSET_FILL_BIT 28) as (_ & H & _);
    [vm_compute; split; congruence | apply H; reflexivity].
Defined.

(** X14: the three fields are all a fill word holds: a 32-bit word with
    the fill bit set is the word [BITSET_SET_POSITION] builds from
    [BITSET_CREATE_EMPTY_FILL] of its length and from its position
    field. *)
Theorem fill_word_from_fields (w : Z) :
  0 <= w < 2 ^ 32 ->
  BITSET_IS_FILL_WORD w = true ->
  BITSET_SET_POSITION (BITSET_CREATE_EMPTY_FILL (BITSET_GET_LENGTH w))
    (BITSET_GET_POSITION w) = w.
Proof.
  intros Hw Hf. rewrite is_fill_msb in Hf.
  assert (Hhigh : forall i, 32 <= i -> Z.testbit w i = false).
  { intros i Hi. rewrite <- (Z.mod_small w (2 ^ 32)) by lia.
    rewrite Z.testbit_mod_pow2 by lia.
    destruct (Z.ltb_spec i 32); [lia | reflexivity]. }
  apply Z.bits_inj'. intros i Hi.
  rewrite set_position_bits by lia. unfold BITSET_CREATE_EMPTY_FILL.
  change BITSET_FILL_BIT with (2 ^ 31).
  rewrite Z.lor_spec, Z.pow2_bits_eqb, get_length_bits by lia.
  destruct (Z.ltb_spec i 32); [|rewrite Hhigh by lia; reflexivity].
  cbn [andb].
  destruct (Z.ltb_spec i 26).
  - rewrite (Z.testbit_neg_r _ (i - 26)) by lia.
    destruct (Z.eqb_spec 31 i); [lia|]. cbn [orb andb]. apply orb_false_r.
  - rewrite get_position_bits by lia. replace (i - 26 + 26) with i by lia.
    destruct (Z.eqb_spec 31 i) as [<-|].
    + rewrite Hf. reflexivity.
    + destruct (Z.ltb_spec (i - 26) 5); [reflexivity | lia].
Qed.

Lemma fill_word_from_fields_witness :
  BITSET_SET_POSITION (BITSET_CREATE_EMPTY_FILL (BITSET_GET_LENGTH 0xA400001C))
    (BITSET_GET_POSITION 0xA400001C) = 0xA400001C.
Proof.
  apply fill_word_from_fields; [vm_compute; split; congruence | reflexivity].
Defined.
End WordMore.

(** ** Length-prefixed integers *)

Module VarintMore.
Import Varint VarintFacts.

Lemma encoded_length_bytes_any_region (n : Z) (region post : list Z) :
  Z.of_nat (length region) = bitset_encoded_length_required_bytes n ->
  bitset_encoded_length_bytes n (region ++ post) 0 = encode n ++ post.
Proof.
  unfold encode, bitset_encoded_length_bytes,
    bitset_encoded_length_required_bytes.
  destruct (n <? Z.shiftl 1 6); [|destruct (n <? Z.shiftl 1 14);
    [|destruct (n <? Z.shiftl 1 22)]]; intros Hl.
  - destruct region as [|a [|b region]]; cbn [length] in Hl; try lia.
    reflexivity.
  - destruct region as [|a [|b [|c region]]]; cbn [length] in Hl; try lia.
    reflexivity.
  - destruct region as [|a [|b [|c [|d region]]]]; cbn [length] in Hl;
      try lia.
    reflexivity.
  - destruct region as [|a [|b [|c [|d [|e region]]]]]; cbn [length] in Hl;
      try lia.
    reflexivity.
Qed.

Lemma required_bytes_bounds (n : Z) :
  1 <= bitset_encoded_length_required_bytes n <= 4.
Proof.
  unfold bitset_encoded_length_required_bytes.
  repeat match goal with |- context [if ?c then _ else _] => destruct c end;
    lia.
Qed.

Lemma encoded_length_bytes_splice (n : Z) (mem : list Z) (p : Z) :
  0 <= p ->
  p + bitset_encoded_length_required_bytes n <= Z.of_nat (length mem) ->
  bitset_encoded_length_bytes n mem p
  = firstn (Z.to_nat p) mem ++ encode n
    ++ skipn (Z.to_nat (p + bitset_encoded_length_required_bytes n)) mem.
Proof.
  intros Hp Hl. pose proof (required_bytes_bounds n) as Hr.
  set (r := bitset_encoded_length_required_bytes n) in *.
  set (pre := firstn (Z.to_nat p) mem).
  set (region := firstn (Z.to_nat r) (skipn (Z.to_nat p) mem)).
  set (post := skipn (Z.to_nat (p + r)) mem).
  assert (Hpre : length pre = Z.to_nat p)
    by (unfold pre; rewrite length_firstn; lia).
  assert (Hreg : length region = Z.to_nat r)
    by (unfold region; rewrite length_firstn, length_skipn; lia).
  assert (Hmem : mem = pre ++ region ++ post).
  { unfold pre, region, post.
    replace (Z.to_nat (p + r)) with (Z.to_nat r + Z.to_nat p)%nat by lia.
    rewrite <- skipn_skipn, !firstn_skipn. reflexivity. }
  rewrite Hmem at 1.
  replace p with (Z.of_nat (length pre)) at 1 by lia.
  rewrite encoded_length_bytes_app.
  rewrite encoded_length_bytes_any_region by (fold r; lia).
  reflexivity.
Qed.

(** X15: [bitset_encoded_length_bytes] writes the bytes of [encode n] at
    [buffer], as many as [bitset_encoded_length_required_bytes] says, and
    leaves every other byte of the buffer as it was. *)
Theorem encoded_length_bytes_frame (n : Z) (mem : list Z) (buffer : Z) :
  0 <= buffer ->
  buffer + bitset_encoded_length_required_bytes n
    <= Z.of_nat (length mem) ->
  bitset_encoded_length_bytes n mem buffer
  = firstn (Z.to_nat buffer) mem ++ encode n
    ++ skipn (Z.to_nat (buffer + bitset_encoded_length_required_bytes n)) mem
  /\ (forall q, q < buffer
                \/ buffer + bitset_encoded_length_required_bytes n <= q ->
       load (bitset_encoded_length_bytes n mem buffer) q = load mem q).
Proof.
  intros Hp Hl. split; [apply encoded_length_bytes_splice; assumption|].
  intros q Hq. unfold bitset_encoded_length_bytes,
    bitset_encoded_length_required_bytes in *.
  destruct (n <? Z.shiftl 1 6); [|destruct (n <? Z.shiftl 1 14);
    [|destruct (n <? Z.shiftl 1 22)]];
    rewrite ?load_store_other by lia; reflexivity.
Qed.

Lemma encoded_length_bytes_frame_witness :
  bitset_encoded_length_bytes 100 [7; 8; 9] 1 = [7; 0x40; 100].
Proof.
  destruct (encoded_length_bytes_frame 100 [7; 8; 9] 1) as [H _];
    [lia | cbn; lia | exact H].
Defined.

(** X16: what [bitset_encoded_length] reads back from the bytes
    [bitset_encoded_length_bytes] wrote at the same place: the value
    itself below 64 and the low byte of the value in the longer forms, so
    the value comes back exactly when it is below 256. *)
Theorem encoded_length_reads_low_byte (n : Z) (mem : list Z) (buffer : Z) :
  0 <= n ->
  0 <= buffer ->
  buffer + bitset_encoded_length_required_bytes n
    <= Z.of_nat (length mem) ->
  bitset_encoded_length (bitset_encoded_length_bytes n mem buffer) buffer
  = Some (if n <? 64 then n else n mod 256)
  /\ (bitset_encoded_length (bitset_encoded_length_bytes n mem buffer) buffer
      = Some n <-> n < 256).
Proof.
  intros Hn Hp Hl. pose proof (required_bytes_bounds n) as Hr.
  assert (H : bitset_encoded_length
                (bitset_encoded_length_bytes n mem buffer) buffer
              = Some (if n <? 64 then n else n mod 256)).
  { rewrite encoded_length_bytes_splice by assumption.
    match goal with
    | |- bitset_encoded_length ?l _ = _ =>
        pose proof (encoded_length_skipn l buffer 0 Hp ltac:(lia)) as E
    end.
    rewrite Z.add_0_r in E. rewrite <- E.
    rewrite skipn_app, skipn_all2 by (rewrite length_firstn; lia).
    rewrite length_firstn.
    replace (Z.to_nat buffer - Nat.min (Z.to_nat buffer) (length mem))%nat
      with 0%nat by lia.
    cbn [skipn app]. apply decode_encode. exact Hn. }
  split; [exact H|]. rewrite H.
  destruct (Z.ltb_spec n 64).
  - split; [lia | reflexivity].
  - pose proof (Z.mod_pos_bound n 256 ltac:(lia)) as Hm. split.
    + intros E. apply some_inj in E. lia.
    + intros Hlt. rewrite Z.mod_small by lia. reflexivity.
Qed.

Lemma encoded_length_reads_low_byte_witness :
  bitset_encoded_length (bitset_encoded_length_bytes 300 [0; 0; 0] 1) 1
  = Some 44.
Proof.
  destruct (encoded_length_reads_low_byte 300 [0; 0; 0] 1) as [H _];
    [lia | lia | cbn; lia | exact H].
Defined.

Lemma land_c0 (b : Z) : Z.land b 0xC0 = 64 * ((b mod 256) / 64).
Proof.
  change 256 with (2 ^ 8). change 64 with (2 ^ 6).
  rewrite <- Z.shiftr_div_pow2, Z.mul_comm, <- Z.shiftl_mul_pow2 by lia.
  apply Z.bits_inj'. intros i Hi.
  rewrite Z.land_spec, Z.shiftl_spec by lia.
  change 192 with (Z.shiftl (Z.ones 2) 6). rewrite Z.shiftl_spec by lia.
  destruct (Z.ltb_spec i 6).
  - rewrite (Z.testbit_neg_r (Z.ones 2)), (Z.testbit_neg_r (Z.shiftr _ _)) by lia.
    apply andb_false_r.
  - rewrite Z.shiftr_spec, Z.testbit_ones_nonneg, Z.testbit_mod_pow2 by lia.
    replace (i - 6 + 6) with i by lia.
    destruct (Z.ltb_spec (i - 6) 2); destruct (Z.ltb_spec i 8); try lia;
      apply andb_comm.
Qed.

Lemma encoded_length_size_closed (mem : list Z) (p : Z) :
  bitset_encoded_length_size mem p
  = match load mem p with Some b0 => Some ((b0 mod 256) / 64 + 1) | None => None end.
Proof.
  unfold bitset_encoded_length_size. destruct (load mem p) as [b0|]; [|reflexivity].
  rewrite land_c0.
  pose proof (Z.mod_pos_bound b0 256 ltac:(lia)) as Hb.
  assert (Hq : 0 <= (b0 mod 256) / 64 < 4).
  { split; [apply Z.div_pos; lia | apply Z.div_lt_upper_bound; lia]. }
  set (q := (b0 mod 256) / 64) in *.
  f_equal.
  destruct (Z.eqb_spec (64 * q) 0); [lia|].
  destruct (Z.eqb_spec (64 * q) 64); [lia|].
  destruct (Z.eqb_spec (64 * q) 128); [lia|]. lia.
Qed.

Lemma low6 (b : Z) : Z.land (uchar b) 0x3F = (b mod 256) mod 64.
Proof. change 0x3F with (Z.ones 6). rewrite Z.land_ones by lia. reflexivity. Qed.

Lemma decode_head (b0 : Z) (rest : list Z) :
  bitset_encoded_length (b0 :: rest) 0
  = if (b0 mod 256) / 64 <=? Z.of_nat (length rest)
    then Some (be_value (firstn (Z.to_nat ((b0 mod 256) / 64 + 1)) (b0 :: rest))
               mod 2 ^ (8 * ((b0 mod 256) / 64 + 1) - 2))
    else None.
Proof.
  unfold bitset_encoded_length.
  change (load (b0 :: rest) 0) with (Some b0). cbv beta iota.
  rewrite land_c0, low6. unfold uchar, wrap32.
  pose proof (Z.mod_pos_bound b0 256 ltac:(lia)) as Hb.
  change (2 ^ 8) with 256.
  remember (b0 mod 256) as u eqn:Eu.
  assert (Hq : 0 <= u / 64 < 4).
  { split; [apply Z.div_pos; lia | apply Z.div_lt_upper_bound; lia]. }
  pose proof (Z.div_mod u 64 ltac:(lia)) as Hdm.
  pose proof (Z.mod_pos_bound u 64 ltac:(lia)) as Hm.
  remember (u / 64) as q eqn:Eq. remember (u mod 64) as r eqn:Er.
  assert (Hcases : q = 0 \/ q = 1 \/ q = 2 \/ q = 3) by lia.
  destruct Hcases as [->|[->|[->| ->]]].
  - change (64 * 0 =? 0) with true. cbv iota.
    destruct (Z.leb_spec 0 (Z.of_nat (length rest))); [|lia].
    f_equal. change (Z.to_nat (0 + 1)) with 1%nat.
    unfold be_value. cbn [firstn fold_left]. rewrite <- Eu.
    change (2 ^ (8 * (0 + 1) - 2)) with 64.
    rewrite Z.mod_small; lia.
  - change (64 * 1 =? 0) with false. change (64 * 1 =? 64) with true.
    cbv iota.
    destruct rest as [|b1 rest].
    { reflexivity. }
    change (load (b0 :: b1 :: rest) (0 + 1)) with (Some b1). cbv iota beta.
    destruct (Z.leb_spec 1 (Z.of_nat (length (b1 :: rest))));
      [|cbn [length] in *; lia].
    f_equal. change (Z.to_nat (1 + 1)) with 2%nat.
    unfold be_value. cbn [firstn fold_left]. rewrite <- Eu.
    pose proof (Z.mod_pos_bound b1 256 ltac:(lia)) as H1.
    remember (b1 mod 256) as u1.
    rewrite Z.shiftl_mul_pow2 by lia.
    change (2 ^ (8 * (1 + 1) - 2)) with 16384.
    change (2 ^ 8) with 256. change (2 ^ 32) with 4294967296.
    rewrite (Z.mod_small _ 4294967296) by lia.
    apply Z.mod_unique with (q := 1); lia.
  - change (64 * 2 =? 0) with false. change (64 * 2 =? 64) with false.
    change (64 * 2 =? 128) with true. cbv iota.
    destruct rest as [|b1 [|b2 rest]]; [reflexivity | reflexivity |].
    change (load (b0 :: b1 :: b2 :: rest) (0 + 1)) with (Some b1).
    change (load (b0 :: b1 :: b2 :: rest) (0 + 2)) with (Some b2).
    cbv iota beta.
    destruct (Z.leb_spec 2 (Z.of_nat (length (b1 :: b2 :: rest))));
      [|cbn [length] in *; lia].
    f_equal. change (Z.to_nat (2 + 1)) with 3%nat.
    unfold be_value. cbn [firstn fold_left]. rewrite <- Eu.
    pose proof (Z.mod_pos_bound b1 256 ltac:(lia)) as H1.
    pose proof (Z.mod_pos_bound b2 256 ltac:(lia)) as H2.
    remember (b1 mod 256) as u1. remember (b2 mod 256) as u2.
    rewrite !Z.shiftl_mul_pow2 by lia.
    change (2 ^ (8 * (2 + 1) - 2)) with 4194304.
    change (2 ^ 8) with 256. change (2 ^ 16) with 65536.
    change (2 ^ 32) with 4294967296.
    rewrite (Z.mod_small (r * 65536 + u1 * 256) 4294967296) by lia.
    rewrite (Z.mod_small _ 4294967296) by lia.
    apply Z.mod_unique with (q := 2); lia.
  - change (64 * 3 =? 0) with false. change (64 * 3 =? 64) with false.
    change (64 * 3 =? 128) with false. cbv iota.
    destruct rest as [|b1 [|b2 [|b3 rest]]];
      [reflexivity | reflexivity | reflexivity |].
    change (load (b0 :: b1 :: b2 :: b3 :: rest) (0 + 1)) with (Some b1).
    change (load (b0 :: b1 :: b2 :: b3 :: rest) (0 + 2)) with (Some b2).
    change (load (b0 :: b1 :: b2 :: b3 :: rest) (0 + 3)) with (Some b3).
    cbv iota beta.
    destruct (Z.leb_spec 3 (Z.of_nat (length (b1 :: b2 :: b3 :: rest))));
      [|cbn [length] in *; lia].
    f_equal. change (Z.to_nat (3 + 1)) with 4%nat.
    unfold be_value. cbn [firstn fold_left]. rewrite <- Eu.
    pose proof (Z.mod_pos_bound b1 256 ltac:(lia)) as H1.
    pose proof (Z.mod_pos_bound b2 256 ltac:(lia)) as H2.
    pose proof (Z.mod_pos_bound b3 256 ltac:(lia)) as H3.
    remember (b1 mod 256) as u1. remember (b2 mod 256) as u2.
    remember (b3 mod 256) as u3.
    rewrite !Z.shiftl_mul_pow2 by lia.
    change (2 ^ (8 * (3 + 1) - 2)) with 1073741824.
    change (2 ^ 8) with 256. change (2 ^ 16) with 65536.
    change (2 ^ 24) with 16777216.
    change (2 ^ 32) with 4294967296.
    rewrite (Z.mod_small (r * 16777216 + u1 * 65536) 4294967296) by lia.
    rewrite (Z.mod_small (r * 16777216 + u1 * 65536 + u2 * 256) 4294967296)
      by lia.
    rewrite (Z.mod_small _ 4294967296) by lia.
    apply Z.mod_unique with (q := 3); lia.
Qed.

Lemma load_head (mem : list Z) (p b : Z) :
  load mem p = Some b ->
  exists rest, skipn (Z.to_nat p) mem = b :: rest
               /\ Z.of_nat (length rest) = Z.of_nat (length mem) - p - 1.
Proof.
  intros H. pose proof (load_Some_bounds _ _ _ H) as Hb.
  unfold load in H. destruct (Z.ltb_spec p 0); [lia|].
  destruct (skipn (Z.to_nat p) mem) as [|x rest] eqn:E.
  - apply (f_equal (@length Z)) in E. rewrite length_skipn in E.
    cbn [length] in E. lia.
  - pose proof (nth_error_skipn (Z.to_nat p) mem 0) as Hn.
    rewrite E, Nat.add_0_r, H in Hn. cbn in Hn.
    apply some_inj in Hn. subst x.
    exists rest. split; [reflexivity|].
    apply (f_equal (@length Z)) in E. rewrite length_skipn in E.
    cbn [length] in E. lia.
Qed.

Lemma load_None_iff (mem : list Z) (p : Z) :
  load mem p = None <-> p < 0 \/ Z.of_nat (length mem) <= p.
Proof.
  unfold load. destruct (Z.ltb_spec p 0).
  - split; [left; assumption | reflexivity].
  - rewrite nth_error_None. lia.
Qed.

(** X17: [bitset_encoded_length_size] reads one byte, the first of the
    header, and returns one more than the two most significant bits of
    that byte taken as unsigned: a size between 1 and 4.  It has a result
    exactly when that byte lies in the buffer. *)
Theorem encoded_length_size_top_bits (mem : list Z) (buffer : Z) :
  bitset_encoded_length_size mem buffer
  = option_map (fun b0 => (b0 mod 256) / 64 + 1) (load mem buffer)
  /\ (forall n, bitset_encoded_length_size mem buffer = Some n ->
       1 <= n <= 4 /\ 0 <= buffer < Z.of_nat (length mem))
  /\ (bitset_encoded_length_size mem buffer = None
      <-> buffer < 0 \/ Z.of_nat (length mem) <= buffer).
Proof.
  rewrite encoded_length_size_closed.
  split; [destruct (load mem buffer); reflexivity|]. split.
  - intros n. destruct (load mem buffer) as [b0|] eqn:E; [|discriminate].
    intros H. apply some_inj in H. subst n.
    pose proof (Z.mod_pos_bound b0 256 ltac:(lia)) as Hb.
    assert (0 <= (b0 mod 256) / 64 < 4).
    { split; [apply Z.div_pos; lia | apply Z.div_lt_upper_bound; lia]. }
    apply load_Some_bounds in E. lia.
  - rewrite <- load_None_iff.
    destruct (load mem buffer); split; congruence.
Qed.

(** X18: the integer [bitset_encoded_length] returns is the one the header
    spells most significant byte first, without the two bits that give the
    size: with [n] the size [bitset_encoded_length_size] reads at
    [buffer], the result is the big-endian value of the [n] bytes from
    [buffer] modulo [2 ^ (8 * n - 2)] when those [n] bytes lie in the
    buffer, and there is no result when they do not. *)
Theorem encoded_length_big_endian (mem : list Z) (buffer n : Z) :
  0 <= buffer ->
  bitset_encoded_length_size mem buffer = Some n ->
  bitset_encoded_length mem buffer
  = if buffer + n <=? Z.of_nat (length mem)
    then Some (be_value (firstn (Z.to_nat n) (skipn (Z.to_nat buffer) mem))
               mod 2 ^ (8 * n - 2))
    else None.
Proof.
  intros Hp Hn. rewrite encoded_length_size_closed in Hn.
  destruct (load mem buffer) as [b0|] eqn:E; [|discriminate].
  apply some_inj in Hn.
  destruct (load_head _ _ _ E) as (rest & Hs & Hl).
  pose proof (encoded_length_skipn mem buffer 0 Hp ltac:(lia)) as Hk.
  rewrite Z.add_0_r in Hk. rewrite <- Hk, Hs, decode_head, Hn.
  replace (buffer + n <=? Z.of_nat (length mem))
    with ((b0 mod 256) / 64 <=? Z.of_nat (length rest)); [reflexivity|].
  destruct (Z.leb_spec ((b0 mod 256) / 64) (Z.of_nat (length rest)));
    destruct (Z.leb_spec (buffer + n) (Z.of_nat (length mem)));
    try reflexivity; lia.
Qed.

Lemma encoded_length_big_endian_witness :
  bitset_encoded_length [9; 0x41; 0x02; 9] 1 = Some 258.
Proof.
  apply (encoded_length_big_endian [9; 0x41; 0x02; 9] 1 2);
    [lia | reflexivity].
Defined.
End VarintMore.

(** ** The list and its iterator *)

Module BListMore.
Import Word Varint BList WordFacts WordMore VarintFacts VarintMore BListFacts.

Lemma resize_bytes_length (mem : list Z) (n : Z) :
  length (resize_bytes mem n) = Z.to_nat n.
Proof.
  unfold resize_bytes. rewrite length_app, length_firstn, repeat_length. lia.
Qed.

(** X19: the two resize helpers return and keep the capacity at or above
    the length asked for, as long as that length is at most [2 ^ 31]: a
    capacity that suffices is kept, one that does not is replaced by the
    least power of two that does.  [bitset_list_resize] keeps the bytes
    already written and leaves [length] bytes in use. *)
Theorem resize_keeps_capacity (c : bitset_list) (i : bitset_list_iterator)
    (length : Z) :
  0 <= length <= 2 ^ 31 ->
  0 <= c_size c ->
  0 <= i_size i ->
  (exists c',
     bitset_list_resize c length = Some c'
     /\ c_length c' = length
     /\ length <= c_size c'
     /\ (length <= c_size c -> c_size c' = c_size c)
     /\ (c_size c < length -> c_size c' = 2 ^ Z.log2_up length)
     /\ Z.of_nat (List.length (c_buffer c')) = length
     /\ (Z.of_nat (List.length (c_buffer c)) <= length ->
         firstn (List.length (c_buffer c)) (c_buffer c') = c_buffer c))
  /\ (exists i',
        bitset_list_iterator_resize i length = Some i'
        /\ i_length i' = length
        /\ length <= i_size i'
        /\ (length <= i_size i -> i_size i' = i_size i)
        /\ (i_size i < length -> i_size i' = 2 ^ Z.log2_up length)
        /\ i_bitsets i' = i_bitsets i
        /\ i_offsets i' = i_offsets i).
Proof.
  intros Hl Hc Hi.
  assert (Hgrow : forall size, 0 <= size ->
            let size' := if size <? length
                         then BITSET_NEXT_POW2 length else size in
            length <= size'
            /\ (length <= size -> size' = size)
            /\ (size < length -> size' = 2 ^ Z.log2_up length)).
  { intros size Hs. cbv zeta. destruct (Z.ltb_spec size length).
    - destruct (next_pow2_bounds length ltac:(lia)) as [Hn Hb].
      split; [lia|]. split; [lia | intros _; exact Hn].
    - split; [lia|]. split; [reflexivity | lia]. }
  assert (Hsome : forall size, 0 <= size ->
            (size <? length) = true ->
            (BITSET_NEXT_POW2 length =? 0) = false).
  { intros size Hs Hlt. apply Z.ltb_lt in Hlt.
    apply next_pow2_nonzero. lia. }
  split.
  - destruct (Hgrow (c_size c) Hc) as (H1 & H2 & H3).
    exists {| c_buffer := resize_bytes (c_buffer c) length;
              c_length := length;
              c_size := if c_size c <? length
                        then BITSET_NEXT_POW2 length else c_size c;
              c_count := c_count c;
              c_tail_offset := c_tail_offset c;
              c_tail := c_tail c |}.
    cbn [c_length c_size c_buffer].
    split.
    { unfold bitset_list_resize.
      destruct (c_size c <? length) eqn:E; [|reflexivity].
      cbv zeta. rewrite (Hsome (c_size c) Hc E). reflexivity. }
    split; [reflexivity|]. split; [exact H1|]. split; [exact H2|].
    split; [exact H3|]. split.
    + rewrite resize_bytes_length. lia.
    + intros Hlen. rewrite resize_bytes_grow by exact Hlen.
      rewrite firstn_app, Nat.sub_diag, firstn_all. cbn [firstn].
      apply app_nil_r.
  - destruct (Hgrow (i_size i) Hi) as (H1 & H2 & H3).
    exists {| i_bitsets := i_bitsets i;
              i_offsets := i_offsets i;
              i_length := length;
              i_size := if i_size i <? length
                        then BITSET_NEXT_POW2 length else i_size i |}.
    cbn [i_length i_size i_bitsets i_offsets].
    split.
    { unfold bitset_list_iterator_resize.
      destruct (i_size i <? length) eqn:E; [|reflexivity].
      cbv zeta. rewrite (Hsome (i_size i) Hi E). reflexivity. }
    split; [reflexivity|]. split; [exact H1|]. split; [exact H2|].
    split; [exact H3|]. split; reflexivity.
Qed.

Lemma resize_keeps_capacity_witness :
  (exists c', bitset_list_resize list_3_10 17 = Some c'
              /\ c_size c' = 2 ^ Z.log2_up 17)
  /\ (exists c', bitset_list_resize list_3_10 16 = Some c'
                 /\ c_size c' = c_size list_3_10).
Proof.
  destruct (resize_keeps_capacity list_3_10
              {| i_bitsets := []; i_offsets := []; i_length := 0;
                 i_size := 0 |} 17)
    as ((c17 & E17 & _ & _ & _ & H17 & _) & _); [lia | cbn; lia | cbn; lia |].
  destruct (resize_keeps_capacity list_3_10
              {| i_bitsets := []; i_offsets := []; i_length := 0;
                 i_size := 0 |} 16)
    as ((c16 & E16 & _ & _ & H16 & _) & _); [lia | cbn; lia | cbn; lia |].
  split.
  - exists c17. split; [exact E17 | apply H17; cbn; lia].
  - exists c16. split; [exact E16 | apply H16; cbn; lia].
Defined.

(** X20: the resize helpers give no list and no iterator for a length
    above [2 ^ 31] that the capacity does not cover: [BITSET_NEXT_POW2]
    wraps to 0, the request to the allocator is for zero bytes, and the
    function does not return with storage for [length] bytes. *)
Theorem resize_above_2_31_no_result (c : bitset_list)
    (i : bitset_list_iterator) (length : Z) :
  2 ^ 31 < length < 2 ^ 32 ->
  (c_size c < length -> bitset_list_resize c length = None)
  /\ (i_size i < length -> bitset_list_iterator_resize i length = None).
Proof.
  intros Hl. pose proof (next_pow2_overflow length Hl) as Hn.
  unfold bitset_list_resize, bitset_list_iterator_resize.
  split; intros Hs.
  - destruct (Z.ltb_spec (c_size c) length); [|lia].
    cbv zeta. rewrite Hn. reflexivity.
  - destruct (Z.ltb_spec (i_size i) length); [|lia].
    cbv zeta. rewrite Hn. reflexivity.
Qed.

Lemma resize_above_2_31_no_result_witness :
  bitset_list_resize list_3_10 (2 ^ 31 + 1) = None.
Proof.
  destruct (resize_above_2_31_no_result list_3_10
              {| i_bitsets := []; i_offsets := []; i_length := 0;
                 i_size := 0 |} (2 ^ 31 + 1)) as [H _]; [lia|].
  apply H. cbn. lia.
Defined.

(** X21: a push that returns only appends: with an offset at or above the
    tail's and below [2 ^ 32], and a buffer that stays within [2 ^ 31]
    bytes, the buffer after [bitset_list_push] is the buffer before it
    followed by the bytes of the one new entry (the relative offset, the
    word count, the words); the length in use is the length of that
    buffer, and the capacity is at least that length. *)
Theorem push_appends_entry (c : bitset_list) (b : bitset) (offset : Z) :
  c_length c = Z.of_nat (length (c_buffer c)) ->
  0 <= c_tail_offset c <= offset ->
  offset < 2 ^ 32 ->
  c_length c
  + Z.of_nat (length (entry_bytes (offset - c_tail_offset c) b)) <= 2 ^ 31 ->
  exists c',
    bitset_list_push c b offset = Pushed c'
    /\ c_buffer c' = c_buffer c ++ entry_bytes (offset - c_tail_offset c) b
    /\ firstn (length (c_buffer c)) (c_buffer c') = c_buffer c
    /\ c_length c' = Z.of_nat (length (c_buffer c'))
    /\ c_length c'
       = c_length c
         + bitset_encoded_length_required_bytes (offset - c_tail_offset c)
         + bitset_encoded_length_required_bytes (bitset_words_count b)
         + 4 * bitset_words_count b
    /\ c_length c' <= c_size c'.
Proof.
  intros Hlen Htail Hoff Hfit.
  destruct (push_appends c b offset Hlen ltac:(lia) ltac:(lia) Hfit)
    as (size' & Hpush).
  eexists. split; [exact Hpush|].
  destruct (push_size _ _ _ _ Hpush) as (Hs & _ & _).
  pose proof (entry_bytes_length (offset - c_tail_offset c) b ltac:(lia))
    as He.
  pose proof (required_bytes_range (offset - c_tail_offset c)) as R1.
  pose proof (required_bytes_range (bitset_words_count b)) as R2.
  assert (Hn0 : 0 <= bitset_words_count b) by (unfold bitset_words_count; lia).
  cbn [c_buffer c_length c_size] in *.
  split; [reflexivity|]. split.
  { rewrite firstn_app, Nat.sub_diag, firstn_all. cbn [firstn].
    apply app_nil_r. }
  split; [rewrite length_app; lia|]. split; [lia|].
  rewrite Hs.
  set (n := c_length c + _) in *.
  destruct (Z.ltb_spec (c_size c) n); [|lia].
  destruct (next_pow2_bounds n ltac:(lia)) as [_ Hb]. lia.
Qed.

Lemma push_appends_entry_witness :
  exists c',
    bitset_list_push list_3_10 bits_10 12 = Pushed c'
    /\ c_buffer c' = c_buffer list_3_10 ++ entry_bytes 2 bits_10
    /\ c_length c' = 22.
Proof.
  destruct (push_appends_entry list_3_10 bits_10 12)
    as (c' & Hp & Hb & _ & _ & Hl & _);
    [reflexivity | cbn; lia | lia | vm_compute; discriminate |].
  exists c'. split; [exact Hp|]. split; [exact Hb | exact Hl].
Defined.

Lemma replay_step_decoded (mem : list Z) (r : replay)
    (delta ob count cb : Z) :
  Z.of_nat (length mem) < 2 ^ 32 ->
  bitset_encoded_length mem (r_buf r) = Some delta ->
  bitset_encoded_length_size mem (r_buf r) = Some ob ->
  bitset_encoded_length mem (r_buf r + ob) = Some count ->
  bitset_encoded_length_size mem (r_buf r + ob) = Some cb ->
  0 <= count < 2 ^ 30 ->
  r_i r = r_buf r ->
  0 <= r_count r <= r_buf r ->
  1 <= ob -> 1 <= cb ->
  r_buf r + ob + cb + 4 * count <= Z.of_nat (length mem) ->
  replay_step mem r
  = Some {| r_i := r_buf r + ob + cb + 4 * count;
            r_buf := r_buf r + ob + cb + 4 * count;
            r_count := r_count r + 1;
            r_tail_offset := wrap32 (r_tail_offset r + delta);
            r_tail := At (r_buf r) |}.
Proof.
  intros Hsmall Ed Eob Ec Ecb Rc Hi Hcnt Hob Hcb Hn.
  unfold replay_step. rewrite Ed, Eob, Ec, Ecb, Hi.
  change Word.sizeof_bitset_word with 4.
  assert (W1 : wrap32 (count * 4) = 4 * count).
  { unfold wrap32. change (2 ^ 30) with 1073741824 in Rc.
    change (2 ^ 32) with 4294967296. rewrite Z.mod_small; lia. }
  assert (W2 : wrap32 (r_buf r + ob + cb + 4 * count)
               = r_buf r + ob + cb + 4 * count).
  { unfold wrap32. apply Z.mod_small. lia. }
  assert (W3 : wrap32 (r_count r + 1) = r_count r + 1).
  { unfold wrap32. apply Z.mod_small. lia. }
  rewrite W1, W2, W3. reflexivity.
Qed.

Lemma replay_loop_entries (mem : list Z) (fuel : nat) :
  Z.of_nat (length mem) < 2 ^ 32 ->
  forall (r : replay) (es : list (Z * bitset)),
    r_i r = r_buf r ->
    0 <= r_count r <= r_buf r ->
    entries_from fuel (r_tail_offset r) (skipn (Z.to_nat (r_buf r)) mem)
    = Some es ->
    exists r',
      replay_loop fuel mem (Z.of_nat (length mem)) r = Some r'
      /\ r_count r' = r_count r + Z.of_nat (length es)
      /\ r_tail_offset r' = last (map fst es) (r_tail_offset r)
      /\ match es with
         | [] => r_tail r' = r_tail r
         | _ :: _ => exists p, r_tail r' = At p
                               /\ r_buf r <= p < Z.of_nat (length mem)
         end.
Proof.
  intros Hsmall.
  induction fuel as [|fuel IH]; intros r es Hi Hcnt He.
  - destruct (skipn (Z.to_nat (r_buf r)) mem) eqn:Eb; [|discriminate].
    apply some_inj in He. subst es.
    apply skipn_nil_iff in Eb; [|lia].
    exists r. cbn [replay_loop length map last].
    destruct (Z.ltb_spec (r_i r) (Z.of_nat (length mem))); [lia|].
    repeat split; try reflexivity; lia.
  - destruct (Z_lt_le_dec (r_buf r) (Z.of_nat (length mem))) as [Hlt|Hge].
    + destruct (entries_from_step mem fuel (r_tail_offset r) (r_buf r) es
                  ltac:(lia) He)
        as (delta & ob & count & cb & ws & rest & Ed & Eob & Ec & Ecb & Ew
            & Er & -> & Rob & Rcb & Rc & Hn).
      cbn [replay_loop].
      destruct (Z.ltb_spec (r_i r) (Z.of_nat (length mem))); [|lia].
      rewrite (replay_step_decoded mem r delta ob count cb)
        by (assumption || lia).
      match goal with
      | |- context [replay_loop fuel mem _ ?r1] =>
          destruct (IH r1 rest) as (r' & El & Ecount & Etail & Ep)
      end; cbn [r_i r_buf r_count r_tail_offset r_tail] in *;
        try reflexivity; try lia; try assumption.
      exists r'. split; [exact El|].
      split; [rewrite Ecount; cbn [length]; lia|].
      split.
      * rewrite Etail. cbn [map fst]. rewrite last_cons_default.
        reflexivity.
      * destruct rest as [|e rest].
        -- exists (r_buf r). split; [exact Ep | lia].
        -- destruct Ep as (p & Ep & Hp). exists p. split; [exact Ep | lia].
    + assert (Eb : skipn (Z.to_nat (r_buf r)) mem = [])
        by (apply skipn_nil_iff; lia).
      rewrite Eb in He. apply some_inj in He. subst es.
      exists r. cbn [replay_loop length map last].
      destruct (Z.ltb_spec (r_i r) (Z.of_nat (length mem))); [lia|].
      repeat split; try reflexivity; lia.
Qed.

Lemma iterate_ext (c c' : bitset_list) (start end_ : Z) :
  c_buffer c' = c_buffer c ->
  c_length c' = c_length c ->
  c_count c' = c_count c ->
  iterate c' start end_ = iterate c start end_.
Proof.
  intros Hb Hl Hc.
  unfold iterate, bitset_list_iterator_new, iterator_yield.
  rewrite Hb, Hl, Hc. reflexivity.
Qed.

(** X22: a list grown from the empty one, within [2 ^ 31] bytes, by
    pushes the encoder writes in full (offsets that do not go down,
    relative offsets and word counts below 256) holds exactly those
    entries: its buffer is their
    serialisation, its count is their number, its tail offset is the last
    offset pushed, the entries read from its buffer are the ones pushed,
    and an iterator over the whole list meets them all, in order. *)
Theorem pushes_read_back (es : list (Z * bitset)) :
  pushes_small 0 es = true ->
  Z.of_nat (length (serialize 0 es)) <= 2 ^ 31 ->
  exists c,
    push_all bitset_list_new es = Some c
    /\ c_buffer c = serialize 0 es
    /\ c_length c = Z.of_nat (length (serialize 0 es))
    /\ c_count c = Z.of_nat (length es)
    /\ c_tail_offset c = last (map fst es) 0
    /\ bitset_list_entries c = Some es
    /\ iterate c BITSET_LIST_START BITSET_LIST_END = Some es.
Proof.
  intros Hs Hl.
  pose proof (serialize_length_lower es 0) as Hlow.
  destruct (push_all_serialize es bitset_list_new) as
    (c & Hp & Hb & Hlen & Hc & Ht & _);
    cbn [bitset_list_new c_length c_buffer c_tail_offset c_count length app];
    try reflexivity; try lia; try assumption.
  cbn [bitset_list_new c_buffer c_count c_tail_offset app] in *.
  destruct (pushed_list_iterates es BITSET_LIST_START BITSET_LIST_END Hs Hl)
    as (c1 & Hp1 & _ & He & Hi).
  rewrite Hp in Hp1. apply some_inj in Hp1. subst c1.
  exists c. split; [exact Hp|]. split; [exact Hb|].
  split; [rewrite Hlen, Hb; reflexivity|].
  split; [rewrite Hc; lia|]. split; [exact Ht|]. split; [exact He|].
  rewrite Hi. f_equal. apply filter_all.
  unfold bitset_list_entries in He.
  pose proof (entries_from_offsets (c_buffer c) _ 0 0 es ltac:(lia) He) as Ho.
  eapply Forall_impl; [|exact Ho].
  intros e [He0 _]. unfold in_window, BITSET_LIST_START, BITSET_LIST_END.
  destruct (Z.leb_spec 0 (fst e)); [reflexivity | lia].
Qed.

Lemma pushes_read_back_witness :
  exists c,
    push_all bitset_list_new [(3, bits_10); (10, bits_100_1000)] = Some c
    /\ c_count c = 2
    /\ bitset_list_entries c = Some [(3, bits_10); (10, bits_100_1000)].
Proof.
  destruct (pushes_read_back [(3, bits_10); (10, bits_100_1000)])
    as (c & Hp & _ & _ & Hc & _ & He & _);
    [reflexivity | vm_compute; discriminate |].
  exists c. split; [exact Hp|]. split; [exact Hc | exact He].
Defined.

(** X23: [bitset_list_new_buffer] gives back a list built by such pushes,
    within [2 ^ 31] bytes, from its bytes: the same buffer, length, count,
    tail offset and tail pointer, a capacity equal to the length, and the
    same entries under every iterator window. *)
Theorem new_buffer_restores_pushes (es : list (Z * bitset)) :
  es <> [] ->
  pushes_small 0 es = true ->
  Z.of_nat (length (serialize 0 es)) <= 2 ^ 31 ->
  exists c c',
    push_all bitset_list_new es = Some c
    /\ bitset_list_new_buffer (c_length c) (c_buffer c) = Some c'
    /\ c_buffer c' = c_buffer c
    /\ c_length c' = c_length c
    /\ c_size c' = c_length c
    /\ c_count c' = c_count c
    /\ c_tail_offset c' = c_tail_offset c
    /\ c_tail c' = c_tail c
    /\ (forall start end_, iterate c' start end_ = iterate c start end_).
Proof.
  intros Hne Hs Hl.
  destruct (new_buffer_of_pushed_list es Hne Hs Hl)
    as (c & c' & Hp & Hn & Hb & Hlen & Hc & Ht & Htl & _).
  exists c, c'. split; [exact Hp|]. split; [exact Hn|].
  split; [exact Hb|]. split; [exact Hlen|]. split.
  { unfold bitset_list_new_buffer in Hn.
    destruct (replay_loop _ _ _ _) as [r|]; [|discriminate].
    apply some_inj in Hn. subst c'. reflexivity. }
  split; [exact Hc|]. split; [exact Ht|]. split; [exact Htl|].
  intros start end_. apply iterate_ext; assumption.
Qed.

Lemma new_buffer_restores_pushes_witness :
  exists c c',
    push_all bitset_list_new [(3, bits_10); (10, bits_100_1000)] = Some c
    /\ bitset_list_new_buffer (c_length c) (c_buffer c) = Some c'
    /\ c_tail_offset c' = c_tail_offset c.
Proof.
  destruct (new_buffer_restores_pushes [(3, bits_10); (10, bits_100_1000)])
    as (c & c' & Hp & Hn & _ & _ & _ & _ & Ht & _);
    [discriminate | reflexivity | vm_compute; discriminate |].
  exists c, c'. split; [exact Hp|]. split; [exact Hn | exact Ht].
Defined.

(** X24: on any buffer that reads as a run of entries,
    [bitset_list_new_buffer] counts those entries, sums their relative
    offsets into the tail offset, points the tail at an entry of the buffer
    (when there is one), and gives a list over which an iterator for a
    window meets the entries whose offsets lie in the window. *)
Theorem new_buffer_counts_entries (buffer : list Z)
    (es : list (Z * bitset)) :
  Z.of_nat (length buffer) < 2 ^ 32 ->
  entries_from (S (length buffer)) 0 buffer = Some es ->
  exists c,
    bitset_list_new_buffer (Z.of_nat (length buffer)) buffer = Some c
    /\ c_buffer c = buffer
    /\ c_length c = Z.of_nat (length buffer)
    /\ c_size c = Z.of_nat (length buffer)
    /\ c_count c = Z.of_nat (length es)
    /\ c_tail_offset c = last (map fst es) 0
    /\ match es with
       | [] => c_tail c = Unassigned
       | _ :: _ => exists p, c_tail c = At p
                             /\ 0 <= p < Z.of_nat (length buffer)
       end
    /\ bitset_list_entries c = Some es
    /\ (forall start end_,
          iterate c start end_ = Some (filter (in_window start end_) es)).
Proof.
  intros Hsmall He.
  unfold bitset_list_new_buffer. rewrite Nat2Z.id, firstn_all.
  destruct (replay_loop_entries buffer (S (length buffer)) Hsmall
              {| r_i := 0; r_buf := 0; r_count := 0; r_tail_offset := 0;
                 r_tail := Unassigned |} es)
    as (r & Hr & Hc & Ht & Hp);
    cbn [r_i r_buf r_count r_tail_offset r_tail];
    try reflexivity; try lia; try exact He.
  cbn [r_i r_buf r_count r_tail_offset r_tail] in *.
  rewrite Hr. eexists. split; [reflexivity|].
  cbn [c_buffer c_length c_size c_count c_tail_offset c_tail].
  split; [reflexivity|]. split; [reflexivity|]. split; [reflexivity|].
  split; [lia|]. split; [exact Ht|]. split; [exact Hp|].
  split; [exact He|].
  intros start end_. apply iterate_entries;
    cbn [c_buffer c_length c_count]; try reflexivity; try lia; exact He.
Qed.

Lemma new_buffer_counts_entries_witness :
  exists c,
    bitset_list_new_buffer 6 [3; 1; 0; 0; 16; 0] = Some c
    /\ c_count c = 1 /\ c_tail_offset c = 3
    /\ iterate c 3 4 = Some [(3, [1048576])].
Proof.
  destruct (new_buffer_counts_entries [3; 1; 0; 0; 16; 0]
              [(3, [1048576])])
    as (c & Hn & _ & _ & _ & Hc & Ht & _ & _ & Hi);
    [vm_compute; reflexivity | vm_compute; reflexivity |].
  exists c. split; [exact Hn|]. split; [exact Hc|]. split; [exact Ht|].
  exact (Hi 3 4).
Defined.

Lemma write_slot_end {A : Type} (slots : list A) (k : Z) (x : A) :
  k = Z.of_nat (length slots) -> write_slot slots k x = Some (slots ++ [x]).
Proof.
  intros ->. unfold write_slot.
  destruct (Z.leb_spec 0 (Z.of_nat (length slots))); [|lia].
  rewrite Z.leb_refl. cbn [andb]. rewrite Nat2Z.id, firstn_all.
  rewrite skipn_all2 by lia. reflexivity.
Qed.

Lemma firstn_succ_nth {A : Type} (l : list A) :
  forall (n : nat) (x : A),
    nth_error l n = Some x -> firstn (S n) l = firstn n l ++ [x].
Proof.
  induction l as [|a l IH]; intros [|n] x H; cbn in H; try discriminate.
  - apply some_inj in H. subst. reflexivity.
  - cbn [firstn app]. f_equal. apply IH. exact H.
Qed.

Lemma concat_loop_appends (c : bitset_list_iterator) (offset pl : Z)
    (base_b : list bitset_view) (base_o : list Z) (n : nat) :
  length (i_offsets c) = length (i_bitsets c) ->
  pl = Z.of_nat (length base_b) ->
  length base_o = length base_b ->
  pl + Z.of_nat (length (i_bitsets c)) < 2 ^ 32 ->
  forall (j : nat) (i : bitset_list_iterator),
    (j + n = length (i_bitsets c))%nat ->
    i_bitsets i = base_b ++ firstn j (i_bitsets c) ->
    i_offsets i
    = base_o ++ map (fun o => wrap32 (o + offset)) (firstn j (i_offsets c)) ->
    concat_loop n (Z.of_nat j) pl c offset i
    = Some {| i_bitsets := base_b ++ i_bitsets c;
              i_offsets := base_o ++ map (fun o => wrap32 (o + offset))
                                         (i_offsets c);
              i_length := i_length i;
              i_size := i_size i |}.
Proof.
  intros Hco Hpl Hbase Hsmall.
  induction n as [|n IH]; intros j i Hj Hb Ho.
  - cbn [concat_loop]. rewrite Nat.add_0_r in Hj.
    rewrite Hj, firstn_all in Hb. rewrite Hj, <- Hco, firstn_all in Ho.
    rewrite <- Hb, <- Ho. destruct i; reflexivity.
  - cbn [concat_loop]. rewrite Nat2Z.id.
    destruct (nth_error (i_bitsets c) j) as [b|] eqn:Eb;
      [|apply nth_error_None in Eb; lia].
    destruct (nth_error (i_offsets c) j) as [o|] eqn:Eo;
      [|apply nth_error_None in Eo; lia].
    assert (Hw : wrap32 (Z.of_nat j + pl)
                 = Z.of_nat (length (i_bitsets i))).
    { rewrite Hb, length_app, length_firstn. unfold wrap32.
      rewrite Z.mod_small; lia. }
    rewrite Hw, write_slot_end by reflexivity.
    assert (Hlo : length (i_offsets i) = length (i_bitsets i)).
    { rewrite Hb, Ho, !length_app, length_map, !length_firstn. lia. }
    rewrite <- Hlo, write_slot_end by reflexivity.
    replace (Z.of_nat j + 1) with (Z.of_nat (S j)) by lia.
    rewrite IH; cbn [i_bitsets i_offsets i_length i_size]; try reflexivity.
    + lia.
    + rewrite Hb, (firstn_succ_nth _ _ _ Eb), app_assoc. reflexivity.
    + rewrite Ho, (firstn_succ_nth _ _ _ Eo), map_app, app_assoc.
      reflexivity.
Qed.

(** X25: [bitset_list_iterator_concat] appends: for two iterators whose
    arrays are filled up to their lengths, with at most [2 ^ 31] entries in
    all, the call returns, the bitsets of [i] after it are those of [i]
    followed by
    those of [c], the offsets are those of [i] followed by those of [c]
    each moved up by [offset] (modulo [2 ^ 32]), and the length is the sum
    of the two lengths; an empty [c] leaves [i] as it is. *)
Theorem iterator_concat_appends (i c : bitset_list_iterator) (offset : Z) :
  i_length i = Z.of_nat (length (i_bitsets i)) ->
  length (i_offsets i) = length (i_bitsets i) ->
  i_length c = Z.of_nat (length (i_bitsets c)) ->
  length (i_offsets c) = length (i_bitsets c) ->
  i_length i + i_length c <= 2 ^ 31 ->
  exists i',
    bitset_list_iterator_concat i c offset = Some i'
    /\ i_bitsets i' = i_bitsets i ++ i_bitsets c
    /\ i_offsets i'
       = i_offsets i ++ map (fun o => wrap32 (o + offset)) (i_offsets c)
    /\ i_length i' = i_length i + i_length c
    /\ (i_length c = 0 -> i' = i).
Proof.
  intros Hi Hio Hc Hco Hsmall. unfold bitset_list_iterator_concat.
  destruct (Z.eqb_spec (i_length c) 0) as [E|E]; cbn [negb].
  - assert (Hb : i_bitsets c = [])
      by (destruct (i_bitsets c); [reflexivity | cbn [length] in Hc; lia]).
    assert (Ho : i_offsets c = [])
      by (destruct (i_offsets c); [reflexivity
                                  | rewrite Hb in Hco; discriminate]).
    exists i. rewrite Hb, Ho, E. cbn [map]. rewrite !app_nil_r.
    repeat split; try reflexivity. lia.
  - assert (Hw : wrap32 (i_length i + i_length c) = i_length i + i_length c)
      by (unfold wrap32; apply Z.mod_small; lia).
    rewrite Hw, iterator_resize_grows by lia.
    rewrite Hc, Nat2Z.id.
    rewrite (concat_loop_appends c offset (i_length i) (i_bitsets i)
               (i_offsets i) (length (i_bitsets c)) Hco Hi Hio ltac:(lia)
               0%nat);
      cbn [i_bitsets i_offsets i_length i_size firstn map];
      try (rewrite app_nil_r; reflexivity); try reflexivity.
    eexists. split; [reflexivity|].
    cbn [i_bitsets i_offsets i_length].
    repeat split; try reflexivity. intros H0. lia.
Qed.

Lemma iterator_concat_appends_witness :
  exists i',
    bitset_list_iterator_concat
      {| i_bitsets := [{| v_words := 2; v_length := 1 |}];
         i_offsets := [3]; i_length := 1; i_size := 1 |}
      {| i_bitsets := [{| v_words := 8; v_length := 2 |}];
         i_offsets := [10]; i_length := 1; i_size := 1 |} 100
    = Some i'
    /\ i_offsets i' = [3; 110].
Proof.
  destruct (iterator_concat_appends
      {| i_bitsets := [{| v_words := 2; v_length := 1 |}];
         i_offsets := [3]; i_length := 1; i_size := 1 |}
      {| i_bitsets := [{| v_words := 8; v_length := 2 |}];
         i_offsets := [10]; i_length := 1; i_size := 1 |} 100)
    as (i' & H & _ & Ho & _);
    [reflexivity | reflexivity | reflexivity | reflexivity
     | vm_compute; discriminate |].
  exists i'. split; [exact H | exact Ho].
Defined.

Lemma scan_step_inv (mem : list Z) (start end_ : Z) (s s' : scan) :
  scan_step mem start end_ s = Some s' ->
  scan_inv start end_ s ->
  s_b s < 2 ^ 31 ->
  scan_inv start end_ s' /\ s_b s' <= s_b s + 1.
Proof.
  unfold scan_step.
  destruct (bitset_encoded_length mem (s_buffer s)) as [delta|];
    [|discriminate].
  destruct (bitset_encoded_length_size mem (s_buffer s)) as [ob|];
    [|discriminate].
  destruct (bitset_encoded_length mem (s_buffer s + ob)) as [count|];
    [|discriminate].
  destruct (bitset_encoded_length_size mem (s_buffer s + ob)) as [cb|];
    [|discriminate].
  set (offset := wrap32 (s_offset s + delta)).
  unfold scan_inv.
  intros H (Hb0 & Hlen & Hlo & Hcap & Hil & Hwin) Hb.
  assert (W : wrap32 (s_b s + 1) = s_b s + 1)
    by (unfold wrap32; apply Z.mod_small; lia).
  destruct ((start <=? offset) && ((end_ =? 0) || (offset <? end_))) eqn:Ew;
    [rewrite W, iterator_resize_grows in H by lia|];
    apply some_inj in H; subst s';
    cbn [s_b s_i i_bitsets i_offsets i_length i_size].
  - split; [|lia].
    split; [lia|]. split; [rewrite length_app; cbn [length]; lia|].
    split; [rewrite !length_app; cbn [length]; lia|].
    split.
    { destruct (Z.ltb_spec (i_size (s_i s)) (s_b s + 1)); [|lia].
      destruct (next_pow2_bounds (s_b s + 1) ltac:(lia)) as [_ Hn]. lia. }
    split; [reflexivity|].
    apply Forall_app. split; [exact Hwin|].
    constructor; [|constructor].
    apply andb_true_iff in Ew. destruct Ew as [E1 E2].
    apply Z.leb_le in E1. apply orb_true_iff in E2.
    pose proof (Z.mod_pos_bound (s_offset s + delta) (2 ^ 32) ltac:(lia)).
    split; [exact E1|]. split; [|unfold offset, wrap32; lia].
    destruct E2 as [E2|E2]; [left; apply Z.eqb_eq, E2
                            | right; apply Z.ltb_lt, E2].
  - split; [|lia]. repeat split; assumption.
Qed.

Lemma scan_loop_inv (mem : list Z) (c_length start end_ : Z) (fuel : nat) :
  forall s s' : scan,
    scan_loop fuel mem c_length start end_ s = Some s' ->
    scan_inv start end_ s ->
    s_b s + Z.of_nat fuel <= 2 ^ 31 ->
    scan_inv start end_ s' /\ s_b s' <= s_b s + Z.of_nat fuel.
Proof.
  induction fuel as [|fuel IH]; intros s s' H Hinv Hb; cbn [scan_loop] in H.
  - destruct (s_j s <? c_length); [discriminate|].
    apply some_inj in H. subst s'. split; [exact Hinv | lia].
  - destruct (s_j s <? c_length).
    + destruct (scan_step mem start end_ s) as [s1|] eqn:E1; [|discriminate].
      destruct (scan_step_inv _ _ _ _ _ E1 Hinv ltac:(lia)) as [Hinv1 Hb1].
      destruct (IH s1 s' H Hinv1 ltac:(lia)) as [Hinv' Hb'].
      split; [exact Hinv' | lia].
    + apply some_inj in H. subst s'. split; [exact Hinv | lia].
Qed.

(** X26: whatever the list holds, when [bitset_list_iterator_new] returns
    for a buffer of fewer than [2 ^ 31] bytes, the iterator is in order:
    its two arrays have the same number of slots written, at most one per
    byte of the buffer plus one; its length is within its capacity and,
    once a slot is written, is that number of slots; and every offset it
    holds is an [unsigned] value inside the window asked for. *)
Theorem iterator_new_in_order (c : bitset_list) (start end_ : Z)
    (i : bitset_list_iterator) :
  Z.of_nat (length (c_buffer c)) < 2 ^ 31 ->
  bitset_list_iterator_new c start end_ = Some i ->
  length (i_offsets i) = length (i_bitsets i)
  /\ (length (i_bitsets i) <= S (length (c_buffer c)))%nat
  /\ i_length i <= i_size i
  /\ (i_bitsets i <> [] -> i_length i = Z.of_nat (length (i_bitsets i)))
  /\ Forall (fun o => start <= o /\ (end_ = 0 \/ o < end_) /\ o < 2 ^ 32)
       (i_offsets i).
Proof.
  intros Hsmall. unfold bitset_list_iterator_new.
  match goal with
  | |- context [scan_loop ?f ?m ?l start end_ ?s0] =>
      destruct (scan_loop f m l start end_ s0) as [s|] eqn:E; [|discriminate];
      destruct (scan_loop_inv m l start end_ f s0 s E) as [Hinv Hb]
  end.
  - unfold scan_inv.
    destruct ((start =? BITSET_LIST_START) && (end_ =? BITSET_LIST_END));
      cbn [s_b s_i i_bitsets i_offsets i_length i_size length];
      (split; [lia|]); (split; [reflexivity|]); (split; [reflexivity|]);
      (split; [lia|]); (split; [intros H; contradiction H; reflexivity|]);
      constructor.
  - cbn [s_b]. lia.
  - intros H. apply some_inj in H. subst i.
    destruct Hinv as (Hb0 & Hlen & Hlo & Hcap & Hil & Hwin).
    cbn [s_b] in Hb.
    split; [exact Hlo|]. split; [lia|]. split; [exact Hcap|].
    split; [|exact Hwin].
    intros Hne. rewrite Hlen. apply Hil. rewrite <- Hlen.
    destruct (i_bitsets (s_i s)); [contradiction Hne; reflexivity|].
    cbn [length]. lia.
Qed.

Lemma iterator_new_in_order_witness :
  exists i,
    bitset_list_iterator_new list_3_10 4 0 = Some i
    /\ i_length i <= i_size i
    /\ Forall (fun o => 4 <= o /\ (0 = 0 \/ o < 0) /\ o < 2 ^ 32) (i_offsets i).
Proof.
  destruct (bitset_list_iterator_new list_3_10 4 0) as [i|] eqn:E;
    [|vm_compute in E; discriminate].
  destruct (iterator_new_in_order list_3_10 4 0 i) as (_ & _ & Hc & _ & Hw);
    [vm_compute; reflexivity | exact E |].
  exists i. split; [reflexivity|]. split; [exact Hc | exact Hw].
Defined.

Lemma entries_from_entry_any (fuel : nat) (prev delta : Z) (b : bitset)
    (rest : list Z) :
  0 <= delta ->
  bitset_words_count b < 256 ->
  Forall (fun w => 0 <= w < 2 ^ 32) b ->
  let low := if delta <? 64 then delta else delta mod 256 in
  entries_from (S fuel) prev (entry_bytes delta b ++ rest)
  = (tail <- entries_from fuel (wrap32 (prev + low)) rest ;;
     Some ((wrap32 (prev + low), b) :: tail)).
Proof.
  intros Hd Hn Hb low.
  assert (Hn0 : 0 <= bitset_words_count b) by (unfold bitset_words_count; lia).
  set (n := bitset_words_count b) in *.
  set (ob := bitset_encoded_length_required_bytes delta).
  set (cb := bitset_encoded_length_required_bytes n).
  pose proof (required_bytes_range delta) as Rd. fold ob in Rd.
  pose proof (required_bytes_range n) as Rc. fold cb in Rc.
  pose proof (encode_length delta ltac:(lia)) as Ld. fold ob in Ld.
  pose proof (encode_length n ltac:(lia)) as Ln. fold cb in Ln.
  set (bytes := entry_bytes delta b ++ rest).
  assert (Eb : bytes = encode delta ++ (encode n ++ (words_to_bytes b ++ rest)))
    by (subst bytes; unfold entry_bytes; fold n; rewrite <- !app_assoc;
        reflexivity).
  assert (Hne : bytes <> []).
  { intros H. apply (f_equal (@length Z)) in H. rewrite Eb, length_app in H.
    simpl in H. lia. }
  rewrite entries_from_unfold by exact Hne.
  destruct (decode_encode delta (encode n ++ (words_to_bytes b ++ rest))
              ltac:(lia)) as [D1 S1].
  rewrite <- Eb in D1, S1. fold ob in S1. fold low in D1. rewrite D1, S1.
  assert (Sk1 : skipn (Z.to_nat ob) bytes
                = encode n ++ (words_to_bytes b ++ rest))
    by (rewrite Eb; apply skipn_exact; lia).
  destruct (decode_encode n (words_to_bytes b ++ rest) ltac:(lia)) as [D2 S2].
  rewrite <- Sk1 in D2, S2. fold cb in S2.
  rewrite encoded_length_skipn in D2 by lia.
  rewrite encoded_length_size_skipn in S2 by lia.
  rewrite Z.add_0_r in D2, S2. rewrite D2, S2.
  replace (if n <? 64 then n else n mod 256) with n
    by (destruct (n <? 64); [reflexivity | rewrite Z.mod_small; lia]).
  assert (Sk2 : skipn (Z.to_nat (ob + cb)) bytes = words_to_bytes b ++ rest).
  { rewrite Eb, app_assoc. apply skipn_exact. rewrite length_app. lia. }
  pose proof (load_words_of_bytes b rest Hb) as Lw.
  rewrite <- Sk2, load_words_skipn, Z.add_0_r in Lw by lia.
  replace (Z.to_nat n) with (length b) by (unfold n, bitset_words_count; lia).
  rewrite Lw.
  replace (skipn (Z.to_nat (ob + cb + 4 * n)) bytes) with rest; [reflexivity|].
  symmetry. rewrite Eb, !app_assoc. apply skipn_exact.
  rewrite !length_app, words_to_bytes_length.
  unfold n, bitset_words_count in *. lia.
Qed.

(** X27: the buffer keeps only the low byte of a relative offset of 64 or
    more.  After one push onto the empty list at [offset], the list's own
    [tail_offset] is [offset], while the entry read from the buffer, by
    [bitset_list_new_buffer] and by an iterator alike, has the offset
    [offset mod 256] when [offset >= 64]; the two agree exactly when
    [offset < 256]. *)
Theorem push_keeps_low_byte_of_offset (b : bitset) (offset : Z) :
  0 <= offset < 2 ^ 32 ->
  bitset_words_count b < 256 ->
  Forall (fun w => 0 <= w < 2 ^ 32) b ->
  let low := if offset <? 64 then offset else offset mod 256 in
  exists c c',
    bitset_list_push bitset_list_new b offset = Pushed c
    /\ c_tail_offset c = offset
    /\ bitset_list_entries c = Some [(low, b)]
    /\ iterate c BITSET_LIST_START BITSET_LIST_END = Some [(low, b)]
    /\ bitset_list_new_buffer (c_length c) (c_buffer c) = Some c'
    /\ c_tail_offset c' = low
    /\ (low = offset <-> offset < 256).
Proof.
  intros Ho Hn Hb low.
  pose proof (entry_bytes_length offset b ltac:(lia)) as Hlen.
  pose proof (required_bytes_range offset) as R1.
  pose proof (required_bytes_range (bitset_words_count b)) as R2.
  assert (Hn0 : 0 <= bitset_words_count b) by (unfold bitset_words_count; lia).
  assert (Hlow : 0 <= low < 2 ^ 32).
  { unfold low. destruct (Z.ltb_spec offset 64); [lia|].
    pose proof (Z.mod_pos_bound offset 256 ltac:(lia)). lia. }
  destruct (push_appends bitset_list_new b offset) as (size' & Hp);
    cbn [bitset_list_new c_length c_buffer c_tail_offset length];
    try reflexivity; try lia.
  { rewrite Z.sub_0_r, Hlen. lia. }
  cbn [bitset_list_new c_length c_buffer c_tail_offset c_count app] in Hp.
  rewrite Z.sub_0_r in Hp.
  set (buf := entry_bytes offset b) in *.
  change (0 + Z.of_nat (length buf)) with (Z.of_nat (length buf)) in Hp.
  assert (He : entries_from (S (length buf)) 0 buf = Some [(low, b)]).
  { rewrite <- (app_nil_r buf) at 2. unfold buf.
    rewrite entries_from_entry_any by (assumption || lia). fold low.
    replace (wrap32 (0 + low)) with low
      by (unfold wrap32; rewrite Z.mod_small; lia).
    destruct (length (entry_bytes offset b)); reflexivity. }
  assert (Hsmall : Z.of_nat (length buf) < 2 ^ 32) by lia.
  destruct (replay_loop_entries buf (S (length buf)) Hsmall
              {| r_i := 0; r_buf := 0; r_count := 0; r_tail_offset := 0;
                 r_tail := Unassigned |} [(low, b)])
    as (r & Hr & Hc & Ht & _);
    cbn [r_i r_buf r_count r_tail_offset r_tail];
    try reflexivity; try lia; try exact He.
  cbn [r_tail_offset map fst last] in Ht.
  eexists. eexists. split; [exact Hp|].
  cbn [c_tail_offset c_buffer c_length].
  split; [reflexivity|]. split; [exact He|]. split.
  { rewrite (iterate_entries _ BITSET_LIST_START BITSET_LIST_END [(low, b)]);
      cbn [c_buffer c_length c_count length]; try reflexivity; try lia;
      try exact He.
    cbn [filter]. unfold in_window, BITSET_LIST_START, BITSET_LIST_END.
    cbn [fst]. destruct (Z.leb_spec 0 low); [reflexivity | lia]. }
  split.
  { unfold bitset_list_new_buffer. cbn [app].
    rewrite Nat2Z.id, firstn_all, Hr. reflexivity. }
  cbn [c_tail_offset]. split; [exact Ht|].
  unfold low. destruct (Z.ltb_spec offset 64); [lia|].
  pose proof (Z.mod_pos_bound offset 256 ltac:(lia)) as Hm. split.
  - intros E. lia.
  - intros Hlt. apply Z.mod_small. lia.
Qed.

Lemma push_keeps_low_byte_of_offset_witness :
  exists c c',
    bitset_list_push bitset_list_new bits_10 1000 = Pushed c
    /\ c_tail_offset c = 1000
    /\ bitset_list_entries c = Some [(232, bits_10)]
    /\ bitset_list_new_buffer (c_length c) (c_buffer c) = Some c'
    /\ c_tail_offset c' = 232.
Proof.
  destruct (push_keeps_low_byte_of_offset bits_10 1000)
    as (c & c' & Hp & Ht & He & _ & Hn & Ht' & _);
    [lia | vm_compute; reflexivity
     | repeat constructor; vm_compute; congruence |].
  exists c, c'. split; [exact Hp|]. split; [exact Ht|]. split; [exact He|].
  split; [exact Hn | exact Ht'].
Defined.
End BListMore.
